(** * A shallow embedding of mm.c, a segregated-free-list allocator

    The allocator of [mm.c] works on raw memory: block headers and footers,
    the links of the free lists and the array of bucket heads all live in
    the managed region itself.  The embedding keeps that picture: memory
    is a byte-addressed store, pointers are integers, and every C function
    becomes a function on an explicit machine state.

    Platform assumptions (LP64, little-endian): [sizeof(size_t)] and
    [sizeof(void * )] are 8, [int] has 32 bits.  Integer conversions are
    written out with [size_t] and [int].  Accesses outside the managed
    region are carried out on the flat store; no fault is modelled.

    The loops that follow the links of a free list take fuel, and a
    function that contains one returns [None] when the fuel runs out; a
    result obtained with some fuel is the result for any larger fuel
    (section Fuel).  The other loops are bounded by MAXPOW or by the width
    of a [size_t]. *)

From Stdlib Require Import ZArith List Lia Bool String.
Import ListNotations.
Local Open Scope Z_scope.

(** ** Byte-addressed memory *)

Module Mem.

(** One cell per address; only the low eight bits of a cell are observed. *)
Definition memory := Z -> Z.

Fixpoint load_le (n : nat) (m : memory) (a : Z) : Z :=
  match n with
  | O => 0
  | S k => m a mod 256 + 256 * load_le k m (a + 1)
  end.

(** [*(size_t * )a] as an rvalue. *)
Definition load64 (m : memory) (a : Z) : Z := load_le 8 m a.

(** [*(size_t * )a = v]. *)
Definition store64 (m : memory) (a v : Z) : memory :=
  fun x => if (a <=? x) && (x <? a + 8)
           then Z.shiftr v (8 * (x - a)) mod 256
           else m x.

(** [memmove(dst, src, n)]: the source bytes are read from the store as it
    was before the call, so overlapping ranges are handled. *)
Definition memmove (m : memory) (dst src n : Z) : memory :=
  fun x => if (dst <=? x) && (x <? dst + n)
           then m (src + (x - dst))
           else m x.

Definition zeroed : memory := fun _ => 0.

End Mem.

(** ** Machine state: the heap provider's registers, the store, the global
    [free_seglist] and the standard output. *)

Record state := mkState {
  mem_start_brk : Z;
  mem_brk : Z;
  mem_max_addr : Z;
  heap : Mem.memory;
  free_seglist : Z;
  stdout : list string
}.

Definition set_brk (s : state) (b : Z) : state :=
  mkState (mem_start_brk s) b (mem_max_addr s) (heap s) (free_seglist s) (stdout s).

Definition set_heap (s : state) (m : Mem.memory) : state :=
  mkState (mem_start_brk s) (mem_brk s) (mem_max_addr s) m (free_seglist s) (stdout s).

Definition set_free_seglist (s : state) (p : Z) : state :=
  mkState (mem_start_brk s) (mem_brk s) (mem_max_addr s) (heap s) p (stdout s).

Definition printf (s : state) (line : string) : state :=
  mkState (mem_start_brk s) (mem_brk s) (mem_max_addr s) (heap s) (free_seglist s)
          (stdout s ++ [line]).

Definition rd (s : state) (a : Z) : Z := Mem.load64 (heap s) a.
Definition wr (s : state) (a v : Z) : state := set_heap s (Mem.store64 (heap s) a v).

(** ** C integer conversions *)

Definition size_t (x : Z) : Z := x mod 2 ^ 64.
Definition int (x : Z) : Z := (x + 2 ^ 31) mod 2 ^ 32 - 2 ^ 31.

Definition NULL : Z := 0.
Definition sizeof_size_t : Z := 8.
Definition sizeof_ptr : Z := 8.

(** ** The heap provider *)

Module Memlib.

(** Modelled from the spec: the heap provider (memlib.h and its
    implementation are not part of the sources).  [mem_sbrk] is the
    provider's [extend(delta)]: it grows the managed region by [delta]
    bytes at its high end and returns the previous high boundary, or a
    failure sentinel if growth is impossible.  Growth is impossible for a
    negative increment and beyond the provider's limit [mem_max_addr].
    mm.c tests the result against NULL, so NULL is the sentinel. *)
Definition mem_sbrk (s : state) (incr : Z) : Z * state :=
  if (incr <? 0) || (mem_max_addr s <? mem_brk s + incr)
  then (NULL, s)
  else (mem_brk s, set_brk s (mem_brk s + incr)).

(** Modelled from the spec: the provider's [low()], the first byte of the
    managed region. *)
Definition mem_heap_lo (s : state) : Z := mem_start_brk s.

(** Modelled from the spec: the provider's [high()].  mm.c subtracts
    [SIZE_T_SIZE - 1] from it to reach the last footer, so it is the
    address of the last byte of the region. *)
Definition mem_heap_hi (s : state) : Z := mem_brk s - 1.

(** Modelled from the spec: the provider's [size()]. *)
Definition mem_heapsize (s : state) : Z := size_t (mem_brk s - mem_start_brk s).

End Memlib.
Import Memlib.

(** ** Macros of mm.c *)

Definition ALIGNMENT : Z := 8.

(** [(((size) + (ALIGNMENT-1)) & ~0x7)] on a [size_t]. *)
Definition ALIGN (size : Z) : Z :=
  Z.land (size_t (size + (ALIGNMENT - 1))) (Z.lnot 7).

Definition SIZE_T_SIZE : Z := ALIGN sizeof_size_t.

Definition GETSIZE (header : Z) : Z := Z.land header (-2).
Definition GETDIRTYBIT (header : Z) : Z := Z.land header 1.

Definition GETFOOTER (s : state) (header_ptr : Z) : Z :=
  header_ptr + GETSIZE (rd s header_ptr) - SIZE_T_SIZE.
Definition GETNEXTBLOCK (s : state) (header_ptr : Z) : Z :=
  header_ptr + GETSIZE (rd s header_ptr).

(** [GETNEXTFREE] and [GETPREVFREE] are lvalues; [NEXTFREE_addr] and
    [PREVFREE_addr] are the cells they denote. *)
Definition NEXTFREE_addr (header_ptr : Z) : Z := header_ptr + SIZE_T_SIZE.
Definition PREVFREE_addr (header_ptr : Z) : Z := header_ptr + 2 * SIZE_T_SIZE.
Definition GETNEXTFREE (s : state) (header_ptr : Z) : Z := rd s (NEXTFREE_addr header_ptr).
Definition GETPREVFREE (s : state) (header_ptr : Z) : Z := rd s (PREVFREE_addr header_ptr).

Definition MAXPOW : Z := 25.

(** [free_seglist[index]] as a cell. *)
Definition seglist_slot (s : state) (index : Z) : Z := free_seglist s + index * sizeof_ptr.

(** The first address after the bucket array. *)
Definition heap_start (s : state) : Z := mem_heap_lo s + ALIGN (MAXPOW * sizeof_ptr).

(** ** seglist_index *)

(** [while (size) { size = size >> 1; rsp += 1; }]; a [size_t] is zero
    after 64 shifts. *)
Fixpoint seglist_index_loop (n : nat) (size rsp : Z) : Z :=
  match n with
  | O => rsp
  | S k => if size =? 0 then rsp
           else seglist_index_loop k (Z.shiftr size 1) (rsp + 1)
  end.

Definition seglist_index (size : Z) : Z :=
  if size <? 64 then 0
  else
    let rsp := seglist_index_loop 64 size 0 in
    if rsp - 6 <? MAXPOW then rsp - 6 else MAXPOW - 1.

(** ** mm_init *)

Fixpoint mm_init_loop (n : nat) (i : Z) (s : state) : state :=
  match n with
  | O => s
  | S k => if i <? MAXPOW then mm_init_loop k (i + 1) (wr s (seglist_slot s i) NULL)
           else s
  end.

Definition mm_init (s : state) : Z * state :=
  let s1 := snd (mem_sbrk s (int (ALIGN (MAXPOW * sizeof_ptr)))) in
  let s2 := set_free_seglist s1 (mem_heap_lo s1) in
  if free_seglist s2 =? NULL then (0, s2)
  else (1, mm_init_loop (Z.to_nat MAXPOW) 0 s2).

(** ** remove_link *)

Definition remove_link (s : state) (ptr : Z) : state :=
  if (GETNEXTFREE s ptr =? NULL) && (GETPREVFREE s ptr =? NULL) then
    wr s (seglist_slot s (seglist_index (GETSIZE (rd s ptr)))) NULL
  else if GETNEXTFREE s ptr =? NULL then
    wr s (NEXTFREE_addr (GETPREVFREE s ptr)) NULL
  else if GETPREVFREE s ptr =? NULL then
    let s1 := wr s (PREVFREE_addr (GETNEXTFREE s ptr)) NULL in
    wr s1 (seglist_slot s1 (seglist_index (GETSIZE (rd s1 ptr)))) (GETNEXTFREE s1 ptr)
  else
    let s1 := wr s (NEXTFREE_addr (GETPREVFREE s ptr)) (GETNEXTFREE s ptr) in
    wr s1 (PREVFREE_addr (GETNEXTFREE s1 ptr)) (GETPREVFREE s1 ptr).

(** ** add_to_list *)

(** The walk of add_to_list.  The loop condition compares
    [GETSIZE(GETNEXTFREE(free_slot))], the link itself with its low bit
    cleared, with the size of the new block.  [None]: out of fuel. *)
Fixpoint add_to_list_walk (fuel : nat) (s : state) (free_slot ptr : Z) : option Z :=
  match fuel with
  | O => None
  | S k =>
      if negb (GETNEXTFREE s free_slot =? NULL)
         && (GETSIZE (GETNEXTFREE s free_slot) <? GETSIZE (rd s ptr))
      then add_to_list_walk k s (GETNEXTFREE s free_slot) ptr
      else Some free_slot
  end.

Definition add_to_list (fuel : nat) (s : state) (ptr : Z) : option state :=
  let index := seglist_index (GETSIZE (rd s ptr)) in
  if rd s (seglist_slot s index) =? NULL then
    let s1 := wr s (seglist_slot s index) ptr in
    let s2 := wr s1 (NEXTFREE_addr ptr) NULL in
    Some (wr s2 (PREVFREE_addr ptr) NULL)
  else
    match add_to_list_walk fuel s (rd s (seglist_slot s index)) ptr with
    | None => None
    | Some free_slot =>
        let s1 := wr s (NEXTFREE_addr ptr) (GETNEXTFREE s free_slot) in
        let s2 := wr s1 (PREVFREE_addr ptr) free_slot in
        let s3 := if negb (GETNEXTFREE s2 free_slot =? NULL)
                  then wr s2 (PREVFREE_addr (GETNEXTFREE s2 free_slot)) ptr
                  else s2 in
        Some (wr s3 (NEXTFREE_addr free_slot) ptr)
    end.

(** ** get_optimal_free_block *)

(** The inner loop over one bucket.  [Some NULL]: the end of the list was
    reached; [None]: out of fuel. *)
Fixpoint get_optimal_inner (fuel : nat) (s : state) (free_list size : Z) : option Z :=
  match fuel with
  | O => None
  | S k =>
      if free_list =? NULL then Some NULL
      else if size <=? GETSIZE (rd s free_list) then Some free_list
      else get_optimal_inner k s (GETNEXTFREE s free_list) size
  end.

(** The outer loop; it runs at most MAXPOW times. *)
Fixpoint get_optimal_outer (n fuel : nat) (s : state) (index size : Z) : option Z :=
  match n with
  | O => Some NULL
  | S k =>
      if index <? MAXPOW then
        match get_optimal_inner fuel s (rd s (seglist_slot s index)) size with
        | None => None
        | Some p => if p =? NULL then get_optimal_outer k fuel s (index + 1) size
                    else Some p
        end
      else Some NULL
  end.

Definition get_optimal_free_block (fuel : nat) (s : state) (size : Z) : option Z :=
  get_optimal_outer (Z.to_nat MAXPOW) fuel s (seglist_index size) size.

(** ** mm_coalesce *)

(** [header_ptr] is passed by reference in C; the new value is returned
    with the state. *)
Definition mm_coalesce (s : state) (header_ptr : Z) : Z * state :=
  let start := heap_start s in
  let end_ := mem_heap_hi s in
  let next_header := header_ptr + GETSIZE (rd s header_ptr) in
  let s1 :=
    if (next_header <? end_) && (GETDIRTYBIT (rd s next_header) =? 0) then
      let sa := remove_link s next_header in
      let sb := wr sa header_ptr
                   (size_t (rd sa header_ptr + GETSIZE (rd sa next_header))) in
      wr sb (GETFOOTER sb next_header) (rd sb header_ptr)
    else s in
  let footer := GETFOOTER s1 header_ptr in
  let prev_footer := footer - GETSIZE (rd s1 footer) in
  if prev_footer <=? start then (header_ptr, s1)
  else
    let prev_header := prev_footer - GETSIZE (rd s1 prev_footer) + SIZE_T_SIZE in
    if GETDIRTYBIT (rd s1 prev_header) =? 0 then
      let sa := remove_link s1 prev_header in
      let sb := wr sa prev_header
                   (size_t (rd sa prev_header + GETSIZE (rd sa header_ptr))) in
      let sc := wr sb footer (rd sb prev_header) in
      (prev_header, sc)
    else (header_ptr, s1).

(** ** mm_malloc *)

(** The adjusted request size computed at the top of mm_malloc and of
    mm_realloc. *)
Definition adjusted_size (size : Z) : Z :=
  let new_size := ALIGN (size_t (size + 2 * SIZE_T_SIZE)) in
  if new_size <? ALIGN (4 * SIZE_T_SIZE) then ALIGN (4 * SIZE_T_SIZE) else new_size.

(** [*p = v; *GETFOOTER(p) = v]: a header store followed by the store of
    the same word at the footer that the new header designates. *)
Definition write_tags (s : state) (p new_header : Z) : state :=
  let s1 := wr s p new_header in
  wr s1 (GETFOOTER s1 p) new_header.

(** [None] stands for a list walk that ran out of fuel; a returned NULL is
    [Some (NULL, _)]. *)
Definition mm_malloc (fuel : nat) (s : state) (size : Z) : option (Z * state) :=
  if size =? 0 then Some (NULL, s)
  else
    let new_size := adjusted_size size in
    let new_header := Z.lor new_size 1 in
    match get_optimal_free_block fuel s new_size with
    | None => None
    | Some p =>
        let end_ := mem_heap_hi s in
        if negb (p =? NULL) then
          let s1 := remove_link s p in
          let old_size := int (GETSIZE (rd s1 p)) in
          if ALIGN (4 * SIZE_T_SIZE) <=? size_t (old_size - new_size) then
            let leftover := p + new_size in
            let s3 := write_tags s1 leftover (size_t (old_size - new_size)) in
            match add_to_list fuel s3 leftover with
            | None => None
            | Some s4 => Some (p + SIZE_T_SIZE, write_tags s4 p new_header)
            end
          else
            Some (p + SIZE_T_SIZE, write_tags s1 p (size_t (Z.lor old_size 1)))
        else
          let end_ := end_ - (SIZE_T_SIZE - 1) in
          if negb (mem_heapsize s =? 0) && (GETDIRTYBIT (rd s end_) =? 0) then
            if 50 * SIZE_T_SIZE <? GETSIZE (rd s end_) then
              let p := end_ - GETSIZE (rd s end_) + SIZE_T_SIZE in
              let s1 := snd (mem_sbrk s
                         (int (size_t (int (GETSIZE new_header) - GETSIZE (rd s end_))))) in
              let s2 := remove_link s1 p in
              Some (p + SIZE_T_SIZE, write_tags s2 p new_header)
            else
              let (p, s1) := mem_sbrk s (int (GETSIZE new_header)) in
              if p =? NULL then Some (NULL, s1)
              else Some (p + SIZE_T_SIZE, write_tags s1 p new_header)
          else
            if 50 * SIZE_T_SIZE <? GETSIZE new_header then
              let (p, s1) := mem_sbrk s (int (GETSIZE new_header)) in
              if p =? NULL then Some (NULL, s1)
              else Some (p + SIZE_T_SIZE, write_tags s1 p new_header)
            else
              let (p, s1) := mem_sbrk s (int (int (GETSIZE new_header) * 2)) in
              if p =? NULL then Some (NULL, s1)
              else
                let s3 := write_tags s1 (p + GETSIZE new_header)
                                     (Z.land new_header (-2)) in
                match add_to_list fuel s3 (p + GETSIZE new_header) with
                | None => None
                | Some s4 => Some (p + SIZE_T_SIZE, write_tags s4 p new_header)
                end
    end.

(** ** mm_free *)

Definition free_warning : string := "Warning : attempting to free a free block".

Definition mm_free (fuel : nat) (s : state) (ptr : Z) : option state :=
  let header_ptr := ptr - SIZE_T_SIZE in
  if GETDIRTYBIT (rd s header_ptr) =? 0 then
    Some (printf s free_warning)
  else
    let (header_ptr, s1) := mm_coalesce s header_ptr in
    match add_to_list fuel s1 header_ptr with
    | None => None
    | Some s2 => Some (wr s2 header_ptr (Z.land (rd s2 header_ptr) (-2)))
    end.

(** ** mm_realloc *)

Definition do_memmove (s : state) (dst src n : Z) : state :=
  set_heap s (Mem.memmove (heap s) dst src n).

(** The branch taken when both neighbours are free and large enough. *)
Definition realloc_sandwich (fuel : nat) (s : state) (ptr newsize current_size
                             next_header prev_footer : Z) : option (Z * state) :=
  let new_free_size :=
    size_t (GETSIZE (rd s next_header) + current_size + GETSIZE (rd s prev_footer) - newsize) in
  let s1 := remove_link s next_header in
  let prev_header := prev_footer - GETSIZE (rd s1 prev_footer) + SIZE_T_SIZE in
  let s2 := remove_link s1 prev_header in
  if new_free_size <? 4 * SIZE_T_SIZE then
    let newsize := size_t (new_free_size + newsize) in
    let new_header := prev_header in
    let s3 := do_memmove s2 (new_header + SIZE_T_SIZE) ptr (size_t (current_size - SIZE_T_SIZE)) in
    let s4 := write_tags s3 new_header (Z.lor newsize 1) in
    Some (new_header + SIZE_T_SIZE, s4)
  else
    let new_header := next_header + GETSIZE (rd s2 next_header) - newsize in
    let s3 := do_memmove s2 (new_header + SIZE_T_SIZE) ptr (size_t (current_size - SIZE_T_SIZE)) in
    let s4 := write_tags s3 new_header (Z.lor newsize 1) in
    let s5 := write_tags s4 prev_header (Z.land new_free_size (-2)) in
    match add_to_list fuel s5 prev_header with
    | None => None
    | Some s6 => Some (new_header + SIZE_T_SIZE, s6)
    end.

(** The branch taken when the next block is free and large enough. *)
Definition realloc_next (fuel : nat) (s : state) (ptr newsize current_size
                         header next_header : Z) : option (Z * state) :=
  let s1 := remove_link s next_header in
  if size_t (GETSIZE (rd s1 next_header) + current_size - newsize) <? 4 * SIZE_T_SIZE then
    let newheader := Z.lor (size_t (GETSIZE (rd s1 next_header) + current_size)) 1 in
    Some (ptr, write_tags s1 header newheader)
  else
    let newheader := Z.lor newsize 1 in
    let header_tmp := size_t (GETSIZE (rd s1 next_header) + current_size - newsize) in
    let free_block_header := header + newsize in
    let s2 := write_tags s1 free_block_header header_tmp in
    match add_to_list fuel s2 free_block_header with
    | None => None
    | Some s3 =>
        let s4 := write_tags s3 header newheader in
        if negb (free_block_header =? NULL)
        then Some (ptr, snd (mm_coalesce s4 free_block_header))
        else Some (ptr, s4)
    end.

(** The branch taken when the previous block is free and large enough. *)
Definition realloc_prev (fuel : nat) (s : state) (ptr newsize current_size
                         header prev_footer : Z) : option (Z * state) :=
  let prev_header := prev_footer - GETSIZE (rd s prev_footer) + SIZE_T_SIZE in
  let s1 := remove_link s prev_header in
  let available_size := size_t (GETSIZE (rd s1 prev_footer) + current_size) in
  let new_free_size := size_t (available_size - newsize) in
  if new_free_size <? 4 * SIZE_T_SIZE then
    let new_header := prev_header in
    let s2 := do_memmove s1 (new_header + SIZE_T_SIZE) ptr (size_t (current_size - SIZE_T_SIZE)) in
    Some (new_header + SIZE_T_SIZE, write_tags s2 new_header (Z.lor available_size 1))
  else
    let new_header := header + current_size - newsize in
    let s2 := do_memmove s1 (new_header + SIZE_T_SIZE) ptr (size_t (current_size - SIZE_T_SIZE)) in
    let s3 := write_tags s2 new_header (Z.lor newsize 1) in
    let s4 := write_tags s3 prev_header (Z.land new_free_size (-2)) in
    match add_to_list fuel s4 prev_header with
    | None => None
    | Some s5 => Some (new_header + SIZE_T_SIZE, s5)
    end.

(** The branch taken when the block is the last one of the heap. *)
Definition realloc_last (s : state) (ptr newsize current_size header prev_footer : Z)
                        (prev_footer_exists : bool) : Z * state :=
  let '(header, addition, s1) :=
    if prev_footer_exists && (GETDIRTYBIT (rd s prev_footer) =? 0) then
      let prev_header := prev_footer - GETSIZE (rd s prev_footer) + SIZE_T_SIZE in
      let sa := remove_link s prev_header in
      let header := prev_header in
      let sb := do_memmove sa (header + SIZE_T_SIZE) ptr (size_t (current_size - SIZE_T_SIZE)) in
      (header, size_t (newsize - size_t (current_size + GETSIZE (rd sb prev_header))), sb)
    else (header, size_t (newsize - current_size), s) in
  let (r, s2) := mem_sbrk s1 (int addition) in
  if r =? NULL then (NULL, s2)
  else (ptr, write_tags s2 header (Z.lor newsize 1)).

(** The shrinking branch. *)
Definition realloc_shrink (fuel : nat) (s : state) (ptr newsize current_size header : Z)
  : option (Z * state) :=
  if 4 * SIZE_T_SIZE <? size_t (current_size - newsize) then
    let newheader := Z.lor newsize 1 in
    let s1 := wr s header newheader in
    let footer := GETFOOTER s1 header in
    let s2 := wr s1 footer newheader in
    let newheader := size_t (current_size - newsize) in
    let free_block_header := footer + SIZE_T_SIZE in
    let s3 := write_tags s2 free_block_header newheader in
    match add_to_list fuel s3 free_block_header with
    | None => None
    | Some s4 => Some (ptr, snd (mm_coalesce s4 free_block_header))
    end
  else Some (ptr, s).

Definition mm_realloc (fuel : nat) (s : state) (ptr newsize : Z) : option (Z * state) :=
  let oldptr := ptr in
  let newsize := adjusted_size newsize in
  let header := oldptr - SIZE_T_SIZE in
  let current_size := GETSIZE (rd s header) in
  if current_size <? newsize then
    let start := heap_start s in
    let end_ := mem_heap_hi s in
    let next_header := header + GETSIZE (rd s header) in
    let prev_footer := header - SIZE_T_SIZE in
    let next_header_exists := next_header <=? end_ in
    let prev_footer_exists := start <=? prev_footer in
    if prev_footer_exists && next_header_exists
       && (GETDIRTYBIT (rd s next_header) =? 0)
       && (GETDIRTYBIT (rd s prev_footer) =? 0)
       && (newsize <=? size_t (GETSIZE (rd s next_header) + current_size
                               + GETSIZE (rd s prev_footer)))
    then realloc_sandwich fuel s ptr newsize current_size next_header prev_footer
    else if next_header_exists && (GETDIRTYBIT (rd s next_header) =? 0)
            && (newsize <=? size_t (GETSIZE (rd s next_header) + current_size))
    then realloc_next fuel s ptr newsize current_size header next_header
    else if prev_footer_exists && (GETDIRTYBIT (rd s prev_footer) =? 0)
            && (newsize <=? size_t (GETSIZE (rd s prev_footer) + current_size))
    then realloc_prev fuel s ptr newsize current_size header prev_footer
    else if negb next_header_exists
    then Some (realloc_last s ptr newsize current_size header prev_footer prev_footer_exists)
    else
      match mm_malloc fuel s newsize with
      | None => None
      | Some (newptr, s1) =>
          let s2 := do_memmove s1 newptr oldptr (size_t (current_size - 2)) in
          match mm_free fuel s2 ptr with
          | None => None
          | Some s3 => Some (newptr, s3)
          end
      end
  else realloc_shrink fuel s ptr newsize current_size header.

(** ** Traces of API calls *)

(** A state-and-failure monad: [None] is a list walk out of fuel. *)
Definition M (A : Type) : Type := state -> option (A * state).

Definition ret {A} (a : A) : M A := fun s => Some (a, s).
Definition bind {A B} (m : M A) (k : A -> M B) : M B :=
  fun s => match m s with
           | None => None
           | Some (a, s') => k a s'
           end.

Declare Scope trace_scope.
Delimit Scope trace_scope with trace.
Notation "x <- m ;; k" := (bind m (fun x => k))
  (at level 61, m at next level, right associativity) : trace_scope.
Notation "m ;;; k" := (bind m (fun _ => k))
  (at level 61, right associativity) : trace_scope.

(** Every list walk of a trace gets this much fuel. *)
Definition FUEL : nat := 64.

Definition init : M Z := fun s => Some (mm_init s).
Definition allocate (size : Z) : M Z := fun s => mm_malloc FUEL s size.
Definition deallocate (ptr : Z) : M unit :=
  fun s => match mm_free FUEL s ptr with
           | None => None
           | Some s' => Some (tt, s')
           end.
Definition reallocate (ptr size : Z) : M Z := fun s => mm_realloc FUEL s ptr size.
Definition get_state : M state := fun s => Some (s, s).

(** A provider whose region starts at [lo] and may grow up to [lo + room];
    nothing has been claimed yet and [free_seglist] is still NULL. *)
Definition fresh (lo room : Z) (m0 : Mem.memory) : state :=
  mkState lo lo (lo + room) m0 NULL [].

(** The provider of the examples: 20 MiB of room. *)
Definition LO : Z := 0x10000000.
Definition MAX_HEAP : Z := 20 * 2 ^ 20.
Definition boot : state := fresh LO MAX_HEAP Mem.zeroed.

(** ** mm_check *)

(** The inner loop of the first pass, over the entries of bucket [i]:
    the pair of flags [(flist, sizepb)] it raises. *)
Fixpoint check_bucket (fuel : nat) (s : state) (i current_free_block : Z)
  : option (bool * bool) :=
  match fuel with
  | O => None
  | S k =>
      if current_free_block =? NULL then Some (false, false)
      else if negb (GETDIRTYBIT (rd s current_free_block) =? 0) then Some (true, false)
      else if GETSIZE (rd s current_free_block) <? Z.shiftl 1 (i + 5) then Some (false, true)
      else check_bucket k s i (GETNEXTFREE s current_free_block)
  end.

Fixpoint check_buckets (n fuel : nat) (s : state) (i : Z) (flist sizepb : bool)
  : option (bool * bool) :=
  match n with
  | O => Some (flist, sizepb)
  | S k =>
      if i <? MAXPOW then
        match check_bucket fuel s i (rd s (seglist_slot s i)) with
        | None => None
        | Some (f, z) => check_buckets k fuel s (i + 1) (flist || f) (sizepb || z)
        end
      else Some (flist, sizepb)
  end.

(** "Are all free blocks coalesced ?" *)
Fixpoint check_coald (fuel : nat) (s : state) (current_block prev_type : Z) : option bool :=
  match fuel with
  | O => None
  | S k =>
      if current_block <? mem_heap_hi s then
        if (prev_type =? 0) && (prev_type =? GETDIRTYBIT (rd s current_block)) then Some true
        else check_coald k s (GETNEXTBLOCK s current_block) (GETDIRTYBIT (rd s current_block))
      else Some false
  end.

(** The search of one block in its expected bucket: the value of
    [current_free_block] when the loop ends. *)
Fixpoint check_find (fuel : nat) (s : state) (current_free_block current_block : Z)
  : option Z :=
  match fuel with
  | O => None
  | S k =>
      if current_free_block =? NULL then Some NULL
      else if current_free_block =? current_block then Some current_free_block
      else check_find k s (GETNEXTFREE s current_free_block) current_block
  end.

(** "Are all free blocks in the list ?" *)
Fixpoint check_finlist (fuel : nat) (s : state) (current_block : Z) : option bool :=
  match fuel with
  | O => None
  | S k =>
      if current_block <? mem_heap_hi s then
        if GETDIRTYBIT (rd s current_block) =? 0 then
          match check_find fuel s
                  (rd s (seglist_slot s (seglist_index (GETSIZE (rd s current_block)))))
                  current_block with
          | None => None
          | Some r => if r =? NULL then Some true
                      else check_finlist k s (GETNEXTBLOCK s current_block)
          end
        else check_finlist k s (GETNEXTBLOCK s current_block)
      else Some false
  end.

(** "Are all blocks coherent ?" *)
Fixpoint check_coherent (fuel : nat) (s : state) (current_block : Z) : option bool :=
  match fuel with
  | O => None
  | S k =>
      if current_block <? mem_heap_hi s then
        if negb (GETSIZE (rd s current_block) =? GETSIZE (rd s (GETFOOTER s current_block)))
        then Some true
        else check_coherent k s (GETNEXTBLOCK s current_block)
      else Some false
  end.

Definition report (flag : bool) (line : string) : list string :=
  if flag then [line] else [].

(** The lines mm_check prints before it exits; the empty list when every
    pass succeeds and the function returns. *)
Definition mm_check (fuel : nat) (s : state) : option (list string) :=
  match check_buckets (Z.to_nat MAXPOW) fuel s 0 false false with
  | None => None
  | Some (flist, sizepb) =>
      let start := heap_start s in
      let end_ := mem_heap_hi s in
      let scan (pass : Z -> option bool) : option bool :=
        if negb (start =? end_) then pass (GETNEXTBLOCK s start) else Some false in
      match scan (fun b => check_coald fuel s b (GETDIRTYBIT (rd s start))),
            scan (check_finlist fuel s),
            scan (check_coherent fuel s) with
      | Some coald, Some finlist, Some coherent =>
          if flist || sizepb || coald || finlist || coherent then
            Some (["Test results : "%string]
                  ++ report flist "Some elts of the free list aren't free"
                  ++ report sizepb "Some free blocks are in the wrong category"
                  ++ report coald "Some free blocks are not coalesced"
                  ++ report finlist "Some free blocks are not in the list"
                  ++ report coherent "Incoherent block layout"
                  ++ ["____ENDTEST____"%string])
          else Some []
      | _, _, _ => None
      end
  end.

(** ** Observations used in the statements *)

Definition block_size (s : state) (header_ptr : Z) : Z := GETSIZE (rd s header_ptr).
Definition header_flag (s : state) (header_ptr : Z) : Z := GETDIRTYBIT (rd s header_ptr).
Definition footer_flag (s : state) (header_ptr : Z) : Z :=
  GETDIRTYBIT (rd s (GETFOOTER s header_ptr)).
Definition footer_size (s : state) (header_ptr : Z) : Z :=
  GETSIZE (rd s (GETFOOTER s header_ptr)).

(** The entries of a bucket in list order, following the links from the
    head as display_free does. *)
Fixpoint bucket_from (fuel : nat) (s : state) (ptr : Z) : option (list Z) :=
  match fuel with
  | O => None
  | S k =>
      if ptr =? NULL then Some []
      else option_map (cons ptr) (bucket_from k s (GETNEXTFREE s ptr))
  end.

Definition bucket (s : state) (index : Z) : option (list Z) :=
  bucket_from FUEL s (rd s (seglist_slot s index)).

Definition bucket_sizes (s : state) (index : Z) : option (list Z) :=
  option_map (map (block_size s)) (bucket s index).

(** The headers of the blocks in address order, from the end of the
    bucket array to the end of the heap. *)
Fixpoint blocks_from (fuel : nat) (s : state) (current_block : Z) : option (list Z) :=
  match fuel with
  | O => None
  | S k =>
      if current_block <? mem_heap_hi s
      then option_map (cons current_block) (blocks_from k s (GETNEXTBLOCK s current_block))
      else Some []
  end.

Definition heap_blocks (s : state) : option (list Z) := blocks_from FUEL s (heap_start s).

(** *** The invariants of the data model, as checks on a state

    [None]: a walk ran out of fuel. *)

Fixpoint all_of {A} (P : A -> option bool) (l : list A) : option bool :=
  match l with
  | [] => Some true
  | x :: t =>
      match P x, all_of P t with
      | Some b, Some c => Some (b && c)
      | _, _ => None
      end
  end.

(** Invariant 1: header and footer of every block agree on size and flag. *)
Definition tags_agree_at (s : state) (b : Z) : bool :=
  (block_size s b =? footer_size s b) && (header_flag s b =? footer_flag s b).

Definition tags_agree (s : state) : option bool :=
  option_map (forallb (tags_agree_at s)) (heap_blocks s).

(** Invariant 3: no two blocks next to each other are both free. *)
Fixpoint no_two_free (s : state) (l : list Z) : bool :=
  match l with
  | b :: ((b' :: _) as t) =>
      negb ((header_flag s b =? 0) && (header_flag s b' =? 0)) && no_two_free s t
  | _ => true
  end.

Definition no_adjacent_free (s : state) : option bool :=
  option_map (no_two_free s) (heap_blocks s).

(** Invariant 4: every bucket lists its blocks by ascending size. *)
Fixpoint sorted_ascending (l : list Z) : bool :=
  match l with
  | x :: ((y :: _) as t) => (x <=? y) && sorted_ascending t
  | _ => true
  end.

Definition buckets_sorted (s : state) : option bool :=
  all_of (fun i => option_map sorted_ascending (bucket_sizes s (Z.of_nat i)))
         (seq 0 (Z.to_nat MAXPOW)).

(** Invariant 5: every free block of the heap is an entry of the bucket
    that seglist_index gives for its size. *)
Definition in_its_bucket (s : state) (b : Z) : option bool :=
  if header_flag s b =? 0
  then option_map (existsb (Z.eqb b)) (bucket s (seglist_index (block_size s b)))
  else Some true.

Definition free_blocks_in_their_buckets (s : state) : option bool :=
  match heap_blocks s with
  | None => None
  | Some l => all_of (in_its_bucket s) l
  end.

(** The four checks together. *)
Definition invariants (s : state) : option bool * option bool * option bool * option bool :=
  (tags_agree s, no_adjacent_free s, buckets_sorted s, free_blocks_in_their_buckets s).

(** The provider's registers and the bucket array pointer of a state
    whose region starts at [lo], may grow up to [lo + room] and ends at
    [brk], after mm_init. *)
Record registers (lo room brk : Z) (s : state) : Prop := {
  r_start : mem_start_brk s = lo;
  r_max : mem_max_addr s = lo + room;
  r_seglist : free_seglist s = lo;
  r_brk : mem_brk s = brk
}.

Definition is_some {A} (o : option A) : bool :=
  match o with Some _ => true | None => false end.

(** Two byte ranges [[p, p + n)] and [[q, q + k)] share a byte. *)
Definition overlap (p n q k : Z) : bool := (p <? q + k) && (q <? p + n).

(** ** The traces of the examples *)

Local Open Scope trace_scope.

(** What a trace returns, the final state dropped. *)
Definition result {A} (t : M A) (s : state) : option A := option_map fst (t s).

(** Scenario A of the specification, with the heap size seen before and
    after the last allocation. *)
Definition scenario_A : M (Z * Z * Z * Z * Z) :=
  init ;;;
  p1 <- allocate 16 ;;
  p2 <- allocate 16 ;;
  deallocate p1 ;;;
  s <- get_state ;;
  p3 <- allocate 16 ;;
  s' <- get_state ;;
  ret (p1, p2, p3, mem_heapsize s, mem_heapsize s').

(** Scenario A up to the release of [p1]: the heap size after each of the
    two allocations and the entries of bucket 0 when the third allocation
    starts. *)
Definition scenario_A_steps : M (Z * Z * option (list Z)) :=
  init ;;;
  p1 <- allocate 16 ;;
  s1 <- get_state ;;
  p2 <- allocate 16 ;;
  s2 <- get_state ;;
  deallocate p1 ;;;
  s3 <- get_state ;;
  ret (mem_heapsize s1, mem_heapsize s2, bucket s3 0).

(** One allocation and its release: the header and footer tags of the
    released block, and the check of invariant 1. *)
Definition free_one : M (Z * Z * Z * Z * option bool) :=
  init ;;;
  p <- allocate 16 ;;
  deallocate p ;;;
  s <- get_state ;;
  let b := p - SIZE_T_SIZE in
  ret (block_size s b, footer_size s b, header_flag s b, footer_flag s b, tags_agree s).

(** The first allocation after init.  Before it: the blocks of the heap
    and the candidate found for the adjusted size; then the heap size
    before and after, the pointer returned and the contents of every
    bucket head. *)
Definition first_allocation
  : M (option (list Z) * option Z * Z * Z * Z * list Z) :=
  init ;;;
  s <- get_state ;;
  p <- allocate 16 ;;
  s' <- get_state ;;
  ret (heap_blocks s, get_optimal_free_block FUEL s (adjusted_size 16),
       mem_heapsize s, mem_heapsize s', p,
       map (fun i => rd s' (seglist_slot s' (Z.of_nat i))) (seq 0 (Z.to_nat MAXPOW))).

(** Two allocations: the four invariant checks. *)
Definition two_allocations
  : M (option bool * option bool * option bool * option bool) :=
  init ;;;
  p1 <- allocate 16 ;;
  p2 <- allocate 16 ;;
  s <- get_state ;;
  ret (invariants s).

(** A shrinking reallocate in front of a free block. *)
Definition shrink_before_free : M (Z * Z) :=
  init ;;;
  p1 <- allocate 200 ;;
  p2 <- allocate 200 ;;
  deallocate p2 ;;;
  r <- reallocate p1 16 ;;
  ret (p1, r).

(** The tail split off by the shrinking reallocate: its size and flag,
    the bucket of its size, bucket 2, the check of invariant 5 and the
    verdict of mm_check. *)
Definition shrink_then_observe
  : M (Z * Z * option (list Z) * option (list Z) * option bool * option (list string)) :=
  pr <- shrink_before_free ;;
  s <- get_state ;;
  let tail := snd pr - SIZE_T_SIZE + 32 in
  ret (block_size s tail, header_flag s tail,
       bucket s (seglist_index (block_size s tail)), bucket s 2,
       free_blocks_in_their_buckets s, mm_check FUEL s).

(** Two allocations after the shrinking reallocate. *)
Definition shrink_then_allocate_twice : M (Z * Z * Z) :=
  pr <- shrink_before_free ;;
  q1 <- allocate 16 ;;
  q2 <- allocate 16 ;;
  ret (snd pr, q1, q2).

(** Two allocations after the shrinking reallocate, then the release of
    the reallocated block: the blocks of the heap with size and flag, the
    check of invariant 3 and the verdict of mm_check. *)
Definition shrink_allocate_free
  : M (option (list (Z * Z * Z)) * option bool * option (list string)) :=
  pr <- shrink_before_free ;;
  q1 <- allocate 100 ;;
  q2 <- allocate 16 ;;
  deallocate (snd pr) ;;;
  s <- get_state ;;
  ret (option_map (map (fun b => (b, block_size s b, header_flag s b))) (heap_blocks s),
       no_adjacent_free s, mm_check FUEL s).

(** Four allocations, then the release of the first and of the third:
    the entries of bucket 1, their sizes and the check of invariant 4. *)
Definition two_in_bucket_1
  : M (Z * Z * option (list Z) * option (list Z) * option bool) :=
  init ;;;
  p1 <- allocate 100 ;;
  p2 <- allocate 16 ;;
  p3 <- allocate 72 ;;
  p4 <- allocate 16 ;;
  deallocate p1 ;;;
  deallocate p3 ;;;
  s <- get_state ;;
  ret (p1, p3, bucket s 1, bucket_sizes s 1, buckets_sorted s).

(** Three blocks of 64, 72 and 80 bytes, kept apart by allocated blocks
    and released in this order: the sizes linked in bucket 1 before and
    after the last release. *)
Definition three_in_bucket_1 : M (option (list Z) * option (list Z) * option bool) :=
  init ;;;
  a <- allocate 48 ;;
  s1 <- allocate 16 ;;
  b <- allocate 56 ;;
  s2 <- allocate 16 ;;
  s3 <- allocate 16 ;;
  c <- allocate 64 ;;
  s4 <- allocate 16 ;;
  deallocate a ;;;
  deallocate b ;;;
  s <- get_state ;;
  deallocate c ;;;
  s' <- get_state ;;
  ret (bucket_sizes s 1, bucket_sizes s' 1, buckets_sorted s').

(** A free last block of 2032 bytes, then a request it cannot hold. *)
Definition grow_last_free_block : M (Z * Z * Z * Z * option (list Z) * option (list Z)) :=
  init ;;;
  p1 <- allocate 1000 ;;
  p2 <- allocate 1000 ;;
  deallocate p1 ;;;
  deallocate p2 ;;;
  s <- get_state ;;
  q <- allocate 3000 ;;
  s' <- get_state ;;
  ret (p1, q, mem_heapsize s, mem_heapsize s', bucket s 5, bucket s' 5).

(** A last block behind a free block of 2032 bytes, grown by reallocate. *)
Definition grow_last_block : M (Z * Z * Z * Z * option (list Z) * option (list Z)) :=
  init ;;;
  p1 <- allocate 1000 ;;
  p2 <- allocate 1000 ;;
  p3 <- allocate 1000 ;;
  deallocate p1 ;;;
  deallocate p2 ;;;
  s <- get_state ;;
  q <- reallocate p3 5000 ;;
  s' <- get_state ;;
  ret (p3, q, mem_heapsize s, mem_heapsize s', bucket s 5, bucket s' 5).

(** The state in which a second small allocation is requested. *)
Definition after_first_allocation : state :=
  match (init ;;; allocate 16) boot with
  | Some (_, s) => s
  | None => boot
  end.

(** The state in which a block is released for the second time. *)
Definition after_free_one : Z * state :=
  match (init ;;; p <- allocate 16 ;; deallocate p ;;; ret p) boot with
  | Some r => r
  | None => (NULL, boot)
  end.

(** ** Registers across a call *)

(** The provider's registers and the bucket array pointer are the same in
    both states. *)
Definition same_registers (s s' : state) : Prop :=
  mem_start_brk s' = mem_start_brk s /\ mem_max_addr s' = mem_max_addr s
  /\ free_seglist s' = free_seglist s /\ mem_brk s' = mem_brk s.

(** The same, except for the break, which has not moved down. *)
Definition grown (s s' : state) : Prop :=
  mem_start_brk s' = mem_start_brk s /\ mem_max_addr s' = mem_max_addr s
  /\ free_seglist s' = free_seglist s /\ mem_brk s <= mem_brk s'.

(** ** The bucket that receives a block *)

(** The entries of the bucket that add_to_list walks for the block at
    [ptr], within [fuel] steps: [None] when the links from its head do not
    reach NULL in that many steps. *)
Definition receiving_bucket (fuel : nat) (s : state) (ptr : Z) : option (list Z) :=
  bucket_from fuel s (rd s (seglist_slot s (seglist_index (block_size s ptr)))).

(** ** More states of the examples *)

(** What a trace leaves and returns on the provider of the examples; [d]
    stands for the result of a trace that runs out of fuel. *)
Definition or_else {A} (o : option A) (d : A) : A :=
  match o with
  | Some a => a
  | None => d
  end.

Definition outcome {A} (d : A) (t : M A) : A * state := or_else (t boot) (d, boot).

(** Two small allocations: the heap ends with the free block that the
    second one left behind. *)
Definition after_two_allocations : state :=
  snd (outcome NULL (init ;;; allocate 16 ;;; allocate 16)).

(** Two blocks of 1016 bytes released in address order: the heap is one
    free block of 2032 bytes. *)
Definition after_two_frees : state :=
  snd (outcome tt (init ;;;
                   p1 <- allocate 1000 ;;
                   p2 <- allocate 1000 ;;
                   deallocate p1 ;;;
                   deallocate p2)).

(** A free block of 120 bytes heads bucket 1 and an allocated block of
    88 bytes, returned with the state, is about to join it. *)
Definition one_in_bucket_1 : Z * state :=
  outcome NULL (init ;;;
                p1 <- allocate 100 ;;
                p2 <- allocate 16 ;;
                p3 <- allocate 72 ;;
                p4 <- allocate 16 ;;
                deallocate p1 ;;;
                ret (p3 - SIZE_T_SIZE)).

(** The head and the tail of a bucket of two blocks. *)
Definition pair_in_bucket_1 : Z * Z * state :=
  outcome (NULL, NULL) (init ;;;
                p1 <- allocate 100 ;;
                p2 <- allocate 16 ;;
                p3 <- allocate 72 ;;
                p4 <- allocate 16 ;;
                deallocate p1 ;;;
                deallocate p3 ;;;
                ret (p1 - SIZE_T_SIZE, p3 - SIZE_T_SIZE)).

(** The second of the three blocks linked in bucket 1. *)
Definition triple_in_bucket_1 : Z * state :=
  outcome NULL (init ;;;
                a <- allocate 48 ;;
                s1 <- allocate 16 ;;
                b <- allocate 56 ;;
                s2 <- allocate 16 ;;
                s3 <- allocate 16 ;;
                c <- allocate 64 ;;
                s4 <- allocate 16 ;;
                deallocate a ;;;
                deallocate b ;;;
                deallocate c ;;;
                ret (c - SIZE_T_SIZE)).

(** After the shrinking reallocate of [shrink_before_free], one more
    allocation: the block it returns is still linked in bucket 2. *)
Definition after_stale_allocation : state :=
  snd (outcome (NULL, NULL) (pr <- shrink_before_free ;;
                             q <- allocate 16 ;;
                             ret (snd pr, q))).


Local Close Scope trace_scope.

(** * Properties *)

(** ** The store *)

Module MemFacts.
Import Mem.

Lemma load_le_ext (n : nat) :
  forall (m m' : memory) (a : Z),
    (forall x, a <= x < a + Z.of_nat n -> m x = m' x) ->
    load_le n m a = load_le n m' a.
Proof.
  induction n as [|n IH]; intros m m' a H; [reflexivity|].
  cbn [load_le]. rewrite (H a) by lia.
  rewrite (IH m m' (a + 1)); [reflexivity|].
  intros x Hx. apply H. lia.
Qed.

Lemma load_le_bytes (n : nat) :
  forall (m : memory) (a v : Z),
    (forall i, 0 <= i < Z.of_nat n -> m (a + i) mod 256 = Z.shiftr v (8 * i) mod 256) ->
    load_le n m a = v mod 2 ^ (8 * Z.of_nat n).
Proof.
  induction n as [|n IH]; intros m a v H.
  - cbn. now rewrite Z.mod_1_r.
  - cbn [load_le].
    rewrite (IH m (a + 1) (Z.shiftr v 8)).
    + specialize (H 0). rewrite Z.add_0_r, Z.mul_0_r, Z.shiftr_0_r in H.
      rewrite H by lia.
      rewrite Z.shiftr_div_pow2 by lia.
      replace (8 * Z.of_nat (S n)) with (8 + 8 * Z.of_nat n) by lia.
      rewrite Z.pow_add_r by lia.
      change (2 ^ 8) with 256.
      rewrite (Z.rem_mul_r v 256 (2 ^ (8 * Z.of_nat n))) by lia.
      reflexivity.
    + intros i Hi.
      replace (a + 1 + i) with (a + (i + 1)) by lia.
      rewrite H by lia.
      rewrite Z.shiftr_shiftr by lia.
      now replace (8 + 8 * i) with (8 * (i + 1)) by lia.
Qed.

Lemma load64_store64_same (m : memory) (a v : Z) :
  load64 (store64 m a v) a = v mod 2 ^ 64.
Proof.
  unfold load64. rewrite (load_le_bytes 8 _ a v); [reflexivity|].
  intros i Hi. unfold store64.
  replace ((a <=? a + i) && (a + i <? a + 8)) with true
    by (symmetry; apply andb_true_intro; split; [apply Z.leb_le | apply Z.ltb_lt]; lia).
  replace (a + i - a) with i by lia.
  apply Z.mod_mod. lia.
Qed.

Lemma load64_store64_other (m : memory) (a v b : Z) :
  b + 8 <= a \/ a + 8 <= b ->
  load64 (store64 m a v) b = load64 m b.
Proof.
  intros H. unfold load64. apply load_le_ext. intros x Hx.
  unfold store64.
  destruct (Z.leb_spec a x); destruct (Z.ltb_spec x (a + 8)); cbn; try reflexivity; lia.
Qed.

End MemFacts.

(** Reads and writes through the state. *)

Lemma rd_wr_same (s : state) (a v : Z) :
  0 <= v < 2 ^ 64 -> rd (wr s a v) a = v.
Proof.
  intros Hv. unfold rd, wr, set_heap. cbn [heap].
  rewrite MemFacts.load64_store64_same. now apply Z.mod_small.
Qed.

Lemma rd_wr_other (s : state) (a v b : Z) :
  b + 8 <= a \/ a + 8 <= b -> rd (wr s a v) b = rd s b.
Proof.
  intros H. unfold rd, wr, set_heap. cbn [heap].
  now apply MemFacts.load64_store64_other.
Qed.

Lemma rd_set_brk (s : state) (b a : Z) : rd (set_brk s b) a = rd s a.
Proof. reflexivity. Qed.

Lemma rd_range (s : state) (a : Z) : 0 <= rd s a < 2 ^ 64.
Proof.
  unfold rd, Mem.load64.
  assert (H : forall n m x, 0 <= Mem.load_le n m x < 2 ^ (8 * Z.of_nat n)).
  { induction n as [|n IH]; intros m x.
    - cbn. lia.
    - cbn [Mem.load_le]. specialize (IH m (x + 1)).
      replace (8 * Z.of_nat (S n)) with (8 + 8 * Z.of_nat n) by lia.
      rewrite Z.pow_add_r by lia. change (2 ^ 8) with 256.
      pose proof (Z.mod_pos_bound (m x) 256 ltac:(lia)). nia. }
  exact (H 8%nat (heap s) a).
Qed.

(** ** Tags and sizes *)

Lemma land_minus_2 (a : Z) : Z.land a (-2) = 2 * (a / 2).
Proof.
  change (-2) with (Z.lnot (Z.ones 1)).
  rewrite <- Z.ldiff_land, Z.ldiff_ones_r by lia.
  rewrite Z.shiftl_mul_pow2, Z.shiftr_div_pow2 by lia.
  change (2 ^ 1) with 2. lia.
Qed.

Lemma land_1 (a : Z) : Z.land a 1 = a mod 2.
Proof. change 1 with (Z.ones 1) at 1. now rewrite Z.land_ones by lia. Qed.

Lemma lor_1_even (a : Z) : a mod 2 = 0 -> Z.lor a 1 = a + 1.
Proof.
  intros H.
  assert (H0 : Z.land a 1 = 0) by now rewrite land_1.
  now rewrite <- Z.lxor_lor, <- Z.add_nocarry_lxor.
Qed.

Lemma GETSIZE_even (a : Z) : a mod 2 = 0 -> GETSIZE a = a.
Proof.
  intros H. unfold GETSIZE. rewrite land_minus_2.
  pose proof (Z.div_mod a 2 ltac:(lia)). lia.
Qed.

Lemma GETSIZE_tagged (a : Z) : a mod 2 = 0 -> GETSIZE (Z.lor a 1) = a.
Proof.
  intros H. unfold GETSIZE. rewrite lor_1_even, land_minus_2 by assumption.
  pose proof (Z.div_mod a 2 ltac:(lia)).
  replace ((a + 1) / 2) with (a / 2); [lia|].
  apply (Z.div_unique (a + 1) 2 (a / 2) 1); lia.
Qed.

Lemma GETDIRTYBIT_tagged (a : Z) : a mod 2 = 0 -> GETDIRTYBIT (Z.lor a 1) = 1.
Proof.
  intros H. unfold GETDIRTYBIT. rewrite lor_1_even, land_1 by assumption.
  rewrite <- Z.add_mod_idemp_l, H by lia. reflexivity.
Qed.

Lemma ALIGN_spec (x : Z) : ALIGN x = 8 * (size_t (x + 7) / 8).
Proof.
  unfold ALIGN. change (ALIGNMENT - 1) with 7. change 7 with (Z.ones 3) at 2.
  rewrite <- Z.ldiff_land, Z.ldiff_ones_r by lia.
  rewrite Z.shiftl_mul_pow2, Z.shiftr_div_pow2 by lia.
  change (2 ^ 3) with 8. lia.
Qed.

Lemma SIZE_T_SIZE_eq : SIZE_T_SIZE = 8.
Proof. reflexivity. Qed.

Lemma adjusted_size_bounds (size : Z) :
  32 <= adjusted_size size < 2 ^ 64 /\ adjusted_size size mod 8 = 0.
Proof.
  unfold adjusted_size. change (ALIGN (4 * SIZE_T_SIZE)) with 32.
  set (x := size_t (size + 2 * SIZE_T_SIZE)).
  rewrite ALIGN_spec.
  assert (Hr : 0 <= size_t (x + 7) < 2 ^ 64) by (apply Z.mod_pos_bound; lia).
  pose proof (Z.div_mod (size_t (x + 7)) 8 ltac:(lia)) as Hd.
  pose proof (Z.mod_pos_bound (size_t (x + 7)) 8 ltac:(lia)) as Hm.
  destruct (Z.ltb_spec (8 * (size_t (x + 7) / 8)) 32).
  - split; [lia | reflexivity].
  - split; [lia|].
    rewrite Z.mul_comm. apply Z.mod_mul. lia.
Qed.

(** ** mm_init *)

(** C10.  Whenever the provider's base address is not NULL, mm_init
    returns 1, the value of its success path, and never 0, the value it
    returns for a NULL base: the result of its mem_sbrk call is dropped, so
    a refused extension does not make it fail. *)
Theorem mm_init_ignores_refused_extension :
  forall s : state,
    mem_heap_lo s <> NULL ->
    fst (mm_init s) = 1 /\ fst (mm_init s) <> 0.
Proof.
  intros s Hlo.
  assert (H : fst (mm_init s) = 1); [|split; [exact H | rewrite H; discriminate]].
  unfold mm_init, mem_sbrk.
  destruct ((_ <? 0) || _); cbn [snd set_free_seglist free_seglist mem_heap_lo
    mem_start_brk set_brk] in *.
  - destruct (Z.eqb_spec (mem_heap_lo s) NULL); [contradiction | reflexivity].
  - destruct (Z.eqb_spec (mem_start_brk s) NULL); [contradiction | reflexivity].
Qed.

(** A provider with no room at all: the extension is refused and mm_init
    still reports success. *)
Lemma mm_init_ignores_refused_extension_witness :
  fst (mem_sbrk (fresh LO 0 Mem.zeroed) (int (ALIGN (MAXPOW * sizeof_ptr)))) = NULL
  /\ fst (mm_init (fresh LO 0 Mem.zeroed)) = 1
  /\ fst (mm_init (fresh LO 0 Mem.zeroed)) <> 0.
Proof.
  split; [reflexivity|].
  apply (mm_init_ignores_refused_extension (fresh LO 0 Mem.zeroed)).
  vm_compute. discriminate.
Defined.

(** ** mm_free on a block that is already free *)

(** C6.  When the header of the block of [ptr] is marked free, mm_free
    prints its warning and returns: the store, the bucket array pointer and
    the provider's registers are those of the call. *)
Theorem mm_free_of_free_block_changes_nothing :
  forall (fuel : nat) (s : state) (ptr : Z),
    header_flag s (ptr - SIZE_T_SIZE) = 0 ->
    exists s',
      mm_free fuel s ptr = Some s'
      /\ stdout s' = stdout s ++ [free_warning]
      /\ heap s' = heap s
      /\ free_seglist s' = free_seglist s
      /\ mem_brk s' = mem_brk s
      /\ mem_start_brk s' = mem_start_brk s
      /\ mem_max_addr s' = mem_max_addr s.
Proof.
  intros fuel s ptr H. unfold header_flag in H.
  exists (printf s free_warning). unfold mm_free. rewrite H.
  cbn. repeat split.
Qed.

(** The block released by [after_free_one] is released once more. *)
Lemma mm_free_of_free_block_changes_nothing_witness :
  header_flag (snd after_free_one) (fst after_free_one - SIZE_T_SIZE) = 0
  /\ exists s',
      mm_free FUEL (snd after_free_one) (fst after_free_one) = Some s'
      /\ stdout s' = stdout (snd after_free_one) ++ [free_warning]
      /\ heap s' = heap (snd after_free_one)
      /\ free_seglist s' = free_seglist (snd after_free_one)
      /\ mem_brk s' = mem_brk (snd after_free_one)
      /\ mem_start_brk s' = mem_start_brk (snd after_free_one)
      /\ mem_max_addr s' = mem_max_addr (snd after_free_one).
Proof.
  split; [vm_compute; reflexivity|].
  apply (mm_free_of_free_block_changes_nothing FUEL (snd after_free_one) (fst after_free_one)).
  vm_compute. reflexivity.
Defined.

(** ** Traces evaluated

    The results below hold for every initial content [m0] of the
    provider's memory: no trace reads a cell before the allocator has
    written it. *)

(** The checks of the invariants all succeed after two allocations. *)
Lemma invariants_after_two_allocations :
  forall m0 : Mem.memory,
    result two_allocations (fresh LO MAX_HEAP m0)
    = Some (Some true, Some true, Some true, Some true).
Proof. intros m0. vm_compute. reflexivity. Qed.

(** C2.  After [init; p = allocate(16); deallocate(p)] the released block
    has size 32 in its header and in its footer, but its header carries
    flag 0 and its footer still carries flag 1, so the check of
    invariant 1 fails: mm_free clears the flag of the header only. *)
Theorem mm_free_leaves_footer_flag_set :
  forall m0 : Mem.memory,
    result free_one (fresh LO MAX_HEAP m0) = Some (32, 32, 0, 1, Some false).
Proof. intros m0. vm_compute. reflexivity. Qed.

(** C3.  In scenario A, [init; p1 = allocate(16); p2 = allocate(16);
    deallocate(p1); p3 = allocate(16)], the third pointer is [p2 + 32],
    not [p1].  The first allocation extends the heap by 32 bytes only,
    from 200 to 232, and leaves no spare block; the second one extends it
    by 64 bytes and leaves its spare block, at [LO + 264], at the head of
    bucket 0; the released block of [p1], at [LO + 200], is linked behind
    that head, and the third allocation takes the head. *)
Theorem scenario_A_p3_is_not_p1 :
  forall m0 : Mem.memory,
    result scenario_A (fresh LO MAX_HEAP m0)
    = Some (LO + 208, LO + 240, LO + 272, 296, 296)
    /\ LO + 272 <> LO + 208
    /\ result scenario_A_steps (fresh LO MAX_HEAP m0)
       = Some (232, 296, Some [LO + 264; LO + 200]).
Proof.
  intros m0. split; [vm_compute; reflexivity|].
  split; [vm_compute; discriminate | vm_compute; reflexivity].
Qed.

(** C4.  After the release of a block of 120 bytes and then of a block of
    88 bytes, bucket 1 lists them in this order, 120 before 88, and the
    check of invariant 4 fails: add_to_list links a new entry behind the
    head of a non-empty bucket, whatever the size of the head. *)
Theorem add_to_list_breaks_the_size_order :
  forall m0 : Mem.memory,
    result two_in_bucket_1 (fresh LO MAX_HEAP m0)
    = Some (LO + 208, LO + 392, Some [LO + 200; LO + 384], Some [120; 88], Some false).
Proof. intros m0. vm_compute. reflexivity. Qed.

(** The walk of add_to_list does not advance past a smaller entry: a
    block of 80 bytes released after blocks of 64 and 72 bytes is linked
    between them, because the loop compares the link to the next entry,
    not the size of the next entry, with the size of the new block. *)
Lemma add_to_list_compares_the_link_with_the_size :
  forall m0 : Mem.memory,
    result three_in_bucket_1 (fresh LO MAX_HEAP m0)
    = Some (Some [64; 72], Some [64; 80; 72], Some false).
Proof. intros m0. vm_compute. reflexivity. Qed.

(** C8.  After a shrinking reallocate in front of a free block, the tail
    split off the block has absorbed its neighbour and has size 616, the
    bucket of that size (bucket 4) is empty, and the block is linked in
    bucket 2, where it was inserted with its size before the merge; the
    check of invariant 5 fails and mm_check rejects the heap. *)
Theorem shrink_leaves_tail_in_stale_bucket :
  forall m0 : Mem.memory,
    result shrink_then_observe (fresh LO MAX_HEAP m0)
    = Some (616, 0, Some [], Some [LO + 232], Some false,
            Some ["Test results : "; "Some free blocks are not in the list";
                  "____ENDTEST____"]%string)
    /\ seglist_index 616 = 4.
Proof. intros m0. split; vm_compute; reflexivity. Qed.

(** C1.  After the shrinking reallocate, two successive allocations of 16
    bytes return the same address while no block has been released in
    between: two live regions coincide. *)
Theorem allocate_returns_the_same_block_twice :
  forall m0 : Mem.memory,
    result shrink_then_allocate_twice (fresh LO MAX_HEAP m0)
    = Some (LO + 208, LO + 240, LO + 240)
    /\ overlap (LO + 240) 16 (LO + 240) 16 = true.
Proof. intros m0. split; vm_compute; reflexivity. Qed.

(** C9.  After the shrinking reallocate, two allocations and the release
    of the reallocated block, the heap ends with a free block of 88 bytes
    followed by a free block of 496 bytes; the check of invariant 3 fails
    and mm_check rejects the heap. *)
Theorem deallocate_leaves_adjacent_free_blocks :
  forall m0 : Mem.memory,
    result shrink_allocate_free (fresh LO MAX_HEAP m0)
    = Some (Some [(LO + 200, 32, 0); (LO + 232, 32, 1);
                  (LO + 264, 88, 0); (LO + 352, 496, 0)],
            Some false,
            Some ["Test results : "; "Some elts of the free list aren't free";
                  "Some free blocks are not coalesced"; "____ENDTEST____"]%string)
    /\ LO + 264 + 88 = LO + 352.
Proof. intros m0. split; vm_compute; reflexivity. Qed.

(** C5.  With a provider that has no room left, (1) an allocation that
    wants to grow a free last block gets a refusal from mem_sbrk, yet
    returns a non-NULL pointer after unlinking the block from bucket 5;
    (2) a reallocate of the last block behind a free block returns NULL
    after unlinking that free block from bucket 5.  The heap size is the
    same before and after in both. *)
Theorem refused_extension_is_not_atomic :
  forall m0 : Mem.memory,
    result grow_last_free_block (fresh LO 2232 m0)
    = Some (LO + 208, LO + 208, 2232, 2232, Some [LO + 200], Some [])
    /\ result grow_last_block (fresh LO 3248 m0)
       = Some (LO + 2240, NULL, 3248, 3248, Some [LO + 200], Some []).
Proof. intros m0. split; vm_compute; reflexivity. Qed.

(** C7.  After init the heap holds no block and no bucket holds a
    candidate; the first allocation, of adjusted size 32, which is below
    50 alignment units, extends the heap by 32 bytes, from 200 to 232, not
    by 64, and every bucket is empty afterwards: no second half is
    created.  The test [mem_heapsize() != 0] of mm_malloc holds after
    mm_init, which has claimed the bucket array, so the word read as the
    footer of the last block is the last head of the array. *)
Theorem first_allocation_extends_by_need_only :
  forall m0 : Mem.memory,
    result first_allocation (fresh LO MAX_HEAP m0)
    = Some (Some [], Some NULL, 200, 232, LO + 208, repeat NULL 25)
    /\ adjusted_size 16 = 32
    /\ adjusted_size 16 <= 50 * ALIGNMENT
    /\ 232 - 200 <> 2 * adjusted_size 16.
Proof.
  intros m0. split; [vm_compute; reflexivity|].
  split; [vm_compute; reflexivity|].
  split; vm_compute; discriminate.
Qed.

(** ** mm_malloc at the end of the heap *)

Lemma is_some_not_none {A} (o : option A) : is_some o = true -> o <> None.
Proof. destruct o; [discriminate | discriminate]. Qed.

Lemma add_to_list_registers (fuel : nat) (s s' : state) (ptr : Z) :
  add_to_list fuel s ptr = Some s' ->
  mem_brk s' = mem_brk s /\ mem_start_brk s' = mem_start_brk s
  /\ mem_max_addr s' = mem_max_addr s /\ free_seglist s' = free_seglist s.
Proof.
  unfold add_to_list.
  destruct (rd s _ =? NULL).
  - intros H. injection H as <-. cbn. repeat split.
  - destruct (add_to_list_walk _ _ _ _) as [free_slot|]; [|discriminate].
    intros H. injection H as <-.
    destruct (negb _); cbn; repeat split.
Qed.

Lemma write_tags_header (s : state) (p v : Z) :
  0 <= v < 2 ^ 64 -> 16 <= GETSIZE v ->
  rd (write_tags s p v) p = v /\ rd (write_tags s p v) (p + GETSIZE v - SIZE_T_SIZE) = v
  /\ GETFOOTER (write_tags s p v) p = p + GETSIZE v - SIZE_T_SIZE.
Proof.
  intros Hv Hs. unfold write_tags, GETFOOTER.
  rewrite (rd_wr_same s p v Hv). rewrite SIZE_T_SIZE_eq.
  rewrite rd_wr_other by lia. rewrite !rd_wr_same by assumption.
  repeat split.
Qed.

(** ** Fuel

    A result obtained with some fuel is the result for any larger fuel. *)

Section FuelMonotone.

Variables fuel fuel' : nat.
Hypothesis Hle : (fuel <= fuel')%nat.

Lemma add_to_list_walk_mono (s : state) (ptr : Z) :
  forall (n n' : nat) (free_slot r : Z),
    (n <= n')%nat ->
    add_to_list_walk n s free_slot ptr = Some r ->
    add_to_list_walk n' s free_slot ptr = Some r.
Proof.
  induction n as [|n IH]; intros n' free_slot r Hn H; [discriminate|].
  destruct n' as [|n']; [lia|].
  cbn [add_to_list_walk] in *.
  destruct (negb _ && _); [apply IH; [lia | exact H] | exact H].
Qed.

Lemma get_optimal_inner_mono (s : state) (size : Z) :
  forall (n n' : nat) (free_list r : Z),
    (n <= n')%nat ->
    get_optimal_inner n s free_list size = Some r ->
    get_optimal_inner n' s free_list size = Some r.
Proof.
  induction n as [|n IH]; intros n' free_list r Hn H; [discriminate|].
  destruct n' as [|n']; [lia|].
  cbn [get_optimal_inner] in *.
  destruct (free_list =? NULL); [exact H|].
  destruct (size <=? _); [exact H | apply IH; [lia | exact H]].
Qed.

Lemma get_optimal_outer_mono (s : state) (size : Z) :
  forall (n : nat) (index r : Z),
    get_optimal_outer n fuel s index size = Some r ->
    get_optimal_outer n fuel' s index size = Some r.
Proof.
  induction n as [|n IH]; intros index r H; [exact H|].
  cbn [get_optimal_outer] in *.
  destruct (index <? MAXPOW); [|exact H].
  destruct (get_optimal_inner fuel s _ size) as [p|] eqn:E; [|discriminate].
  rewrite (get_optimal_inner_mono s size fuel fuel' _ p Hle E).
  destruct (p =? NULL); [apply IH; exact H | exact H].
Qed.

Lemma get_optimal_free_block_mono (s : state) (size r : Z) :
  get_optimal_free_block fuel s size = Some r ->
  get_optimal_free_block fuel' s size = Some r.
Proof. apply get_optimal_outer_mono. Qed.

Lemma add_to_list_mono (s s' : state) (ptr : Z) :
  add_to_list fuel s ptr = Some s' -> add_to_list fuel' s ptr = Some s'.
Proof.
  unfold add_to_list.
  destruct (rd s _ =? NULL); [trivial|].
  destruct (add_to_list_walk fuel s _ ptr) as [free_slot|] eqn:E; [|discriminate].
  now rewrite (add_to_list_walk_mono s ptr fuel fuel' _ free_slot Hle E).
Qed.

Ltac more_fuel :=
  repeat match goal with
    | H : match add_to_list fuel ?s ?p with _ => _ end = Some _ |- _ =>
        let E := fresh "E" in
        destruct (add_to_list fuel s p) eqn:E; [|discriminate H];
        rewrite (add_to_list_mono _ _ _ E)
    | H : match get_optimal_free_block fuel ?s ?p with _ => _ end = Some _ |- _ =>
        let E := fresh "E" in
        destruct (get_optimal_free_block fuel s p) eqn:E; [|discriminate H];
        rewrite (get_optimal_free_block_mono _ _ _ E)
    | H : (if ?c then _ else _) = Some _ |- _ => destruct c
    | H : (let (_, _) := ?c in _) = Some _ |- _ => destruct c
    | H : ?x = Some _ |- ?x = Some _ => exact H
    end.

Lemma mm_malloc_mono (s : state) (size : Z) (r : Z * state) :
  mm_malloc fuel s size = Some r -> mm_malloc fuel' s size = Some r.
Proof. unfold mm_malloc. intros H. more_fuel. Qed.

Lemma mm_free_mono (s s' : state) (ptr : Z) :
  mm_free fuel s ptr = Some s' -> mm_free fuel' s ptr = Some s'.
Proof. unfold mm_free. intros H. more_fuel. Qed.

Lemma mm_realloc_mono (s : state) (ptr newsize : Z) (r : Z * state) :
  mm_realloc fuel s ptr newsize = Some r -> mm_realloc fuel' s ptr newsize = Some r.
Proof.
  unfold mm_realloc, realloc_sandwich, realloc_next, realloc_prev, realloc_shrink.
  intros H.
  repeat match goal with
    | H : (if ?c then _ else _) = Some _ |- _ => destruct c
    end; more_fuel.
  destruct (mm_malloc fuel s _) as [[newptr s1]|] eqn:E; [|discriminate H].
  rewrite (mm_malloc_mono _ _ _ E).
  destruct (mm_free fuel _ ptr) as [s3|] eqn:E'; [|discriminate H].
  now rewrite (mm_free_mono _ _ _ E').
Qed.

End FuelMonotone.

(** ** mm_realloc at the end of the heap *)

(** With room to grow, the reallocate of [grow_last_block] moves the block
    down to the free block in front of it, at [LO + 200], and still returns
    the pointer it was given: the 5000 bytes requested, counted from that
    pointer, end beyond the heap, which is 5216 bytes long. *)
Lemma realloc_at_heap_end_returns_the_old_pointer :
  forall m0 : Mem.memory,
    result grow_last_block (fresh LO 20000 m0)
    = Some (LO + 2240, LO + 2240, 3248, 5216, Some [LO + 200], Some [])
    /\ LO + 5216 < LO + 2240 + 5000.
Proof. intros m0. split; vm_compute; reflexivity. Qed.

(** ** Symbolic execution

    The steps below run the allocator on a state known only by the cells
    that are read from it, so that the result holds for every base
    address, every room and every initial content of the memory. *)

Lemma rd_wr_at (s : state) (a v b : Z) :
  a = b -> 0 <= v < 2 ^ 64 -> rd (wr s a v) b = v.
Proof. intros <-. apply rd_wr_same. Qed.

(** Closed applications are evaluated, reads are pushed through the
    writes, comparisons are settled by linear arithmetic. *)

Ltac is_pconst p :=
  lazymatch p with
  | xH => idtac
  | xO ?q => is_pconst q
  | xI ?q => is_pconst q
  end.
Ltac is_zconst c :=
  lazymatch c with
  | Z0 => idtac
  | Zpos ?p => is_pconst p
  | Zneg ?p => is_pconst p
  end.
Ltac eval1 f :=
  match goal with
  | |- context [f ?c] =>
      is_zconst c; let r := eval vm_compute in (f c) in change (f c) with r
  end.
Ltac eval2 f :=
  match goal with
  | |- context [f ?c ?d] =>
      is_zconst c; is_zconst d;
      let r := eval vm_compute in (f c d) in change (f c d) with r
  end.
Ltac evals :=
  repeat first
    [ eval1 GETSIZE | eval1 GETDIRTYBIT | eval1 size_t | eval1 int
    | eval1 seglist_index | eval1 ALIGN | eval1 adjusted_size
    | eval2 Z.lor | eval2 Z.land | eval2 Z.add | eval2 Z.sub | eval2 Z.mul
    | eval2 Z.eqb | eval2 Z.ltb | eval2 Z.leb ].

Ltac regs :=
  repeat match goal with
    | |- context [mem_brk (wr ?s ?a ?v)] => change (mem_brk (wr s a v)) with (mem_brk s)
    | |- context [mem_start_brk (wr ?s ?a ?v)] =>
        change (mem_start_brk (wr s a v)) with (mem_start_brk s)
    | |- context [mem_max_addr (wr ?s ?a ?v)] =>
        change (mem_max_addr (wr s a v)) with (mem_max_addr s)
    | |- context [free_seglist (wr ?s ?a ?v)] =>
        change (free_seglist (wr s a v)) with (free_seglist s)
    | |- context [mem_brk (set_brk ?s ?b)] => change (mem_brk (set_brk s b)) with b
    | |- context [mem_start_brk (set_brk ?s ?b)] =>
        change (mem_start_brk (set_brk s b)) with (mem_start_brk s)
    | |- context [mem_max_addr (set_brk ?s ?b)] =>
        change (mem_max_addr (set_brk s b)) with (mem_max_addr s)
    | |- context [free_seglist (set_brk ?s ?b)] =>
        change (free_seglist (set_brk s b)) with (free_seglist s)
    | H : mem_brk ?s = ?b |- context [mem_brk ?s] => rewrite H
    | H : mem_start_brk ?s = ?b |- context [mem_start_brk ?s] => rewrite H
    | H : mem_max_addr ?s = ?b |- context [mem_max_addr ?s] => rewrite H
    | H : free_seglist ?s = ?b |- context [free_seglist ?s] => rewrite H
    end.

Ltac clean t :=
  lazymatch t with
  | context [rd _ _] => fail
  | context [if _ then _ else _] => fail
  | _ => idtac
  end.

Ltac read :=
  match goal with
  | |- context [rd (wr ?s ?a ?v) ?b] =>
      clean a; clean b;
      first [ rewrite (rd_wr_other s a v b) by lia
            | clean v; rewrite (rd_wr_at s a v b) by lia ]
  | |- context [rd (set_brk ?s ?x) ?b] => change (rd (set_brk s x) b) with (rd s b)
  | H : rd ?s ?a = ?v |- context [rd ?s ?b] =>
      clean b; replace (rd s b) with v by (rewrite <- H; f_equal; lia)
  end.

Lemma size_t_small (x : Z) : 0 <= x < 2 ^ 64 -> size_t x = x.
Proof. apply Z.mod_small. Qed.

Lemma int_small (x : Z) : - 2 ^ 31 <= x < 2 ^ 31 -> int x = x.
Proof. intros H. unfold int. rewrite Z.mod_small by lia. lia. Qed.

Ltac small :=
  match goal with
  | |- context [size_t ?x] => clean x; rewrite (size_t_small x) by lia
  | |- context [int ?x] => clean x; rewrite (int_small x) by lia
  end.

Ltac decide_cmp :=
  match goal with
  | |- context [?a =? ?b] =>
      clean a; clean b;
      first [ replace (a =? b) with true by (symmetry; apply Z.eqb_eq; lia)
            | replace (a =? b) with false by (symmetry; apply Z.eqb_neq; lia) ]
  | |- context [?a <? ?b] =>
      clean a; clean b;
      first [ replace (a <? b) with true by (symmetry; apply Z.ltb_lt; lia)
            | replace (a <? b) with false by (symmetry; apply Z.ltb_ge; lia) ]
  | |- context [?a <=? ?b] =>
      clean a; clean b;
      first [ replace (a <=? b) with true by (symmetry; apply Z.leb_le; lia)
            | replace (a <=? b) with false by (symmetry; apply Z.leb_gt; lia) ]
  end.

Ltac fin := first [assumption | reflexivity | lia].

Ltac macros :=
  unfold write_tags, GETFOOTER, GETNEXTFREE, GETPREVFREE, NEXTFREE_addr, PREVFREE_addr,
    GETNEXTBLOCK, seglist_slot, heap_start, mem_heap_hi, mem_heap_lo, mem_heapsize,
    mem_sbrk;
  change SIZE_T_SIZE with 8; change sizeof_ptr with 8; change MAXPOW with 25;
  change NULL with 0.

Ltac simp :=
  repeat first
    [ progress cbn [negb andb orb fst snd]
    | progress cbv beta iota
    | progress regs
    | progress evals
    | progress read
    | progress small
    | progress decide_cmp
    | progress cbv zeta ].

(** *** One step of each loop *)

Lemma get_optimal_outer_S (k fuel : nat) (s : state) (index size : Z) :
  get_optimal_outer (S k) fuel s index size
  = if index <? MAXPOW then
      match get_optimal_inner fuel s (rd s (seglist_slot s index)) size with
      | None => None
      | Some p => if p =? NULL then get_optimal_outer k fuel s (index + 1) size else Some p
      end
    else Some NULL.
Proof. reflexivity. Qed.

Lemma get_optimal_inner_S (k : nat) (s : state) (free_list size : Z) :
  get_optimal_inner (S k) s free_list size
  = if free_list =? NULL then Some NULL
    else if size <=? GETSIZE (rd s free_list) then Some free_list
    else get_optimal_inner k s (GETNEXTFREE s free_list) size.
Proof. reflexivity. Qed.

Lemma add_to_list_walk_S (k : nat) (s : state) (free_slot ptr : Z) :
  add_to_list_walk (S k) s free_slot ptr
  = if negb (GETNEXTFREE s free_slot =? NULL)
       && (GETSIZE (GETNEXTFREE s free_slot) <? GETSIZE (rd s ptr))
    then add_to_list_walk k s (GETNEXTFREE s free_slot) ptr
    else Some free_slot.
Proof. reflexivity. Qed.

(** *** Empty buckets *)

Lemma get_optimal_outer_empty (n fuel : nat) (s : state) (size : Z) :
  (forall j, 0 <= j < MAXPOW -> rd s (seglist_slot s j) = NULL) ->
  forall index, 0 <= index ->
    get_optimal_outer n (S fuel) s index size = Some NULL.
Proof.
  intros H. induction n as [|n IH]; intros index Hi; [reflexivity|].
  rewrite get_optimal_outer_S.
  destruct (Z.ltb_spec index MAXPOW); [|reflexivity].
  rewrite H by lia. rewrite get_optimal_inner_S.
  change (NULL =? NULL) with true. cbv iota. apply IH. lia.
Qed.

Lemma mm_init_loop_regs (n : nat) :
  forall (i : Z) (s : state),
    mem_brk (mm_init_loop n i s) = mem_brk s
    /\ mem_start_brk (mm_init_loop n i s) = mem_start_brk s
    /\ mem_max_addr (mm_init_loop n i s) = mem_max_addr s
    /\ free_seglist (mm_init_loop n i s) = free_seglist s
    /\ stdout (mm_init_loop n i s) = stdout s.
Proof.
  induction n as [|n IH]; intros i s; [repeat split|].
  cbn [mm_init_loop]. destruct (i <? MAXPOW); [|repeat split].
  destruct (IH (i + 1) (wr s (seglist_slot s i) NULL)) as (? & ? & ? & ? & ?).
  repeat split; assumption.
Qed.

Lemma mm_init_loop_frame (n : nat) :
  forall (i : Z) (s : state) (a : Z),
    (forall j, i <= j -> a + 8 <= seglist_slot s j \/ seglist_slot s j + 8 <= a) ->
    rd (mm_init_loop n i s) a = rd s a.
Proof.
  induction n as [|n IH]; intros i s a H; [reflexivity|].
  cbn [mm_init_loop]. destruct (i <? MAXPOW); [|reflexivity].
  rewrite IH.
  - apply rd_wr_other. apply H. lia.
  - intros j Hj. apply (H j). lia.
Qed.

Lemma mm_init_loop_zero (n : nat) :
  forall (i : Z) (s : state) (j : Z),
    i <= j < i + Z.of_nat n -> j < MAXPOW ->
    rd (mm_init_loop n i s) (seglist_slot s j) = NULL.
Proof.
  induction n as [|n IH]; intros i s j Hj Hm; [lia|].
  cbn [mm_init_loop]. destruct (Z.ltb_spec i MAXPOW); [|lia].
  destruct (Z.eq_dec j i) as [->|Hne].
  - rewrite mm_init_loop_frame.
    + apply rd_wr_same. cbv. split; [discriminate | reflexivity].
    + intros j Hj'. unfold seglist_slot, sizeof_ptr. cbn [free_seglist wr set_heap]. lia.
  - apply (IH (i + 1) (wr s (seglist_slot s i) NULL) j); lia.
Qed.

(** *** Scenario A, step by step, on every provider *)

Section ScenarioA.
Variables lo room : Z.
Hypothesis Hlo : 0 < lo.
Hypothesis Hroom : 296 <= room.
Hypothesis Hfit : lo + room < 2 ^ 64.

Lemma init_step (m0 : Mem.memory) :
  exists s, mm_init (fresh lo room m0) = (1, s)
    /\ registers lo room (lo + 200) s
    /\ (forall j, 0 <= j < 25 -> rd s (lo + 8 * j) = 0).
Proof.
  eexists. split; [|split].
  - unfold mm_init. macros. evals. unfold fresh.
    cbn [mem_brk mem_max_addr mem_start_brk free_seglist set_brk set_free_seglist fst snd].
    simp. cbn [mem_brk mem_max_addr mem_start_brk free_seglist set_brk set_free_seglist fst snd].
    simp. reflexivity.
  - pose proof (mm_init_loop_regs (Z.to_nat 25) 0
                  (mkState lo (lo + 200) (lo + room) m0 lo [])) as (? & ? & ? & ? & ?).
    constructor; assumption.
  - intros j Hj.
    pose proof (mm_init_loop_zero (Z.to_nat 25) 0
                  (mkState lo (lo + 200) (lo + room) m0 lo []) j) as H.
    unfold seglist_slot, sizeof_ptr in H. cbn [free_seglist] in H.
    replace (lo + 8 * j) with (lo + j * 8) by lia. apply H; [lia | unfold MAXPOW; lia].
Qed.

Lemma first_malloc (s : state) :
  registers lo room (lo + 200) s ->
  (forall j, 0 <= j < 25 -> rd s (lo + 8 * j) = 0) ->
  exists s', mm_malloc FUEL s 16 = Some (lo + 208, s')
    /\ registers lo room (lo + 232) s'
    /\ (forall j, 0 <= j < 25 -> rd s' (lo + 8 * j) = 0)
    /\ rd s' (lo + 200) = 33 /\ rd s' (lo + 224) = 33.
Proof.
  intros [H1 H2 H3 Hb] Hz.
  pose proof (Hz 24 ltac:(lia)) as Hz24.
  assert (Hg : get_optimal_free_block FUEL s 32 = Some 0).
  { apply get_optimal_outer_empty; [|cbv; discriminate].
    intros j Hj. unfold seglist_slot, sizeof_ptr. rewrite H3.
    replace (lo + j * 8) with (lo + 8 * j) by lia. apply Hz. exact Hj. }
  eexists. split.
  - unfold mm_malloc. evals. rewrite Hg. macros. rewrite ?H1, ?H2, ?H3, ?Hb.
    simp. apply f_equal. apply f_equal2; [lia | reflexivity].
  - macros. split; [constructor; simp; fin|].
    split; [intros j Hj; simp; apply Hz; lia|].
    split; simp; fin.
Qed.

Lemma second_malloc (s : state) :
  registers lo room (lo + 232) s ->
  (forall j, 0 <= j < 25 -> rd s (lo + 8 * j) = 0) ->
  rd s (lo + 200) = 33 -> rd s (lo + 224) = 33 ->
  exists s', mm_malloc FUEL s 16 = Some (lo + 240, s')
    /\ registers lo room (lo + 296) s'
    /\ rd s' lo = lo + 264
    /\ rd s' (lo + 200) = 33 /\ rd s' (lo + 224) = 33 /\ rd s' (lo + 232) = 33
    /\ rd s' (lo + 264) = 32 /\ rd s' (lo + 272) = 0 /\ rd s' (lo + 280) = 0.
Proof.
  intros [H1 H2 H3 Hb] Hz Hh Hf.
  pose proof (Hz 0 ltac:(lia)) as Hz0. rewrite Z.mul_0_r, Z.add_0_r in Hz0.
  assert (Hg : get_optimal_free_block FUEL s 32 = Some 0).
  { apply get_optimal_outer_empty; [|cbv; discriminate].
    intros j Hj. unfold seglist_slot, sizeof_ptr. rewrite H3.
    replace (lo + j * 8) with (lo + 8 * j) by lia. apply Hz. exact Hj. }
  eexists. split.
  - unfold mm_malloc. evals. rewrite Hg. macros. rewrite ?H1, ?H2, ?H3, ?Hb.
    simp. unfold add_to_list. macros. simp.
    apply f_equal. apply f_equal2; [lia | reflexivity].
  - macros. split; [constructor; simp; fin|].
    repeat split; simp; fin.
Qed.

Lemma free_first (s : state) :
  registers lo room (lo + 296) s ->
  rd s lo = lo + 264 ->
  rd s (lo + 200) = 33 -> rd s (lo + 224) = 33 -> rd s (lo + 232) = 33 ->
  rd s (lo + 264) = 32 -> rd s (lo + 272) = 0 -> rd s (lo + 280) = 0 ->
  exists s', mm_free FUEL s (lo + 208) = Some s'
    /\ registers lo room (lo + 296) s'
    /\ rd s' lo = lo + 264
    /\ rd s' (lo + 264) = 32 /\ rd s' (lo + 272) = lo + 200 /\ rd s' (lo + 280) = 0.
Proof.
  intros [H1 H2 H3 Hb] Hs0 Hh Hf Hn Hsp Hnx Hpv.
  eexists. split.
  - unfold mm_free, mm_coalesce. macros. rewrite ?H1, ?H2, ?H3, ?Hb.
    simp.
    unfold add_to_list. macros. rewrite ?H1, ?H2, ?H3, ?Hb. simp.
    change FUEL with (S 63). rewrite add_to_list_walk_S. macros. simp.
    reflexivity.
  - macros. split; [constructor; simp; fin|].
    repeat split; simp; fin.
Qed.

Lemma third_malloc (s : state) :
  registers lo room (lo + 296) s ->
  rd s lo = lo + 264 ->
  rd s (lo + 264) = 32 -> rd s (lo + 272) = lo + 200 -> rd s (lo + 280) = 0 ->
  exists s', mm_malloc FUEL s 16 = Some (lo + 272, s')
    /\ registers lo room (lo + 296) s'.
Proof.
  intros [H1 H2 H3 Hb] Hs0 Hsp Hnx Hpv.
  eexists. split.
  - unfold mm_malloc, get_optimal_free_block. evals.
    change (Z.to_nat MAXPOW) with (S 24). rewrite get_optimal_outer_S.
    change FUEL with (S 63). rewrite get_optimal_inner_S.
    macros. rewrite ?H1, ?H2, ?H3, ?Hb. simp.
    unfold remove_link. macros. rewrite ?H1, ?H2, ?H3, ?Hb. simp.
    apply f_equal. apply f_equal2; [lia | reflexivity].
  - macros. constructor; simp; fin.
Qed.

Lemma scenario_A_run (m0 : Mem.memory) :
  result scenario_A (fresh lo room m0)
  = Some (lo + 208, lo + 240, lo + 272, 296, 296).
Proof.
  destruct (init_step m0) as (s0 & E0 & R0 & Z0).
  destruct (first_malloc s0 R0 Z0) as (s1 & E1 & R1 & Z1 & Hh1 & Hf1).
  destruct (second_malloc s1 R1 Z1 Hh1 Hf1)
    as (s2 & E2 & R2 & Hs0 & Hh & Hf & Hn & Hsp & Hnx & Hpv).
  destruct (free_first s2 R2 Hs0 Hh Hf Hn Hsp Hnx Hpv)
    as (s3 & E3 & R3 & Hs0' & Hsp' & Hnx' & Hpv').
  destruct (third_malloc s3 R3 Hs0' Hsp' Hnx' Hpv') as (s4 & E4 & R4).
  unfold result, scenario_A, bind, init, allocate, deallocate, get_state, ret.
  rewrite E0, E1, E2, E3, E4. cbn [option_map fst].
  unfold mem_heapsize. destruct R3 as [-> _ _ ->]. destruct R4 as [-> _ _ ->].
  repeat f_equal; rewrite size_t_small; lia.
Qed.

End ScenarioA.

(** * More of mm.c

    The properties below are read off the code of the functions the
    allocator is made of. *)

(** ** seglist_index *)

Lemma seglist_index_loop_spec (n : nat) :
  forall size rsp, 0 < size ->
    seglist_index_loop n size rsp = rsp + Z.min (Z.of_nat n) (Z.log2 size + 1).
Proof.
  induction n as [|n IH]; intros size rsp Hs.
  - cbn [seglist_index_loop]. pose proof (Z.log2_nonneg size). lia.
  - cbn [seglist_index_loop]. destruct (Z.eqb_spec size 0) as [|_]; [lia|].
    rewrite Z.shiftr_div_pow2 by lia. change (2 ^ 1) with 2.
    destruct (Z.eq_dec size 1) as [->|H1].
    + change (1 / 2) with 0. destruct n; cbn [seglist_index_loop]; cbn; lia.
    + assert (Hd : 0 < size / 2) by (apply Z.div_str_pos; lia).
      rewrite IH by exact Hd.
      assert (Hl : Z.log2 (size / 2) = Z.log2 size - 1).
      { rewrite <- Z.div2_div, Z.div2_spec, Z.log2_shiftr by lia.
        pose proof (Z.log2_pos size ltac:(lia)). lia. }
      rewrite Hl. lia.
Qed.

Lemma seglist_index_eq (size : Z) :
  seglist_index size = if size <? 64 then 0 else Z.min (Z.log2 size - 5) (MAXPOW - 1).
Proof.
  unfold seglist_index. destruct (Z.ltb_spec size 64); [reflexivity|].
  rewrite seglist_index_loop_spec by lia. unfold MAXPOW.
  change (Z.of_nat 64) with 64.
  destruct (Z.ltb_spec (0 + Z.min 64 (Z.log2 size + 1) - 6) 25); lia.
Qed.

Lemma log2_from_64 (size : Z) : 64 <= size -> 6 <= Z.log2 size.
Proof. intros H. change 6 with (Z.log2 64). apply Z.log2_le_mono. exact H. Qed.

Lemma seglist_index_range (size : Z) : 0 <= seglist_index size < MAXPOW.
Proof.
  rewrite seglist_index_eq. unfold MAXPOW.
  destruct (Z.ltb_spec size 64); [lia|].
  pose proof (log2_from_64 size ltac:(lia)). lia.
Qed.

(** X1.  seglist_index in closed form: sizes below 64 fall in bucket 0,
    a size from 64 on in bucket [log2 size - 5], and from 2^29 on in the
    last bucket; the result always designates one of the MAXPOW entries
    of the bucket array, for negative arguments too. *)
Theorem seglist_index_closed_form :
  forall size : Z,
    seglist_index size
    = (if size <? 64 then 0 else Z.min (Z.log2 size - 5) (MAXPOW - 1))
    /\ 0 <= seglist_index size < MAXPOW.
Proof.
  intros size. split; [apply seglist_index_eq | apply seglist_index_range].
Qed.

(** X2.  seglist_index is monotone: a larger block never falls in a
    bucket of lower index, which is what lets get_optimal_free_block
    search from the bucket of the requested size upwards only. *)
Theorem seglist_index_monotone :
  forall size size' : Z,
    size <= size' -> seglist_index size <= seglist_index size'.
Proof.
  intros size size' H. rewrite !seglist_index_eq. unfold MAXPOW.
  destruct (Z.ltb_spec size 64); destruct (Z.ltb_spec size' 64); try lia.
  - pose proof (log2_from_64 size' ltac:(lia)). lia.
  - pose proof (Z.log2_le_mono size size' H). lia.
Qed.

Lemma seglist_index_monotone_witness : seglist_index 120 <= seglist_index 4096.
Proof. apply (seglist_index_monotone 120 4096). lia. Defined.

(** X3.  A block of at least 32 bytes, the least size mm_malloc gives a
    block, is never smaller than [1 << (i + 5)] for its own bucket [i]:
    the test by which mm_check declares a free block to be in the wrong
    category cannot fire on a block linked in the bucket of its size. *)
Theorem seglist_index_lower_bound :
  forall size : Z,
    32 <= size -> Z.shiftl 1 (seglist_index size + 5) <= size.
Proof.
  intros size H. rewrite seglist_index_eq. unfold MAXPOW.
  rewrite Z.shiftl_1_l.
  destruct (Z.ltb_spec size 64); [cbn; lia|].
  pose proof (log2_from_64 size ltac:(lia)) as H6.
  pose proof (Z.log2_spec size ltac:(lia)) as [Hl _].
  apply Z.le_trans with (2 ^ Z.log2 size); [|exact Hl].
  apply Z.pow_le_mono_r; lia.
Qed.

Lemma seglist_index_lower_bound_witness : Z.shiftl 1 (seglist_index 2032 + 5) <= 2032.
Proof. apply (seglist_index_lower_bound 2032). lia. Defined.

(** ** ALIGN and the adjusted size *)

Lemma ALIGN_bounds (x : Z) :
  0 <= x <= 2 ^ 64 - 8 -> x <= ALIGN x < x + 8 /\ ALIGN x mod 8 = 0.
Proof.
  intros H. rewrite ALIGN_spec. unfold size_t.
  rewrite (Z.mod_small (x + 7)) by lia.
  pose proof (Z.div_mod (x + 7) 8 ltac:(lia)) as Hd.
  pose proof (Z.mod_pos_bound (x + 7) 8 ltac:(lia)) as Hm.
  split; [lia|]. rewrite Z.mul_comm. apply Z.mod_mul. lia.
Qed.

Lemma adjusted_size_covers (size : Z) :
  0 <= size <= 2 ^ 64 - 24 ->
  size + 16 <= adjusted_size size <= Z.max 32 (size + 23).
Proof.
  intros H. unfold adjusted_size. change (ALIGN (4 * SIZE_T_SIZE)) with 32.
  change (2 * SIZE_T_SIZE) with 16.
  rewrite (size_t_small (size + 16)) by lia.
  pose proof (ALIGN_bounds (size + 16) ltac:(lia)) as [Hr _].
  destruct (Z.ltb_spec (ALIGN (size + 16)) 32); lia.
Qed.

(** X4.  The block size mm_malloc and mm_realloc compute for a request:
    it has room for the payload, a header and a footer, wastes less than
    8 bytes above the minimum of 32, and is a multiple of 8. *)
Theorem adjusted_size_covers_request :
  forall size : Z,
    0 <= size <= 2 ^ 64 - 24 ->
    size + 2 * SIZE_T_SIZE <= adjusted_size size
    /\ adjusted_size size <= Z.max 32 (size + 2 * SIZE_T_SIZE + 7)
    /\ 32 <= adjusted_size size
    /\ adjusted_size size mod 8 = 0.
Proof.
  intros size H. destruct (adjusted_size_bounds size) as [[Hlo _] Hmod].
  destruct (adjusted_size_covers size H) as [H1 H2].
  change (2 * SIZE_T_SIZE) with 16.
  split; [exact H1|]. split; [lia|]. split; assumption.
Qed.

Lemma adjusted_size_covers_request_witness :
  100 + 2 * SIZE_T_SIZE <= adjusted_size 100
  /\ adjusted_size 100 <= Z.max 32 (100 + 2 * SIZE_T_SIZE + 7)
  /\ 32 <= adjusted_size 100
  /\ adjusted_size 100 mod 8 = 0.
Proof. apply (adjusted_size_covers_request 100). lia. Defined.

(** X5.  The sum [size + 2 * SIZE_T_SIZE] is computed in size_t: for the
    23 largest values of [size] it wraps around, and the block size
    computed for a request of nearly 2^64 bytes is 32. *)
Theorem adjusted_size_wraps :
  forall size : Z,
    2 ^ 64 - 23 <= size < 2 ^ 64 ->
    adjusted_size size = 32 /\ adjusted_size size < size.
Proof.
  intros size H.
  assert (E : adjusted_size size = 32); [|split; [exact E | lia]].
  unfold adjusted_size. change (ALIGN (4 * SIZE_T_SIZE)) with 32.
  change (2 * SIZE_T_SIZE) with 16.
  assert (Hs : ALIGN (size_t (size + 16)) < 32).
  { rewrite ALIGN_spec. unfold size_t.
    destruct (Z_lt_le_dec (size + 16) (2 ^ 64)) as [Hlt|Hge].
    - rewrite (Z.mod_small (size + 16)) by lia.
      replace ((size + 16 + 7) mod 2 ^ 64) with (size + 16 + 7 - 2 ^ 64).
      2:{ apply (Z.mod_unique (size + 16 + 7) (2 ^ 64) 1); lia. }
      pose proof (Z.div_mod (size + 16 + 7 - 2 ^ 64) 8 ltac:(lia)).
      pose proof (Z.mod_pos_bound (size + 16 + 7 - 2 ^ 64) 8 ltac:(lia)). lia.
    - replace ((size + 16) mod 2 ^ 64) with (size + 16 - 2 ^ 64).
      2:{ apply (Z.mod_unique (size + 16) (2 ^ 64) 1); lia. }
      rewrite (Z.mod_small (size + 16 - 2 ^ 64 + 7)) by lia.
      pose proof (Z.div_mod (size + 16 - 2 ^ 64 + 7) 8 ltac:(lia)).
      pose proof (Z.mod_pos_bound (size + 16 - 2 ^ 64 + 7) 8 ltac:(lia)). lia. }
  destruct (Z.ltb_spec (ALIGN (size_t (size + 16))) 32); [reflexivity | lia].
Qed.

Lemma adjusted_size_wraps_witness :
  adjusted_size (2 ^ 64 - 1) = 32 /\ adjusted_size (2 ^ 64 - 1) < 2 ^ 64 - 1.
Proof. apply (adjusted_size_wraps (2 ^ 64 - 1)). lia. Defined.

(** ** get_optimal_free_block *)

Lemma get_optimal_inner_fits (s : state) (size : Z) :
  forall (fuel : nat) (free_list p : Z),
    get_optimal_inner fuel s free_list size = Some p -> p <> NULL ->
    size <= GETSIZE (rd s p).
Proof.
  induction fuel as [|fuel IH]; intros free_list p H Hp; [discriminate|].
  cbn [get_optimal_inner] in H.
  destruct (free_list =? NULL); [injection H as <-; contradiction|].
  destruct (Z.leb_spec size (GETSIZE (rd s free_list))).
  - injection H as <-. assumption.
  - eapply IH; eassumption.
Qed.

Lemma get_optimal_outer_fits (fuel : nat) (s : state) (size : Z) :
  forall (n : nat) (index p : Z),
    get_optimal_outer n fuel s index size = Some p -> p <> NULL ->
    size <= GETSIZE (rd s p).
Proof.
  induction n as [|n IH]; intros index p H Hp; [injection H as <-; contradiction|].
  cbn [get_optimal_outer] in H.
  destruct (index <? MAXPOW); [|injection H as <-; contradiction].
  destruct (get_optimal_inner fuel s _ size) as [q|] eqn:E; [|discriminate].
  destruct (Z.eqb_spec q NULL).
  - eapply IH; eassumption.
  - injection H as <-. eapply get_optimal_inner_fits; eassumption.
Qed.

(** X6.  A candidate returned by get_optimal_free_block is large enough:
    whatever the buckets hold, a pointer that is not NULL designates a
    header whose size is at least the size asked for. *)
Theorem get_optimal_free_block_fits :
  forall (fuel : nat) (s : state) (size p : Z),
    get_optimal_free_block fuel s size = Some p ->
    p <> NULL ->
    size <= block_size s p.
Proof. intros fuel s size p. apply get_optimal_outer_fits. Qed.

Lemma get_optimal_free_block_fits_witness :
  32 <= block_size (snd after_free_one) (LO + 200).
Proof.
  apply (get_optimal_free_block_fits FUEL (snd after_free_one) 32 (LO + 200)).
  - vm_compute. reflexivity.
  - vm_compute. discriminate.
Defined.

Lemma get_optimal_head (fuel : nat) (s : state) (size h : Z) :
  rd s (seglist_slot s (seglist_index size)) = h ->
  h <> NULL ->
  size <= GETSIZE (rd s h) ->
  get_optimal_free_block (S fuel) s size = Some h.
Proof.
  intros Hhead Hh Hfit.
  unfold get_optimal_free_block. change (Z.to_nat MAXPOW) with (S 24).
  rewrite get_optimal_outer_S.
  pose proof (seglist_index_range size) as Hr.
  destruct (Z.ltb_spec (seglist_index size) MAXPOW); [|lia].
  rewrite Hhead, get_optimal_inner_S.
  destruct (Z.eqb_spec h NULL); [contradiction|].
  destruct (Z.leb_spec size (GETSIZE (rd s h))); [|lia].
  destruct (Z.eqb_spec h NULL); [contradiction | reflexivity].
Qed.

(** X7.  The search is first fit: when the head of the bucket of the
    requested size is large enough, it is the candidate, whatever else
    the buckets hold and however close a fit they offer. *)
Theorem get_optimal_free_block_takes_a_fitting_head :
  forall (fuel : nat) (s : state) (size h : Z),
    rd s (seglist_slot s (seglist_index size)) = h ->
    h <> NULL ->
    size <= block_size s h ->
    get_optimal_free_block (S fuel) s size = Some h.
Proof. intros fuel s size h. apply get_optimal_head. Qed.

(** Bucket 1 holds blocks of 120 and 88 bytes in this order: a request
    for 88 bytes is given the block of 120. *)
Lemma get_optimal_free_block_takes_a_fitting_head_witness :
  block_size (snd pair_in_bucket_1) (LO + 200) = 120
  /\ block_size (snd pair_in_bucket_1) (LO + 384) = 88
  /\ get_optimal_free_block FUEL (snd pair_in_bucket_1) 88 = Some (LO + 200).
Proof.
  split; [vm_compute; reflexivity|]. split; [vm_compute; reflexivity|].
  apply (get_optimal_free_block_takes_a_fitting_head 63 (snd pair_in_bucket_1) 88 (LO + 200)).
  - vm_compute. reflexivity.
  - vm_compute. discriminate.
  - vm_compute. discriminate.
Defined.

(** ** add_to_list and remove_link *)

Ltac links := unfold GETNEXTFREE, GETPREVFREE, NEXTFREE_addr, PREVFREE_addr in *;
  change SIZE_T_SIZE with 8 in *; change NULL with 0 in *.

Lemma slot_below (s : state) (index p : Z) :
  0 <= index < MAXPOW -> free_seglist s + MAXPOW * sizeof_ptr <= p ->
  seglist_slot s index + 8 <= p.
Proof. unfold seglist_slot, sizeof_ptr, MAXPOW. lia. Qed.

(** Insertion in an empty bucket. *)
Lemma add_to_list_empty (fuel : nat) (s : state) (ptr : Z) :
  let slot := seglist_slot s (seglist_index (GETSIZE (rd s ptr))) in
  rd s slot = NULL ->
  0 <= ptr < 2 ^ 64 ->
  slot + 8 <= ptr \/ ptr + 24 <= slot ->
  exists s',
    add_to_list fuel s ptr = Some s'
    /\ rd s' slot = ptr
    /\ GETNEXTFREE s' ptr = NULL /\ GETPREVFREE s' ptr = NULL
    /\ rd s' ptr = rd s ptr
    /\ free_seglist s' = free_seglist s
    /\ (forall a, a + 8 <= slot \/ slot + 8 <= a ->
                  a + 8 <= ptr + 8 \/ ptr + 24 <= a ->
                  rd s' a = rd s a).
Proof.
  intros slot Hempty Hptr Hlay. eexists. split.
  - unfold add_to_list. fold slot. rewrite Hempty. change (NULL =? NULL) with true.
    cbv iota. reflexivity.
  - unfold GETNEXTFREE, GETPREVFREE, NEXTFREE_addr, PREVFREE_addr.
    change SIZE_T_SIZE with 8. change NULL with 0.
    cbv zeta.
    repeat split.
    + rewrite !rd_wr_other by lia. apply rd_wr_same. exact Hptr.
    + rewrite rd_wr_other by lia. apply rd_wr_same. lia.
    + apply rd_wr_same. lia.
    + rewrite !rd_wr_other by lia. reflexivity.
    + intros a H1 H2. rewrite !rd_wr_other by lia. reflexivity.
Qed.

(** add_to_list returns whenever the links of the bucket it walks reach
    NULL within the fuel. *)
Lemma add_to_list_walk_total (s : state) (ptr : Z) :
  forall (fuel : nat) (h : Z),
    h <> NULL -> bucket_from fuel s h <> None ->
    add_to_list_walk fuel s h ptr <> None.
Proof.
  induction fuel as [|fuel IH]; intros h Hh Hb; [now contradiction Hb|].
  rewrite add_to_list_walk_S. cbn [bucket_from] in Hb.
  destruct (Z.eqb_spec h NULL); [contradiction|].
  destruct (Z.eqb_spec (GETNEXTFREE s h) NULL) as [|Hn]; cbn [negb andb]; [discriminate|].
  destruct (_ <? _); [|discriminate].
  apply IH; [exact Hn|].
  destruct (bucket_from fuel s (GETNEXTFREE s h)); [discriminate | now contradiction Hb].
Qed.

Lemma add_to_list_total (fuel : nat) (s : state) (ptr : Z) :
  receiving_bucket fuel s ptr <> None ->
  exists s', add_to_list fuel s ptr = Some s'.
Proof.
  unfold receiving_bucket, block_size, add_to_list. cbv zeta. intros Hb.
  destruct (Z.eqb_spec (rd s (seglist_slot s (seglist_index (GETSIZE (rd s ptr))))) NULL)
    as [|Hh]; [eexists; reflexivity|].
  pose proof (add_to_list_walk_total s ptr fuel _ Hh Hb) as Hw.
  destruct (add_to_list_walk fuel s _ ptr); [eexists; reflexivity | now contradiction Hw].
Qed.

(** X8.  A block inserted in an empty bucket is what the next search
    finds: add_to_list followed by get_optimal_free_block, for a size of
    the same bucket that the block can hold, returns that block. *)
Theorem add_to_list_then_find :
  forall (fuel : nat) (s : state) (ptr size : Z),
    rd s (seglist_slot s (seglist_index (block_size s ptr))) = NULL ->
    0 < ptr < 2 ^ 64 ->
    free_seglist s + MAXPOW * sizeof_ptr <= ptr ->
    seglist_index size = seglist_index (block_size s ptr) ->
    size <= block_size s ptr ->
    exists s',
      add_to_list fuel s ptr = Some s'
      /\ get_optimal_free_block (S fuel) s' size = Some ptr.
Proof.
  unfold block_size. intros fuel s ptr size Hempty Hptr Harr Hidx Hfit.
  pose proof (slot_below s _ ptr (seglist_index_range (GETSIZE (rd s ptr))) Harr) as Hlay.
  destruct (add_to_list_empty fuel s ptr Hempty ltac:(lia) (or_introl Hlay))
    as (s' & Hadd & Hhead & _ & _ & Hhdr & Hseg & _).
  exists s'. split; [exact Hadd|].
  apply get_optimal_head.
  - rewrite Hidx. unfold seglist_slot in *. rewrite Hseg. exact Hhead.
  - unfold NULL. lia.
  - rewrite Hhdr. exact Hfit.
Qed.

(** The block of [after_first_allocation], of 32 bytes, joins the empty
    bucket 0. *)
Lemma add_to_list_then_find_witness :
  exists s',
    add_to_list FUEL after_first_allocation (LO + 200) = Some s'
    /\ get_optimal_free_block (S FUEL) s' 32 = Some (LO + 200).
Proof.
  apply (add_to_list_then_find FUEL after_first_allocation (LO + 200) 32).
  - vm_compute. reflexivity.
  - vm_compute. split; reflexivity.
  - vm_compute. discriminate.
  - vm_compute. reflexivity.
  - vm_compute. discriminate.
Defined.

Lemma load_le_ext_mod (n : nat) :
  forall (m m' : Mem.memory) (a : Z),
    (forall x, a <= x < a + Z.of_nat n -> m x mod 256 = m' x mod 256) ->
    Mem.load_le n m a = Mem.load_le n m' a.
Proof.
  induction n as [|n IH]; intros m m' a H; [reflexivity|].
  cbn [Mem.load_le]. rewrite (H a) by lia.
  rewrite (IH m m' (a + 1)); [reflexivity|].
  intros x Hx. apply H. lia.
Qed.

Lemma load_le_nonneg (n : nat) (m : Mem.memory) : forall a, 0 <= Mem.load_le n m a.
Proof.
  induction n as [|n IH]; intros a; cbn [Mem.load_le]; [lia|].
  pose proof (Z.mod_pos_bound (m a) 256 ltac:(lia)). specialize (IH (a + 1)). lia.
Qed.

Lemma load_le_zero_bytes (n : nat) :
  forall (m : Mem.memory) (a : Z),
    Mem.load_le n m a = 0 ->
    forall x, a <= x < a + Z.of_nat n -> m x mod 256 = 0.
Proof.
  induction n as [|n IH]; intros m a H x Hx; [lia|].
  cbn [Mem.load_le] in H.
  pose proof (Z.mod_pos_bound (m a) 256 ltac:(lia)) as Hb.
  pose proof (load_le_nonneg n m (a + 1)) as Hn.
  destruct (Z.eq_dec x a) as [->|Hne]; [lia|].
  apply (IH m (a + 1)); lia.
Qed.

(** X9.  remove_link undoes add_to_list on an empty bucket: after the
    insertion and the removal of a block, every bucket head and every
    word of the store that does not overlap the two link fields of the
    block reads as before the insertion. *)
Theorem add_to_list_then_remove_link :
  forall (fuel : nat) (s : state) (ptr : Z),
    rd s (seglist_slot s (seglist_index (block_size s ptr))) = NULL ->
    0 <= ptr < 2 ^ 64 ->
    free_seglist s + MAXPOW * sizeof_ptr <= ptr ->
    exists s',
      add_to_list fuel s ptr = Some s'
      /\ (forall index, 0 <= index < MAXPOW ->
            rd (remove_link s' ptr) (seglist_slot s index) = rd s (seglist_slot s index))
      /\ (forall a, a <= ptr \/ ptr + 24 <= a ->
                    rd (remove_link s' ptr) a = rd s a).
Proof.
  unfold block_size. intros fuel s ptr Hempty Hptr Harr.
  pose proof (slot_below s _ ptr (seglist_index_range (GETSIZE (rd s ptr))) Harr) as Hlay.
  destruct (add_to_list_empty fuel s ptr Hempty Hptr (or_introl Hlay))
    as (s' & Hadd & Hhead & Hn & Hp & Hhdr & Hseg & _).
  exists s'. split; [exact Hadd|].
  set (slot := seglist_slot s (seglist_index (GETSIZE (rd s ptr)))) in *.
  assert (Hrm : remove_link s' ptr = wr s' slot NULL).
  { unfold remove_link. rewrite Hn, Hp. change (NULL =? NULL) with true. cbn [andb].
    rewrite Hhdr. unfold seglist_slot. rewrite Hseg. reflexivity. }
  assert (Hframe : forall a, a <= ptr \/ ptr + 24 <= a ->
                             rd (remove_link s' ptr) a = rd s a).
  { intros a Ha. rewrite Hrm.
    unfold add_to_list in Hadd. fold slot in Hadd. rewrite Hempty in Hadd.
    change (NULL =? NULL) with true in Hadd. cbv iota zeta in Hadd.
    injection Hadd as <-.
    unfold rd, wr, set_heap. cbn [heap]. unfold Mem.load64.
    apply load_le_ext_mod. intros x Hx. change (Z.of_nat 8) with 8 in Hx.
    unfold Mem.store64, NEXTFREE_addr, PREVFREE_addr. change SIZE_T_SIZE with 8.
    destruct (Z.leb_spec slot x); destruct (Z.ltb_spec x (slot + 8)); cbn [andb].
    1:{ change NULL with 0. rewrite Z.shiftr_0_l, Z.mod_mod by lia.
        symmetry. apply (load_le_zero_bytes 8 (heap s) slot Hempty).
        change (Z.of_nat 8) with 8. lia. }
    all: destruct (Z.leb_spec (ptr + 2 * 8) x); destruct (Z.ltb_spec x (ptr + 2 * 8 + 8));
      cbn [andb]; try lia.
    all: destruct (Z.leb_spec (ptr + 8) x); destruct (Z.ltb_spec x (ptr + 8 + 8));
      cbn [andb]; try lia.
    all: destruct (Z.leb_spec slot x); destruct (Z.ltb_spec x (slot + 8)); cbn [andb]; try lia.
    all: reflexivity. }
  split; [|exact Hframe].
  intros index Hi. apply Hframe. left.
  pose proof (slot_below s index ptr Hi Harr). lia.
Qed.

Lemma add_to_list_then_remove_link_witness :
  exists s',
    add_to_list FUEL after_first_allocation (LO + 200) = Some s'
    /\ (forall index, 0 <= index < MAXPOW ->
          rd (remove_link s' (LO + 200)) (seglist_slot after_first_allocation index)
          = rd after_first_allocation (seglist_slot after_first_allocation index))
    /\ (forall a, a <= LO + 200 \/ LO + 200 + 24 <= a ->
                  rd (remove_link s' (LO + 200)) a = rd after_first_allocation a).
Proof.
  apply (add_to_list_then_remove_link FUEL after_first_allocation (LO + 200)).
  - vm_compute. reflexivity.
  - vm_compute. split; [discriminate | reflexivity].
  - vm_compute. discriminate.
Defined.

(** X10.  Insertion in a bucket of one block: the new block is linked
    behind the head, whichever of the two is larger; the head of the
    bucket is not replaced, and the bucket then reads head, new block. *)
Theorem add_to_list_behind_single_head :
  forall (fuel : nat) (s : state) (ptr h : Z),
    rd s (seglist_slot s (seglist_index (block_size s ptr))) = h ->
    h <> NULL ->
    GETNEXTFREE s h = NULL ->
    free_seglist s + MAXPOW * sizeof_ptr <= ptr ->
    free_seglist s + MAXPOW * sizeof_ptr <= h ->
    h + 32 <= ptr \/ ptr + 32 <= h ->
    0 < ptr < 2 ^ 64 ->
    exists s',
      add_to_list (S fuel) s ptr = Some s'
      /\ rd s' (seglist_slot s (seglist_index (block_size s ptr))) = h
      /\ GETNEXTFREE s' h = ptr
      /\ GETPREVFREE s' ptr = h
      /\ GETNEXTFREE s' ptr = NULL
      /\ bucket_from 3 s' h = Some [h; ptr].
Proof.
  unfold block_size. intros fuel s ptr h Hhead Hh Hnext Hp Hha Hapart Hrange.
  pose proof (seglist_index_range (GETSIZE (rd s ptr))) as Hr.
  pose proof (slot_below s _ ptr Hr Hp) as Hs1.
  pose proof (slot_below s _ h Hr Hha) as Hs2.
  set (slot := seglist_slot s (seglist_index (GETSIZE (rd s ptr)))) in *.
  pose proof (rd_range s slot) as Hhr. rewrite Hhead in Hhr.
  eexists. split.
  - unfold add_to_list. fold slot. rewrite Hhead.
    destruct (Z.eqb_spec h NULL); [contradiction|].
    rewrite add_to_list_walk_S, Hnext. change (NULL =? NULL) with true. cbn [negb andb].
    cbv iota zeta. rewrite Hnext.
    replace (GETNEXTFREE (wr (wr s (NEXTFREE_addr ptr) NULL) (PREVFREE_addr ptr) h) h)
      with NULL.
    2:{ links. rewrite !rd_wr_other by lia. symmetry. exact Hnext. }
    change (NULL =? NULL) with true. cbn [negb]. reflexivity.
  - links.
    assert (H1 : rd (wr (wr (wr s (ptr + 8) 0) (ptr + 2 * 8) h) (h + 8) ptr) slot = h).
    { rewrite !rd_wr_other by lia. exact Hhead. }
    assert (H2 : rd (wr (wr (wr s (ptr + 8) 0) (ptr + 2 * 8) h) (h + 8) ptr) (h + 8) = ptr).
    { apply rd_wr_same. lia. }
    assert (H3 : rd (wr (wr (wr s (ptr + 8) 0) (ptr + 2 * 8) h) (h + 8) ptr) (ptr + 2 * 8) = h).
    { rewrite rd_wr_other by lia. apply rd_wr_same. lia. }
    assert (H4 : rd (wr (wr (wr s (ptr + 8) 0) (ptr + 2 * 8) h) (h + 8) ptr) (ptr + 8) = 0).
    { rewrite !rd_wr_other by lia. apply rd_wr_same. lia. }
    repeat split; try assumption.
    cbn [bucket_from]. links.
    destruct (Z.eqb_spec h 0); [contradiction|].
    rewrite H2. destruct (Z.eqb_spec ptr 0); [lia|].
    rewrite H4. reflexivity.
Qed.

(** A block of 88 bytes joins bucket 1, headed by a block of 120 bytes,
    and is linked behind it. *)
Lemma add_to_list_behind_single_head_witness :
  block_size (snd one_in_bucket_1) (LO + 200) = 120
  /\ block_size (snd one_in_bucket_1) (LO + 384) = 88
  /\ exists s',
      add_to_list FUEL (snd one_in_bucket_1) (LO + 384) = Some s'
      /\ rd s' (seglist_slot (snd one_in_bucket_1)
                  (seglist_index (block_size (snd one_in_bucket_1) (LO + 384)))) = LO + 200
      /\ GETNEXTFREE s' (LO + 200) = LO + 384
      /\ GETPREVFREE s' (LO + 384) = LO + 200
      /\ GETNEXTFREE s' (LO + 384) = NULL
      /\ bucket_from 3 s' (LO + 200) = Some [LO + 200; LO + 384].
Proof.
  split; [vm_compute; reflexivity|]. split; [vm_compute; reflexivity|].
  apply (add_to_list_behind_single_head 63 (snd one_in_bucket_1) (LO + 384) (LO + 200)).
  - vm_compute. reflexivity.
  - vm_compute. discriminate.
  - vm_compute. reflexivity.
  - vm_compute. discriminate.
  - vm_compute. discriminate.
  - left. vm_compute. discriminate.
  - vm_compute. split; reflexivity.
Defined.

(** X11.  remove_link of the head of a bucket that has a successor: the
    successor becomes the head and loses its back link; nothing else is
    written. *)
Theorem remove_link_head_with_successor :
  forall (s : state) (ptr n : Z),
    GETPREVFREE s ptr = NULL ->
    GETNEXTFREE s ptr = n ->
    n <> NULL ->
    free_seglist s + MAXPOW * sizeof_ptr <= n ->
    n + 24 <= ptr \/ ptr <= n ->
    rd (remove_link s ptr) (seglist_slot s (seglist_index (block_size s ptr))) = n
    /\ GETPREVFREE (remove_link s ptr) n = NULL
    /\ (forall a, a + 8 <= n + 16 \/ n + 24 <= a ->
          a + 8 <= seglist_slot s (seglist_index (block_size s ptr))
          \/ seglist_slot s (seglist_index (block_size s ptr)) + 8 <= a ->
          rd (remove_link s ptr) a = rd s a).
Proof.
  unfold block_size. intros s ptr n Hprev Hnext Hn Harr Hapart.
  pose proof (seglist_index_range (GETSIZE (rd s ptr))) as Hr.
  pose proof (slot_below s _ n Hr Harr) as Hs.
  assert (Hnr : 0 <= n < 2 ^ 64) by (rewrite <- Hnext; apply rd_range).
  assert (E : remove_link s ptr
              = wr (wr s (n + 16) 0)
                   (seglist_slot s (seglist_index (GETSIZE (rd s ptr)))) n).
  { unfold remove_link. rewrite Hprev, Hnext.
    destruct (Z.eqb_spec n NULL); [contradiction|]. cbn [andb].
    change (NULL =? NULL) with true. cbv iota zeta. links.
    rewrite !rd_wr_other by lia. rewrite Hnext. reflexivity. }
  rewrite E. links. split; [|split].
  - apply rd_wr_same. exact Hnr.
  - rewrite rd_wr_other by lia. apply rd_wr_same. lia.
  - intros a H1 H2. rewrite !rd_wr_other by lia. reflexivity.
Qed.

Lemma remove_link_head_with_successor_witness :
  rd (remove_link (snd pair_in_bucket_1) (LO + 200))
     (seglist_slot (snd pair_in_bucket_1)
        (seglist_index (block_size (snd pair_in_bucket_1) (LO + 200)))) = LO + 384
  /\ GETPREVFREE (remove_link (snd pair_in_bucket_1) (LO + 200)) (LO + 384) = NULL
  /\ (forall a, a + 8 <= LO + 384 + 16 \/ LO + 384 + 24 <= a ->
        a + 8 <= seglist_slot (snd pair_in_bucket_1)
                   (seglist_index (block_size (snd pair_in_bucket_1) (LO + 200)))
        \/ seglist_slot (snd pair_in_bucket_1)
             (seglist_index (block_size (snd pair_in_bucket_1) (LO + 200))) + 8 <= a ->
        rd (remove_link (snd pair_in_bucket_1) (LO + 200)) a = rd (snd pair_in_bucket_1) a).
Proof.
  apply (remove_link_head_with_successor (snd pair_in_bucket_1) (LO + 200) (LO + 384)).
  - vm_compute. reflexivity.
  - vm_compute. reflexivity.
  - vm_compute. discriminate.
  - vm_compute. discriminate.
  - right. vm_compute. discriminate.
Defined.

(** X12.  remove_link of the last block of a bucket of several: its
    predecessor becomes the last, and only that link is written. *)
Theorem remove_link_tail :
  forall (s : state) (ptr p : Z),
    GETNEXTFREE s ptr = NULL ->
    GETPREVFREE s ptr = p ->
    p <> NULL ->
    GETNEXTFREE (remove_link s ptr) p = NULL
    /\ (forall a, a + 8 <= p + 8 \/ p + 16 <= a -> rd (remove_link s ptr) a = rd s a).
Proof.
  intros s ptr p Hnext Hprev Hp.
  assert (E : remove_link s ptr = wr s (p + 8) 0).
  { unfold remove_link. rewrite Hnext, Hprev. change (NULL =? NULL) with true.
    destruct (Z.eqb_spec p NULL); [contradiction|]. reflexivity. }
  rewrite E. links. split.
  - apply rd_wr_same. lia.
  - intros a Ha. apply rd_wr_other. lia.
Qed.

Lemma remove_link_tail_witness :
  GETNEXTFREE (remove_link (snd pair_in_bucket_1) (LO + 384)) (LO + 200) = NULL
  /\ (forall a, a + 8 <= LO + 200 + 8 \/ LO + 200 + 16 <= a ->
        rd (remove_link (snd pair_in_bucket_1) (LO + 384)) a = rd (snd pair_in_bucket_1) a).
Proof.
  apply (remove_link_tail (snd pair_in_bucket_1) (LO + 384) (LO + 200)).
  - vm_compute. reflexivity.
  - vm_compute. reflexivity.
  - vm_compute. discriminate.
Defined.

(** X13.  remove_link of a block between two others: its neighbours are
    linked to each other in both directions, the bucket head is left
    alone, and nothing else is written. *)
Theorem remove_link_middle :
  forall (s : state) (ptr p n : Z),
    GETPREVFREE s ptr = p ->
    GETNEXTFREE s ptr = n ->
    p <> NULL -> n <> NULL ->
    p + 8 <= ptr \/ ptr + 16 <= p ->
    p <= n \/ n + 16 <= p ->
    GETNEXTFREE (remove_link s ptr) p = n
    /\ GETPREVFREE (remove_link s ptr) n = p
    /\ (forall a, a + 8 <= p + 8 \/ p + 16 <= a ->
                  a + 8 <= n + 16 \/ n + 24 <= a ->
                  rd (remove_link s ptr) a = rd s a).
Proof.
  intros s ptr p n Hprev Hnext Hp Hn H1 H2.
  assert (Hpr : 0 <= p < 2 ^ 64) by (rewrite <- Hprev; apply rd_range).
  assert (Hnr : 0 <= n < 2 ^ 64) by (rewrite <- Hnext; apply rd_range).
  assert (E : remove_link s ptr = wr (wr s (p + 8) n) (n + 16) p).
  { unfold remove_link. rewrite Hprev, Hnext.
    destruct (Z.eqb_spec n NULL); [contradiction|].
    destruct (Z.eqb_spec p NULL); [contradiction|]. cbn [andb]. cbv zeta. links.
    rewrite !rd_wr_other by lia. rewrite Hprev, Hnext. reflexivity. }
  rewrite E. links. split; [|split].
  - rewrite rd_wr_other by lia. apply rd_wr_same. exact Hnr.
  - apply rd_wr_same. exact Hpr.
  - intros a Ha Hb. rewrite !rd_wr_other by lia. reflexivity.
Qed.

Lemma remove_link_middle_witness :
  GETNEXTFREE (remove_link (snd triple_in_bucket_1) (LO + 464)) (LO + 200) = LO + 328
  /\ GETPREVFREE (remove_link (snd triple_in_bucket_1) (LO + 464)) (LO + 328) = LO + 200
  /\ (forall a, a + 8 <= LO + 200 + 8 \/ LO + 200 + 16 <= a ->
                a + 8 <= LO + 328 + 16 \/ LO + 328 + 24 <= a ->
                rd (remove_link (snd triple_in_bucket_1) (LO + 464)) a
                = rd (snd triple_in_bucket_1) a).
Proof.
  apply (remove_link_middle (snd triple_in_bucket_1) (LO + 464) (LO + 200) (LO + 328)).
  - vm_compute. reflexivity.
  - vm_compute. reflexivity.
  - vm_compute. discriminate.
  - vm_compute. discriminate.
  - left. vm_compute. discriminate.
  - left. vm_compute. discriminate.
Defined.

(** ** What the calls do to the provider's registers *)

Lemma or_else_some {A} (o : option A) (d : A) :
  is_some o = true -> o = Some (or_else o d).
Proof. destruct o; [reflexivity | discriminate]. Qed.

Lemma or_else_pair {A B} (o : option (A * B)) (d : A * B) :
  is_some o = true -> o = Some (fst (or_else o d), snd (or_else o d)).
Proof. destruct o as [[a b]|]; [reflexivity | discriminate]. Qed.

Lemma same_registers_refl (s : state) : same_registers s s.
Proof. repeat split. Qed.

Lemma same_registers_trans (s1 s2 s3 : state) :
  same_registers s1 s2 -> same_registers s2 s3 -> same_registers s1 s3.
Proof. unfold same_registers. intros (?&?&?&?) (?&?&?&?). repeat split; congruence. Qed.

Lemma wr_registers (s : state) (a v : Z) : same_registers s (wr s a v).
Proof. repeat split. Qed.

Lemma write_tags_registers (s : state) (p v : Z) : same_registers s (write_tags s p v).
Proof. repeat split. Qed.

Lemma do_memmove_registers (s : state) (d a n : Z) : same_registers s (do_memmove s d a n).
Proof. repeat split. Qed.

Ltac case_ifs :=
  repeat match goal with
    | |- context [if ?c then _ else _] => destruct c; cbv iota
    end.

Lemma remove_link_registers (s : state) (ptr : Z) : same_registers s (remove_link s ptr).
Proof. unfold remove_link. cbv zeta. case_ifs; repeat split. Qed.

Lemma add_to_list_same_registers (fuel : nat) (s s' : state) (ptr : Z) :
  add_to_list fuel s ptr = Some s' -> same_registers s s'.
Proof.
  intros H. destruct (add_to_list_registers fuel s s' ptr H) as (?&?&?&?).
  repeat split; assumption.
Qed.


(** The registers are followed through a sequence of writes. *)
Ltac chain :=
  repeat match goal with
    | |- same_registers ?s ?s => apply same_registers_refl
    | |- same_registers _ (wr ?x _ _) =>
        apply (same_registers_trans _ x); [|apply wr_registers]
    | |- same_registers _ (write_tags ?x _ _) =>
        apply (same_registers_trans _ x); [|apply write_tags_registers]
    | |- same_registers _ (do_memmove ?x _ _ _) =>
        apply (same_registers_trans _ x); [|apply do_memmove_registers]
    | |- same_registers _ (remove_link ?x _) =>
        apply (same_registers_trans _ x); [|apply remove_link_registers]
    | E : add_to_list _ ?x _ = Some ?y |- same_registers _ ?y =>
        apply (same_registers_trans _ x);
        [|exact (add_to_list_same_registers _ _ _ _ E)]
    end.

Lemma mm_coalesce_registers (s : state) (h : Z) : same_registers s (snd (mm_coalesce s h)).
Proof.
  unfold mm_coalesce. cbv zeta.
  match goal with |- context [GETFOOTER ?x h] => set (s1 := x) end.
  assert (R : same_registers s s1) by (unfold s1; destruct (_ && _); chain).
  clearbody s1.
  destruct (_ <=? _); [exact R|].
  destruct (_ =? 0); cbn [snd]; [|exact R].
  eapply same_registers_trans; [exact R|]. chain.
Qed.

Lemma mm_free_registers (fuel : nat) (s s' : state) (ptr : Z) :
  mm_free fuel s ptr = Some s' -> same_registers s s'.
Proof.
  unfold mm_free. intros H. destruct (_ =? 0).
  - injection H as <-. repeat split.
  - pose proof (mm_coalesce_registers s (ptr - SIZE_T_SIZE)) as Hc.
    destruct (mm_coalesce s (ptr - SIZE_T_SIZE)) as [h s1]. cbn [snd] in Hc.
    destruct (add_to_list fuel s1 h) as [s2|] eqn:E; [|discriminate].
    injection H as <-.
    eapply same_registers_trans; [exact Hc|]. chain.
Qed.

(** X14.  mm_free never moves the break: a released block is never
    given back to the provider, and the bucket array stays where it is. *)
Theorem mm_free_keeps_the_registers :
  forall (fuel : nat) (s s' : state) (ptr : Z),
    mm_free fuel s ptr = Some s' ->
    mem_brk s' = mem_brk s /\ mem_start_brk s' = mem_start_brk s
    /\ mem_max_addr s' = mem_max_addr s /\ free_seglist s' = free_seglist s.
Proof.
  intros fuel s s' ptr H.
  destruct (mm_free_registers fuel s s' ptr H) as (?&?&?&?). repeat split; assumption.
Qed.

Lemma mm_free_keeps_the_registers_witness :
  mem_brk (or_else (mm_free FUEL after_first_allocation (LO + 208)) boot)
  = mem_brk after_first_allocation
  /\ mem_start_brk (or_else (mm_free FUEL after_first_allocation (LO + 208)) boot)
     = mem_start_brk after_first_allocation
  /\ mem_max_addr (or_else (mm_free FUEL after_first_allocation (LO + 208)) boot)
     = mem_max_addr after_first_allocation
  /\ free_seglist (or_else (mm_free FUEL after_first_allocation (LO + 208)) boot)
     = free_seglist after_first_allocation.
Proof.
  apply (mm_free_keeps_the_registers FUEL after_first_allocation _ (LO + 208)).
  apply or_else_some. vm_compute. reflexivity.
Defined.

Lemma same_grown (s s' : state) : same_registers s s' -> grown s s'.
Proof. unfold same_registers, grown. intros (?&?&?&?). repeat split; try assumption. lia. Qed.

Lemma grown_trans (s1 s2 s3 : state) : grown s1 s2 -> grown s2 s3 -> grown s1 s3.
Proof. unfold grown. intros (?&?&?&?) (?&?&?&?). repeat split; try congruence. lia. Qed.

Lemma mem_sbrk_grown (s : state) (incr : Z) : grown s (snd (mem_sbrk s incr)).
Proof.
  unfold mem_sbrk. destruct (Z.ltb_spec incr 0); cbn [orb snd].
  - repeat split. lia.
  - destruct (_ <? _); cbn [snd]; repeat split; cbn; lia.
Qed.

Lemma mm_malloc_grown (fuel : nat) (s : state) (size : Z) (r : Z) (s' : state) :
  mm_malloc fuel s size = Some (r, s') -> grown s s'.
Proof.
  unfold mm_malloc. intros H.
  destruct (size =? 0); [injection H as _ <-; apply same_grown, same_registers_refl|].
  destruct (get_optimal_free_block fuel s _) as [p|]; [|discriminate].
  destruct (negb (p =? NULL)).
  - destruct (_ <=? _).
    + destruct (add_to_list fuel _ _) as [s4|] eqn:E; [|discriminate].
      injection H as _ <-. apply same_grown. chain.
    + injection H as _ <-. apply same_grown. chain.
  - destruct (_ && _).
    + destruct (_ <? _).
      * injection H as _ <-.
        match goal with
        | |- context [mem_sbrk s ?i] =>
            apply (grown_trans _ (snd (mem_sbrk s i))); [apply mem_sbrk_grown|]
        end.
        apply same_grown. chain.
      * pose proof (mem_sbrk_grown s (int (GETSIZE (Z.lor (adjusted_size size) 1)))) as G.
        destruct (mem_sbrk s _) as [p' s1]. cbn [snd] in G.
        destruct (p' =? NULL); injection H as _ <-; [exact G|].
        eapply grown_trans; [exact G|]. apply same_grown. chain.
    + destruct (_ <? _).
      * pose proof (mem_sbrk_grown s (int (GETSIZE (Z.lor (adjusted_size size) 1)))) as G.
        destruct (mem_sbrk s _) as [p' s1]. cbn [snd] in G.
        destruct (p' =? NULL); injection H as _ <-; [exact G|].
        eapply grown_trans; [exact G|]. apply same_grown. chain.
      * pose proof (mem_sbrk_grown s
                      (int (int (GETSIZE (Z.lor (adjusted_size size) 1)) * 2))) as G.
        destruct (mem_sbrk s _) as [p' s1]. cbn [snd] in G.
        destruct (p' =? NULL); [injection H as _ <-; exact G|].
        destruct (add_to_list fuel _ _) as [s4|] eqn:E; [|discriminate].
        injection H as _ <-.
        eapply grown_trans; [exact G|]. apply same_grown. chain.
Qed.

(** X15.  mm_malloc never lowers the break and never moves the bucket
    array, the base or the limit of the provider, whichever branch it
    takes and whether or not the provider grants the extension. *)
Theorem mm_malloc_never_shrinks_the_heap :
  forall (fuel : nat) (s s' : state) (size r : Z),
    mm_malloc fuel s size = Some (r, s') ->
    mem_brk s <= mem_brk s' /\ mem_start_brk s' = mem_start_brk s
    /\ mem_max_addr s' = mem_max_addr s /\ free_seglist s' = free_seglist s.
Proof.
  intros fuel s s' size r H.
  destruct (mm_malloc_grown fuel s size r s' H) as (?&?&?&?). repeat split; assumption.
Qed.

Lemma mm_malloc_never_shrinks_the_heap_witness :
  mem_brk after_two_allocations
  <= mem_brk (snd (or_else (mm_malloc FUEL after_two_allocations 100) (NULL, boot)))
  /\ mem_start_brk (snd (or_else (mm_malloc FUEL after_two_allocations 100) (NULL, boot)))
     = mem_start_brk after_two_allocations
  /\ mem_max_addr (snd (or_else (mm_malloc FUEL after_two_allocations 100) (NULL, boot)))
     = mem_max_addr after_two_allocations
  /\ free_seglist (snd (or_else (mm_malloc FUEL after_two_allocations 100) (NULL, boot)))
     = free_seglist after_two_allocations.
Proof.
  apply (mm_malloc_never_shrinks_the_heap FUEL after_two_allocations _ 100
           (fst (or_else (mm_malloc FUEL after_two_allocations 100) (NULL, boot)))).
  apply or_else_pair. vm_compute. reflexivity.
Defined.

Lemma realloc_last_grown (s : state) (ptr newsize current_size header prev_footer : Z)
                         (e : bool) :
  grown s (snd (realloc_last s ptr newsize current_size header prev_footer e)).
Proof.
  unfold realloc_last.
  destruct (e && _).
  - match goal with
    | |- context [mem_sbrk ?s1 ?i] =>
        pose proof (mem_sbrk_grown s1 i) as G; destruct (mem_sbrk s1 i) as [r s2]
    end.
    cbn [snd] in G.
    assert (G' : grown s s2).
    { eapply grown_trans; [|exact G]. apply same_grown. chain. }
    destruct (r =? NULL); cbn [snd]; [exact G'|].
    eapply grown_trans; [exact G'|]. apply same_grown. chain.
  - match goal with
    | |- context [mem_sbrk ?s1 ?i] =>
        pose proof (mem_sbrk_grown s1 i) as G; destruct (mem_sbrk s1 i) as [r s2]
    end.
    cbn [snd] in G.
    destruct (r =? NULL); cbn [snd]; [exact G|].
    eapply grown_trans; [exact G|]. apply same_grown. chain.
Qed.

Lemma mm_realloc_grown (fuel : nat) (s : state) (ptr newsize r : Z) (s' : state) :
  mm_realloc fuel s ptr newsize = Some (r, s') -> grown s s'.
Proof.
  unfold mm_realloc. cbv zeta. intros H.
  destruct (_ <? _).
  - destruct (_ && _ && _ && _ && _).
    { unfold realloc_sandwich in H. cbv zeta in H. destruct (_ <? _).
      - injection H as _ <-. apply same_grown. chain.
      - destruct (add_to_list fuel _ _) as [s6|] eqn:E; [|discriminate].
        injection H as _ <-. apply same_grown. chain. }
    destruct (_ && _ && _).
    { unfold realloc_next in H. cbv zeta in H. destruct (_ <? _).
      - injection H as _ <-. apply same_grown. chain.
      - destruct (add_to_list fuel _ _) as [s3|] eqn:E; [|discriminate].
        destruct (negb _); injection H as _ <-; apply same_grown;
          [eapply same_registers_trans; [|apply mm_coalesce_registers]|]; chain. }
    destruct (_ && _ && _).
    { unfold realloc_prev in H. cbv zeta in H. destruct (_ <? _).
      - injection H as _ <-. apply same_grown. chain.
      - destruct (add_to_list fuel _ _) as [s5|] eqn:E; [|discriminate].
        injection H as _ <-. apply same_grown. chain. }
    destruct (negb _).
    { injection H as H. rewrite (surjective_pairing (realloc_last _ _ _ _ _ _ _)) in H.
      injection H as _ <-. apply realloc_last_grown. }
    destruct (mm_malloc fuel s _) as [[newptr s1]|] eqn:Em; [|discriminate].
    destruct (mm_free fuel _ ptr) as [s3|] eqn:Ef; [|discriminate].
    injection H as _ <-.
    eapply grown_trans; [eapply mm_malloc_grown; exact Em|].
    apply same_grown. eapply same_registers_trans; [apply do_memmove_registers|].
    eapply mm_free_registers. exact Ef.
  - unfold realloc_shrink in H. destruct (_ <? _).
    + cbv zeta in H. destruct (add_to_list fuel _ _) as [s4|] eqn:E; [|discriminate].
      injection H as _ <-. apply same_grown.
      eapply same_registers_trans; [|apply mm_coalesce_registers]. chain.
    + injection H as _ <-. apply same_grown. chain.
Qed.

(** X16.  mm_realloc never lowers the break either: a shrinking
    reallocate, too, keeps the bytes it frees inside the heap. *)
Theorem mm_realloc_never_shrinks_the_heap :
  forall (fuel : nat) (s s' : state) (ptr newsize r : Z),
    mm_realloc fuel s ptr newsize = Some (r, s') ->
    mem_brk s <= mem_brk s' /\ mem_start_brk s' = mem_start_brk s
    /\ mem_max_addr s' = mem_max_addr s /\ free_seglist s' = free_seglist s.
Proof.
  intros fuel s s' ptr newsize r H.
  destruct (mm_realloc_grown fuel s ptr newsize r s' H) as (?&?&?&?).
  repeat split; assumption.
Qed.

(** The only block of the heap is grown from 32 to 120 bytes. *)
Lemma mm_realloc_never_shrinks_the_heap_witness :
  mem_brk after_first_allocation
  <= mem_brk (snd (or_else (mm_realloc FUEL after_first_allocation (LO + 208) 100)
                           (NULL, boot)))
  /\ mem_start_brk (snd (or_else (mm_realloc FUEL after_first_allocation (LO + 208) 100)
                                 (NULL, boot)))
     = mem_start_brk after_first_allocation
  /\ mem_max_addr (snd (or_else (mm_realloc FUEL after_first_allocation (LO + 208) 100)
                                (NULL, boot)))
     = mem_max_addr after_first_allocation
  /\ free_seglist (snd (or_else (mm_realloc FUEL after_first_allocation (LO + 208) 100)
                                (NULL, boot)))
     = free_seglist after_first_allocation.
Proof.
  apply (mm_realloc_never_shrinks_the_heap FUEL after_first_allocation _ (LO + 208) 100
           (fst (or_else (mm_realloc FUEL after_first_allocation (LO + 208) 100)
                         (NULL, boot)))).
  apply or_else_pair. vm_compute. reflexivity.
Defined.

(** ** mm_init *)

Lemma mm_init_loop_writes_the_array_only (n : nat) :
  forall (i : Z) (s : state) (a : Z),
    (forall j, i <= j < MAXPOW -> a + 8 <= seglist_slot s j \/ seglist_slot s j + 8 <= a) ->
    rd (mm_init_loop n i s) a = rd s a.
Proof.
  induction n as [|n IH]; intros i s a H; [reflexivity|].
  cbn [mm_init_loop]. destruct (Z.ltb_spec i MAXPOW); [|reflexivity].
  rewrite IH.
  - apply rd_wr_other. apply H. lia.
  - intros j Hj. apply (H j). lia.
Qed.

Lemma mm_init_spec (s : state) :
  mem_start_brk s <> NULL ->
  fst (mm_init s) = 1
  /\ free_seglist (snd (mm_init s)) = mem_start_brk s
  /\ mem_start_brk (snd (mm_init s)) = mem_start_brk s
  /\ mem_max_addr (snd (mm_init s)) = mem_max_addr s
  /\ mem_brk (snd (mm_init s))
     = (if mem_max_addr s <? mem_brk s + 200 then mem_brk s else mem_brk s + 200)
  /\ (forall j, 0 <= j < MAXPOW ->
        rd (snd (mm_init s)) (mem_start_brk s + j * sizeof_ptr) = NULL)
  /\ (forall a, a + 8 <= mem_start_brk s \/ mem_start_brk s + 200 <= a ->
        rd (snd (mm_init s)) a = rd s a).
Proof.
  intros Hlo. unfold mm_init. cbv zeta.
  change (int (ALIGN (MAXPOW * sizeof_ptr))) with 200.
  set (s1 := snd (mem_sbrk s 200)).
  assert (R1 : mem_start_brk s1 = mem_start_brk s /\ mem_max_addr s1 = mem_max_addr s
               /\ heap s1 = heap s
               /\ mem_brk s1 = if mem_max_addr s <? mem_brk s + 200
                               then mem_brk s else mem_brk s + 200).
  { unfold s1, mem_sbrk. change (200 <? 0) with false. cbn [orb].
    destruct (_ <? _); repeat split. }
  destruct R1 as (Rs & Rm & Rh & Rb).
  set (s2 := set_free_seglist s1 (mem_heap_lo s1)).
  assert (Hf : free_seglist s2 = mem_start_brk s) by exact Rs.
  destruct (Z.eqb_spec (free_seglist s2) NULL) as [E|_]; [congruence|].
  cbn [fst snd].
  destruct (mm_init_loop_regs (Z.to_nat MAXPOW) 0 s2) as (Lb & Ls & Lm & Lf & _).
  split; [reflexivity|]. split; [now rewrite Lf|]. split; [now rewrite Ls|].
  split; [now rewrite Lm|]. split; [rewrite Lb; exact Rb|]. split.
  - intros j Hj. rewrite <- Hf. apply (mm_init_loop_zero (Z.to_nat MAXPOW) 0 s2 j).
    + change (Z.of_nat (Z.to_nat MAXPOW)) with MAXPOW. lia.
    + lia.
  - intros a Ha. rewrite mm_init_loop_writes_the_array_only.
    + unfold rd, s2. cbn [heap set_free_seglist]. now rewrite Rh.
    + intros j Hj. unfold seglist_slot, sizeof_ptr. rewrite Hf.
      unfold MAXPOW in Hj. lia.
Qed.

(** X17.  mm_init on a provider whose base is not NULL: the bucket
    array is the first 200 bytes of the region, every one of its 25
    heads is NULL afterwards, and no other word of the store is written.
    The break moves up by 200 bytes when the provider has the room; when
    it has not, the break stays and the heads are written all the same,
    beyond it. *)
Theorem mm_init_resets_the_index :
  forall s : state,
    mem_start_brk s <> NULL ->
    fst (mm_init s) = 1
    /\ free_seglist (snd (mm_init s)) = mem_start_brk s
    /\ mem_start_brk (snd (mm_init s)) = mem_start_brk s
    /\ mem_max_addr (snd (mm_init s)) = mem_max_addr s
    /\ mem_brk (snd (mm_init s))
       = (if mem_max_addr s <? mem_brk s + 200 then mem_brk s else mem_brk s + 200)
    /\ (forall j, 0 <= j < MAXPOW ->
          rd (snd (mm_init s)) (mem_start_brk s + j * sizeof_ptr) = NULL)
    /\ (forall a, a + 8 <= mem_start_brk s \/ mem_start_brk s + 200 <= a ->
          rd (snd (mm_init s)) a = rd s a).
Proof. exact mm_init_spec. Qed.

Lemma mm_init_resets_the_index_witness :
  fst (mm_init boot) = 1
  /\ free_seglist (snd (mm_init boot)) = mem_start_brk boot
  /\ mem_start_brk (snd (mm_init boot)) = mem_start_brk boot
  /\ mem_max_addr (snd (mm_init boot)) = mem_max_addr boot
  /\ mem_brk (snd (mm_init boot))
     = (if mem_max_addr boot <? mem_brk boot + 200 then mem_brk boot else mem_brk boot + 200)
  /\ (forall j, 0 <= j < MAXPOW ->
        rd (snd (mm_init boot)) (mem_start_brk boot + j * sizeof_ptr) = NULL)
  /\ (forall a, a + 8 <= mem_start_brk boot \/ mem_start_brk boot + 200 <= a ->
        rd (snd (mm_init boot)) a = rd boot a).
Proof. apply (mm_init_resets_the_index boot). vm_compute. discriminate. Defined.

(** ** mm_malloc *)

Lemma int_range (x : Z) : - 2 ^ 31 <= int x < 2 ^ 31.
Proof. unfold int. pose proof (Z.mod_pos_bound (x + 2 ^ 31) (2 ^ 32) ltac:(lia)). lia. Qed.

Lemma int_even (x : Z) : x mod 2 = 0 -> int x mod 2 = 0.
Proof.
  intros H. unfold int.
  pose proof (Z.div_mod x 2 ltac:(lia)) as Hx. rewrite H in Hx.
  pose proof (Z.div_mod (x + 2 ^ 31) (2 ^ 32) ltac:(lia)) as Hd.
  set (q := (x + 2 ^ 31) / 2 ^ 32) in *.
  replace ((x + 2 ^ 31) mod 2 ^ 32 - 2 ^ 31) with ((x / 2 - 2 ^ 31 * q) * 2) by lia.
  apply Z.mod_mul. lia.
Qed.

Lemma GETSIZE_is_even (h : Z) : GETSIZE h mod 2 = 0.
Proof. unfold GETSIZE. rewrite land_minus_2, Z.mul_comm. apply Z.mod_mul. lia. Qed.

Lemma GETSIZE_range (h : Z) : 0 <= h < 2 ^ 64 -> 0 <= GETSIZE h <= h.
Proof.
  intros H. unfold GETSIZE. rewrite land_minus_2.
  pose proof (Z.div_mod h 2 ltac:(lia)). pose proof (Z.mod_pos_bound h 2 ltac:(lia)). lia.
Qed.

Lemma need_even (size : Z) : adjusted_size size mod 2 = 0.
Proof.
  destruct (adjusted_size_bounds size) as [_ Hmod].
  pose proof (Z.div_mod (adjusted_size size) 8 ltac:(lia)) as Hd. rewrite Hmod in Hd.
  replace (adjusted_size size) with (adjusted_size size / 8 * 4 * 2) by lia.
  apply Z.mod_mul. lia.
Qed.

(** What write_tags leaves at a block: the tags read back. *)
Lemma tagged_block (s : state) (p size : Z) :
  16 <= size < 2 ^ 64 - 1 -> size mod 2 = 0 ->
  header_flag (write_tags s p (Z.lor size 1)) p = 1
  /\ footer_flag (write_tags s p (Z.lor size 1)) p = 1
  /\ block_size (write_tags s p (Z.lor size 1)) p = size
  /\ footer_size (write_tags s p (Z.lor size 1)) p = size.
Proof.
  intros Hs He.
  assert (Hl : Z.lor size 1 = size + 1) by now apply lor_1_even.
  assert (Hg : GETSIZE (Z.lor size 1) = size) by now apply GETSIZE_tagged.
  assert (Hd : GETDIRTYBIT (Z.lor size 1) = 1) by now apply GETDIRTYBIT_tagged.
  destruct (write_tags_header s p (Z.lor size 1)) as (Hh & Hf & Hfa); [lia | lia |].
  unfold header_flag, footer_flag, block_size, footer_size.
  rewrite Hfa, Hh, Hf, Hg, Hd. repeat split.
Qed.

(** write_tags writes the header and the footer and nothing else. *)
Lemma write_tags_frame (s : state) (p v a : Z) :
  0 <= v < 2 ^ 64 ->
  a + 8 <= p \/ p + 8 <= a ->
  a + 16 <= p + GETSIZE v \/ p + GETSIZE v <= a ->
  rd (write_tags s p v) a = rd s a.
Proof.
  intros Hv H1 H2. unfold write_tags, GETFOOTER. cbv zeta.
  rewrite (rd_wr_same s p v Hv). change SIZE_T_SIZE with 8.
  rewrite !rd_wr_other by lia. reflexivity.
Qed.

Lemma mm_malloc_tags (fuel : nat) (s s' : state) (size r : Z) :
  0 < size < 2 ^ 31 - 24 ->
  mm_malloc fuel s size = Some (r, s') ->
  r <> NULL ->
  header_flag s' (r - SIZE_T_SIZE) = 1
  /\ footer_flag s' (r - SIZE_T_SIZE) = 1
  /\ footer_size s' (r - SIZE_T_SIZE) = block_size s' (r - SIZE_T_SIZE)
  /\ adjusted_size size <= block_size s' (r - SIZE_T_SIZE) < adjusted_size size + 32.
Proof.
  intros Hsize H Hr.
  destruct (adjusted_size_bounds size) as [[Hlo Hhi] Hmod].
  pose proof (adjusted_size_covers size ltac:(lia)) as Hup.
  pose proof (need_even size) as Heven.
  set (need := adjusted_size size) in *.
  assert (Hgoal : forall sx p sz,
             need <= sz < need + 32 -> sz mod 2 = 0 ->
             let s' := write_tags sx p (Z.lor sz 1) in
             let b := p + SIZE_T_SIZE - SIZE_T_SIZE in
             header_flag s' b = 1
             /\ footer_flag s' b = 1
             /\ footer_size s' b = block_size s' b
             /\ need <= block_size s' b < need + 32).
  { intros sx p sz Hsz Hze. cbv zeta.
    replace (p + SIZE_T_SIZE - SIZE_T_SIZE) with p by lia.
    destruct (tagged_block sx p sz) as (A & B & C & D); [lia | exact Hze |].
    rewrite A, B, C, D.
    split; [reflexivity|]. split; [reflexivity|]. split; [reflexivity|]. lia. }
  unfold mm_malloc in H. fold need in H.
  destruct (Z.eqb_spec size 0); [lia|].
  destruct (get_optimal_free_block fuel s need) as [p|]; [|discriminate].
  destruct (negb (p =? NULL)).
  - set (old_size := int (GETSIZE (rd (remove_link s p) p))) in *.
    change (ALIGN (4 * SIZE_T_SIZE)) with 32 in H.
    destruct (Z.leb_spec 32 (size_t (old_size - need))) as [Hbig|Hsmall].
    + destruct (add_to_list fuel _ _) as [s4|]; [|discriminate].
      injection H as <- <-. apply Hgoal; [lia | exact Heven].
    + injection H as <- <-.
      pose proof (int_range (GETSIZE (rd (remove_link s p) p))) as Hir.
      fold old_size in Hir.
      assert (Hoe : old_size mod 2 = 0) by (apply int_even, GETSIZE_is_even).
      assert (Hos : need <= old_size < need + 32).
      { unfold size_t in Hsmall.
        destruct (Z_lt_le_dec (old_size - need) 0) as [Hneg|Hpos].
        - replace ((old_size - need) mod 2 ^ 64) with (old_size - need + 2 ^ 64) in Hsmall
            by (apply (Z.mod_unique (old_size - need) (2 ^ 64) (-1)); lia).
          lia.
        - rewrite Z.mod_small in Hsmall by lia. lia. }
      assert (Hl : Z.lor old_size 1 = old_size + 1) by now apply lor_1_even.
      rewrite (size_t_small (Z.lor old_size 1)) by lia.
      apply Hgoal; [exact Hos | exact Hoe].
  - assert (Hgs : GETSIZE (Z.lor need 1) = need) by now apply GETSIZE_tagged.
    rewrite Hgs in H.
    destruct (_ && _).
    + destruct (_ <? _).
      * injection H as <- <-. apply Hgoal; [lia | exact Heven].
      * destruct (mem_sbrk s _) as [p' s1].
        destruct (Z.eqb_spec p' NULL); injection H as <- <-; [contradiction|].
        apply Hgoal; [lia | exact Heven].
    + destruct (_ <? _).
      * destruct (mem_sbrk s _) as [p' s1].
        destruct (Z.eqb_spec p' NULL); injection H as <- <-; [contradiction|].
        apply Hgoal; [lia | exact Heven].
      * destruct (mem_sbrk s _) as [p' s1].
        destruct (Z.eqb_spec p' NULL); [injection H as <- <-; contradiction|].
        destruct (add_to_list fuel _ _) as [s4|]; [|discriminate].
        injection H as <- <-. apply Hgoal; [lia | exact Heven].
Qed.

(** X18.  Whatever branch mm_malloc takes, the block behind a pointer it
    returns is tagged allocated in its header and in its footer, the two
    tags agree, and its size is the adjusted size of the request or less
    than 32 bytes more, when a free block was taken whole: the payload
    holds the [size] bytes asked for.  Requests are below 2^31, the
    range of the [int] in which mm_malloc computes. *)
Theorem mm_malloc_returns_a_tagged_block :
  forall (fuel : nat) (s s' : state) (size r : Z),
    0 < size < 2 ^ 31 - 24 ->
    mm_malloc fuel s size = Some (r, s') ->
    r <> NULL ->
    header_flag s' (r - SIZE_T_SIZE) = 1
    /\ footer_flag s' (r - SIZE_T_SIZE) = 1
    /\ footer_size s' (r - SIZE_T_SIZE) = block_size s' (r - SIZE_T_SIZE)
    /\ adjusted_size size <= block_size s' (r - SIZE_T_SIZE) < adjusted_size size + 32
    /\ size + 2 * SIZE_T_SIZE <= block_size s' (r - SIZE_T_SIZE).
Proof.
  intros fuel s s' size r Hsize H Hr.
  destruct (mm_malloc_tags fuel s s' size r Hsize H Hr) as (A & B & C & D).
  pose proof (adjusted_size_covers size ltac:(lia)) as Hup.
  change (2 * SIZE_T_SIZE) with 16.
  split; [exact A|]. split; [exact B|]. split; [exact C|]. split; [exact D | lia].
Qed.

(** The block released by [after_free_one] is allocated again. *)
Lemma mm_malloc_returns_a_tagged_block_witness :
  header_flag (snd (or_else (mm_malloc FUEL (snd after_free_one) 16) (NULL, boot)))
              (fst (or_else (mm_malloc FUEL (snd after_free_one) 16) (NULL, boot))
               - SIZE_T_SIZE) = 1
  /\ footer_flag (snd (or_else (mm_malloc FUEL (snd after_free_one) 16) (NULL, boot)))
                 (fst (or_else (mm_malloc FUEL (snd after_free_one) 16) (NULL, boot))
                  - SIZE_T_SIZE) = 1
  /\ footer_size (snd (or_else (mm_malloc FUEL (snd after_free_one) 16) (NULL, boot)))
                 (fst (or_else (mm_malloc FUEL (snd after_free_one) 16) (NULL, boot))
                  - SIZE_T_SIZE)
     = block_size (snd (or_else (mm_malloc FUEL (snd after_free_one) 16) (NULL, boot)))
                  (fst (or_else (mm_malloc FUEL (snd after_free_one) 16) (NULL, boot))
                   - SIZE_T_SIZE)
  /\ adjusted_size 16
     <= block_size (snd (or_else (mm_malloc FUEL (snd after_free_one) 16) (NULL, boot)))
                   (fst (or_else (mm_malloc FUEL (snd after_free_one) 16) (NULL, boot))
                    - SIZE_T_SIZE)
     < adjusted_size 16 + 32
  /\ 16 + 2 * SIZE_T_SIZE
     <= block_size (snd (or_else (mm_malloc FUEL (snd after_free_one) 16) (NULL, boot)))
                   (fst (or_else (mm_malloc FUEL (snd after_free_one) 16) (NULL, boot))
                    - SIZE_T_SIZE).
Proof.
  apply (mm_malloc_returns_a_tagged_block FUEL (snd after_free_one)).
  - lia.
  - apply or_else_pair. vm_compute. reflexivity.
  - vm_compute. discriminate.
Defined.

(** X19.  When the search finds a candidate, mm_malloc returns the
    payload of that candidate and leaves the break where it is: a
    request that a linked free block can hold never grows the heap.
    When the candidate is taken whole the call returns whatever the
    buckets hold; when at least 32 bytes are split off, it returns as
    soon as the links of the bucket that receives the remainder reach
    NULL within the fuel. *)
Theorem mm_malloc_reuses_the_candidate :
  forall (fuel : nat) (s : state) (size p : Z),
    let need := adjusted_size size in
    let s1 := remove_link s p in
    let old_size := int (GETSIZE (rd s1 p)) in
    let leftover := p + need in
    let s3 := write_tags s1 leftover (size_t (old_size - need)) in
    size <> 0 ->
    get_optimal_free_block fuel s need = Some p ->
    p <> NULL ->
    (ALIGN (4 * SIZE_T_SIZE) <= size_t (old_size - need) ->
     receiving_bucket fuel s3 leftover <> None) ->
    exists s',
      mm_malloc fuel s size = Some (p + SIZE_T_SIZE, s')
      /\ mem_brk s' = mem_brk s
      /\ need <= block_size s p.
Proof.
  intros fuel s size p need s1 old_size leftover s3 Hsize Hfit Hp Hlist.
  pose proof (get_optimal_outer_fits _ _ _ _ _ _ Hfit Hp) as Hbig.
  unfold mm_malloc. fold need.
  destruct (Z.eqb_spec size 0); [contradiction|].
  rewrite Hfit. destruct (Z.eqb_spec p NULL); [contradiction|]. cbn [negb]. cbv zeta.
  fold s1. fold old_size. fold leftover. fold s3.
  destruct (Z.leb_spec (ALIGN (4 * SIZE_T_SIZE)) (size_t (old_size - need))) as [Hsplit|_].
  - destruct (add_to_list_total fuel s3 leftover (Hlist Hsplit)) as [s4 E]. rewrite E.
    eexists. split; [reflexivity|]. split; [|exact Hbig].
    assert (R : same_registers s (write_tags s4 p (Z.lor need 1))) by (unfold s3, s1 in E; chain).
    apply R.
  - eexists. split; [reflexivity|]. split; [|exact Hbig].
    assert (R : same_registers s (write_tags s1 p (size_t (Z.lor old_size 1))))
      by (unfold s1; chain).
    apply R.
Qed.

(** A request for 1000 bytes when the heap is one free block of 2032
    bytes: the block is split and its second half joins bucket 4. *)
Lemma mm_malloc_reuses_the_candidate_witness :
  ALIGN (4 * SIZE_T_SIZE) <= block_size after_two_frees (LO + 200) - adjusted_size 1000
  /\ exists s',
      mm_malloc FUEL after_two_frees 1000 = Some (LO + 200 + SIZE_T_SIZE, s')
      /\ mem_brk s' = mem_brk after_two_frees
      /\ adjusted_size 1000 <= block_size after_two_frees (LO + 200).
Proof.
  split; [vm_compute; discriminate|].
  apply (mm_malloc_reuses_the_candidate FUEL after_two_frees 1000 (LO + 200)).
  - discriminate.
  - vm_compute. reflexivity.
  - vm_compute. discriminate.
  - intros _. apply is_some_not_none. vm_compute. reflexivity.
Defined.

(** The branches of mm_malloc that extend the heap by the adjusted size
    and tag the new bytes. *)
Lemma extend_by_need (s : state) (need : Z) :
  32 <= need < 2 ^ 31 -> need mod 2 = 0 ->
  mem_brk s <> NULL ->
  mem_brk s + need <= mem_max_addr s ->
  exists s',
    (let (p, s1) := mem_sbrk s (int (GETSIZE (Z.lor need 1))) in
     if p =? NULL then Some (NULL, s1)
     else Some (p + SIZE_T_SIZE, write_tags s1 p (Z.lor need 1)))
    = Some (mem_brk s + SIZE_T_SIZE, s')
    /\ mem_brk s' = mem_brk s + need
    /\ (block_size s' (mem_brk s) = need /\ header_flag s' (mem_brk s) = 1
        /\ footer_size s' (mem_brk s) = need /\ footer_flag s' (mem_brk s) = 1)
    /\ (forall a, a + 8 <= mem_brk s -> rd s' a = rd s a).
Proof.
  intros Hn Heven Hp Hroom.
  assert (Hgs : GETSIZE (Z.lor need 1) = need) by now apply GETSIZE_tagged.
  assert (Hl1 : Z.lor need 1 = need + 1) by now apply lor_1_even.
  rewrite Hgs, (int_small need) by lia.
  unfold mem_sbrk.
  replace ((need <? 0) || (mem_max_addr s <? mem_brk s + need)) with false.
  2:{ symmetry. apply orb_false_intro; apply Z.ltb_ge; lia. }
  destruct (Z.eqb_spec (mem_brk s) NULL); [contradiction|].
  eexists. split; [reflexivity|]. split; [reflexivity|]. split.
  - destruct (tagged_block (set_brk s (mem_brk s + need)) (mem_brk s) need)
      as (A & B & C & D); [lia | exact Heven |].
    repeat split; assumption.
  - intros a Ha. rewrite write_tags_frame; [reflexivity | lia | lia |]. rewrite Hgs. lia.
Qed.

(** The doubling branch.  The last block is allocated, or the heap is
    empty, no candidate fits, the adjusted size [need] is at most 50
    words, the bucket of [need] is empty and lies below the break:
    mm_malloc extends the heap by [2 * need]; the first half is the block
    it returns, tagged allocated, and the second half is a free block of
    size [need] that heads the bucket of [need], with no neighbour, in
    the state the call leaves. *)
Lemma mm_malloc_doubles_a_small_extension :
  forall (fuel : nat) (s : state) (size : Z),
    let need := adjusted_size size in
    let p := mem_brk s in
    let spare := p + need in
    let slot := seglist_slot s (seglist_index need) in
    size <> 0 ->
    get_optimal_free_block fuel s need = Some NULL ->
    mem_heapsize s = 0 \/ GETDIRTYBIT (rd s (mem_heap_hi s - (SIZE_T_SIZE - 1))) = 1 ->
    need <= 50 * SIZE_T_SIZE ->
    p + 2 * need <= mem_max_addr s ->
    free_seglist s + MAXPOW * sizeof_ptr <= p ->
    0 < p -> p + 2 * need < 2 ^ 64 ->
    rd s slot = NULL ->
    exists s',
      mm_malloc fuel s size = Some (p + SIZE_T_SIZE, s')
      /\ mem_brk s' = p + 2 * need
      /\ (block_size s' p = need /\ header_flag s' p = 1
          /\ footer_size s' p = need /\ footer_flag s' p = 1)
      /\ (block_size s' spare = need /\ header_flag s' spare = 0
          /\ footer_size s' spare = need /\ footer_flag s' spare = 0)
      /\ rd s' slot = spare
      /\ GETNEXTFREE s' spare = NULL /\ GETPREVFREE s' spare = NULL.
Proof.
  intros fuel s size need p spare slot Hsize Hfit Hlast Hsmall Hroom Hlay Hp Htop Hempty.
  destruct (adjusted_size_bounds size) as [[Hlo _] _]. fold need in Hlo.
  pose proof (need_even size) as Heven. fold need in Heven.
  change (50 * SIZE_T_SIZE) with 400 in Hsmall.
  assert (Hgs : GETSIZE (Z.lor need 1) = need) by now apply GETSIZE_tagged.
  assert (Hl1 : Z.lor need 1 = need + 1) by now apply lor_1_even.
  assert (Hge : GETSIZE need = need) by now apply GETSIZE_even.
  assert (Hde : GETDIRTYBIT need = 0) by (unfold GETDIRTYBIT; now rewrite land_1).
  pose proof (slot_below s _ p (seglist_index_range need) Hlay) as Hslot. fold slot in Hslot.
  set (s0 := set_brk s (p + 2 * need)).
  set (s3 := write_tags s0 spare need).
  destruct (write_tags_header s0 spare need) as (H3h & H3f & _); [lia | lia |].
  fold s3 in H3h, H3f. rewrite Hge in H3f. change SIZE_T_SIZE with 8 in H3f.
  assert (H3s : rd s3 slot = NULL).
  { unfold s3. rewrite write_tags_frame; [exact Hempty | lia | unfold spare; lia |].
    rewrite Hge. unfold spare. lia. }
  destruct (add_to_list_empty fuel s3 spare) as (s4 & E4 & H4s & H4n & H4p & H4h & _ & H4f).
  { rewrite H3h, Hge. exact H3s. }
  { unfold spare. lia. }
  { left. rewrite H3h, Hge. change (seglist_slot s3 (seglist_index need)) with slot.
    unfold spare. lia. }
  rewrite H3h, Hge in H4s, H4f.
  change (seglist_slot s3 (seglist_index need)) with slot in H4s, H4f.
  set (s' := write_tags s4 p (Z.lor need 1)).
  assert (Hfr : forall a, p + need <= a -> rd s' a = rd s4 a).
  { intros a Ha. unfold s'. rewrite write_tags_frame; [reflexivity | lia | lia |].
    rewrite Hgs. lia. }
  exists s'. split; [|split; [|split; [|split; [|split; [|split]]]]].
  - unfold mm_malloc. fold need.
    destruct (Z.eqb_spec size 0) as [|_]; [contradiction|].
    rewrite Hfit. change (NULL =? NULL) with true. cbn [negb].
    replace (negb (mem_heapsize s =? 0)
             && (GETDIRTYBIT (rd s (mem_heap_hi s - (SIZE_T_SIZE - 1))) =? 0)) with false.
    2:{ destruct Hlast as [H0 | H1]; [rewrite H0 | rewrite H1]; cbn; [reflexivity|].
        now rewrite andb_false_r. }
    rewrite Hgs.
    replace (50 * SIZE_T_SIZE <? need) with false
      by (symmetry; apply Z.ltb_ge; change (50 * SIZE_T_SIZE) with 400; lia).
    rewrite (int_small need), (int_small (need * 2)) by lia.
    unfold mem_sbrk. fold p.
    replace ((need * 2 <? 0) || (mem_max_addr s <? p + need * 2)) with false.
    2:{ symmetry. apply orb_false_intro; apply Z.ltb_ge; lia. }
    destruct (Z.eqb_spec p NULL) as [E|_]; [unfold NULL in E; lia|].
    change (Z.land (Z.lor need 1) (-2)) with (GETSIZE (Z.lor need 1)). rewrite Hgs.
    replace (p + need * 2) with (p + 2 * need) by lia.
    fold spare. fold s0. fold s3. rewrite E4. reflexivity.
  - destruct (add_to_list_registers fuel s3 s4 spare E4) as (Hb & _).
    unfold s', write_tags. cbn [mem_brk wr set_heap]. rewrite Hb. reflexivity.
  - destruct (tagged_block s4 p need) as (A & B & C & D); [lia | exact Heven |].
    repeat split; assumption.
  - assert (Hh : rd s' spare = need).
    { rewrite Hfr by (unfold spare; lia). rewrite H4h. exact H3h. }
    assert (Hf : rd s' (spare + need - 8) = need).
    { rewrite Hfr by (unfold spare; lia). rewrite H4f; [exact H3f | lia | lia]. }
    unfold block_size, header_flag, footer_size, footer_flag, GETFOOTER.
    rewrite Hh, Hge, Hde. change SIZE_T_SIZE with 8. rewrite Hf, Hge, Hde.
    repeat split.
  - unfold s'. rewrite write_tags_frame; [exact H4s | lia | lia |]. rewrite Hgs. lia.
  - unfold GETNEXTFREE, NEXTFREE_addr in *. change SIZE_T_SIZE with 8 in *.
    rewrite Hfr by (unfold spare; lia). exact H4n.
  - unfold GETPREVFREE, PREVFREE_addr in *. change SIZE_T_SIZE with 8 in *.
    rewrite Hfr by (unfold spare; lia). exact H4p.
Qed.

(** The second allocation of 16 bytes after init: the last block is
    allocated and every bucket is empty. *)
Lemma mm_malloc_doubles_on_the_second_allocation :
  exists s',
    mm_malloc FUEL after_first_allocation 16 = Some (LO + 232 + SIZE_T_SIZE, s')
    /\ mem_brk s' = LO + 232 + 2 * 32
    /\ (block_size s' (LO + 232) = 32 /\ header_flag s' (LO + 232) = 1
        /\ footer_size s' (LO + 232) = 32 /\ footer_flag s' (LO + 232) = 1)
    /\ (block_size s' (LO + 232 + 32) = 32 /\ header_flag s' (LO + 232 + 32) = 0
        /\ footer_size s' (LO + 232 + 32) = 32 /\ footer_flag s' (LO + 232 + 32) = 0)
    /\ rd s' (seglist_slot after_first_allocation 0) = LO + 232 + 32
    /\ GETNEXTFREE s' (LO + 232 + 32) = NULL /\ GETPREVFREE s' (LO + 232 + 32) = NULL.
Proof.
  apply (mm_malloc_doubles_a_small_extension FUEL after_first_allocation 16).
  - discriminate.
  - vm_compute. reflexivity.
  - right. vm_compute. reflexivity.
  - vm_compute. discriminate.
  - vm_compute. discriminate.
  - vm_compute. discriminate.
  - vm_compute. reflexivity.
  - vm_compute. reflexivity.
  - vm_compute. reflexivity.
Qed.

(** X20.  The last block is allocated, or the heap is empty, no
    candidate fits and the adjusted size [need] is above 50 words:
    mm_malloc extends the heap by exactly [need], the new bytes are the
    block it returns, and nothing below the old break is written. *)
Theorem mm_malloc_extends_by_a_large_need :
  forall (fuel : nat) (s : state) (size : Z),
    let need := adjusted_size size in
    let p := mem_brk s in
    size <> 0 ->
    p <> NULL ->
    get_optimal_free_block fuel s need = Some NULL ->
    mem_heapsize s = 0 \/ GETDIRTYBIT (rd s (mem_heap_hi s - (SIZE_T_SIZE - 1))) = 1 ->
    50 * SIZE_T_SIZE < need < 2 ^ 31 ->
    p + need <= mem_max_addr s ->
    exists s',
      mm_malloc fuel s size = Some (p + SIZE_T_SIZE, s')
      /\ mem_brk s' = p + need
      /\ (block_size s' p = need /\ header_flag s' p = 1
          /\ footer_size s' p = need /\ footer_flag s' p = 1)
      /\ (forall a, a + 8 <= p -> rd s' a = rd s a).
Proof.
  intros fuel s size need p Hsize Hp Hfit Hlast Hbig Hroom.
  change (50 * SIZE_T_SIZE) with 400 in Hbig.
  destruct (extend_by_need s need ltac:(lia) (need_even size) Hp Hroom) as (s' & E & Hrest).
  exists s'. split; [|exact Hrest].
  unfold mm_malloc. fold need.
  destruct (Z.eqb_spec size 0) as [|_]; [contradiction|].
  rewrite Hfit. change (NULL =? NULL) with true. cbn [negb].
  replace (negb (mem_heapsize s =? 0)
           && (GETDIRTYBIT (rd s (mem_heap_hi s - (SIZE_T_SIZE - 1))) =? 0)) with false.
  2:{ destruct Hlast as [H0 | H1]; [rewrite H0 | rewrite H1]; cbn; [reflexivity|].
      now rewrite andb_false_r. }
  replace (50 * SIZE_T_SIZE <? GETSIZE (Z.lor need 1)) with true.
  2:{ symmetry. apply Z.ltb_lt. rewrite (GETSIZE_tagged need (need_even size)).
      change (50 * SIZE_T_SIZE) with 400. lia. }
  exact E.
Qed.

(** A request for 1000 bytes behind the allocated block of
    [after_first_allocation]. *)
Lemma mm_malloc_extends_by_a_large_need_witness :
  exists s',
    mm_malloc FUEL after_first_allocation 1000
    = Some (mem_brk after_first_allocation + SIZE_T_SIZE, s')
    /\ mem_brk s' = mem_brk after_first_allocation + adjusted_size 1000
    /\ (block_size s' (mem_brk after_first_allocation) = adjusted_size 1000
        /\ header_flag s' (mem_brk after_first_allocation) = 1
        /\ footer_size s' (mem_brk after_first_allocation) = adjusted_size 1000
        /\ footer_flag s' (mem_brk after_first_allocation) = 1)
    /\ (forall a, a + 8 <= mem_brk after_first_allocation ->
                  rd s' a = rd after_first_allocation a).
Proof.
  apply (mm_malloc_extends_by_a_large_need FUEL after_first_allocation 1000).
  - discriminate.
  - vm_compute. discriminate.
  - vm_compute. reflexivity.
  - right. vm_compute. reflexivity.
  - vm_compute. split; reflexivity.
  - vm_compute. discriminate.
Defined.

(** X21.  The last block is free and of at most 50 words, and no
    candidate fits: mm_malloc leaves that block alone and extends the
    heap by exactly the adjusted size, whether or not it is above 50
    words; no spare block is reserved behind the new one. *)
Theorem mm_malloc_leaves_a_small_free_last_block :
  forall (fuel : nat) (s : state) (size : Z),
    let need := adjusted_size size in
    let p := mem_brk s in
    let last_footer := mem_heap_hi s - (SIZE_T_SIZE - 1) in
    size <> 0 ->
    p <> NULL ->
    get_optimal_free_block fuel s need = Some NULL ->
    mem_heapsize s <> 0 ->
    GETDIRTYBIT (rd s last_footer) = 0 ->
    GETSIZE (rd s last_footer) <= 50 * SIZE_T_SIZE ->
    need < 2 ^ 31 ->
    p + need <= mem_max_addr s ->
    exists s',
      mm_malloc fuel s size = Some (p + SIZE_T_SIZE, s')
      /\ mem_brk s' = p + need
      /\ (block_size s' p = need /\ header_flag s' p = 1
          /\ footer_size s' p = need /\ footer_flag s' p = 1)
      /\ (forall a, a + 8 <= p -> rd s' a = rd s a).
Proof.
  intros fuel s size need p last_footer Hsize Hp Hfit Hheap Hfree Hsmall Hneed Hroom.
  destruct (adjusted_size_bounds size) as [[Hlo _] _]. fold need in Hlo.
  destruct (extend_by_need s need ltac:(lia) (need_even size) Hp Hroom) as (s' & E & Hrest).
  exists s'. split; [|exact Hrest].
  unfold mm_malloc. fold need.
  destruct (Z.eqb_spec size 0) as [|_]; [contradiction|].
  rewrite Hfit. change (NULL =? NULL) with true. cbn [negb]. fold last_footer.
  rewrite Hfree. destruct (Z.eqb_spec (mem_heapsize s) 0); [contradiction|].
  cbn [negb andb Z.eqb].
  replace (50 * SIZE_T_SIZE <? GETSIZE (rd s last_footer)) with false
    by (symmetry; apply Z.ltb_ge; exact Hsmall).
  exact E.
Qed.

(** A request for 72 bytes when the heap ends with a free block of 32
    bytes. *)
Lemma mm_malloc_leaves_a_small_free_last_block_witness :
  exists s',
    mm_malloc FUEL after_two_allocations 72
    = Some (mem_brk after_two_allocations + SIZE_T_SIZE, s')
    /\ mem_brk s' = mem_brk after_two_allocations + adjusted_size 72
    /\ (block_size s' (mem_brk after_two_allocations) = adjusted_size 72
        /\ header_flag s' (mem_brk after_two_allocations) = 1
        /\ footer_size s' (mem_brk after_two_allocations) = adjusted_size 72
        /\ footer_flag s' (mem_brk after_two_allocations) = 1)
    /\ (forall a, a + 8 <= mem_brk after_two_allocations ->
                  rd s' a = rd after_two_allocations a).
Proof.
  apply (mm_malloc_leaves_a_small_free_last_block FUEL after_two_allocations 72).
  - discriminate.
  - vm_compute. discriminate.
  - vm_compute. reflexivity.
  - vm_compute. discriminate.
  - vm_compute. reflexivity.
  - vm_compute. discriminate.
  - vm_compute. reflexivity.
  - vm_compute. discriminate.
Defined.

(** X22.  The last block is free, of more than 50 words and of at most
    the adjusted size, and no candidate fits: mm_malloc extends the heap
    by the difference only and returns the last block, grown in place to
    the adjusted size, so that it ends at the new break. *)
Theorem mm_malloc_grows_a_large_free_last_block :
  forall (fuel : nat) (s : state) (size : Z),
    let need := adjusted_size size in
    let last_footer := mem_heap_hi s - (SIZE_T_SIZE - 1) in
    let last_size := GETSIZE (rd s last_footer) in
    let p := last_footer - last_size + SIZE_T_SIZE in
    size <> 0 ->
    get_optimal_free_block fuel s need = Some NULL ->
    mem_heapsize s <> 0 ->
    GETDIRTYBIT (rd s last_footer) = 0 ->
    50 * SIZE_T_SIZE < last_size <= need ->
    need < 2 ^ 31 ->
    mem_brk s + (need - last_size) <= mem_max_addr s ->
    exists s',
      mm_malloc fuel s size = Some (p + SIZE_T_SIZE, s')
      /\ mem_brk s' = mem_brk s + (need - last_size)
      /\ p + need = mem_brk s'
      /\ (block_size s' p = need /\ header_flag s' p = 1
          /\ footer_size s' p = need /\ footer_flag s' p = 1).
Proof.
  intros fuel s size need last_footer last_size p Hsize Hfit Hheap Hfree Hbig Hneed Hroom.
  destruct (adjusted_size_bounds size) as [[Hlo _] _]. fold need in Hlo.
  pose proof (need_even size) as Heven. fold need in Heven.
  assert (Hgs : GETSIZE (Z.lor need 1) = need) by now apply GETSIZE_tagged.
  change (50 * SIZE_T_SIZE) with 400 in Hbig.
  assert (Hs : mem_sbrk s (int (size_t (int (GETSIZE (Z.lor need 1)) - last_size)))
               = (mem_brk s, set_brk s (mem_brk s + (need - last_size)))).
  { rewrite Hgs, (int_small need), (size_t_small (need - last_size)),
      (int_small (need - last_size)) by lia.
    unfold mem_sbrk.
    replace ((need - last_size <? 0) || (mem_max_addr s <? mem_brk s + (need - last_size)))
      with false; [reflexivity|].
    symmetry. apply orb_false_intro; apply Z.ltb_ge; lia. }
  set (s1 := set_brk s (mem_brk s + (need - last_size))) in *.
  assert (R : same_registers s1 (write_tags (remove_link s1 p) p (Z.lor need 1))) by chain.
  destruct R as (_ & _ & _ & Hb).
  exists (write_tags (remove_link s1 p) p (Z.lor need 1)).
  split; [|split; [|split]].
  - unfold mm_malloc. fold need.
    destruct (Z.eqb_spec size 0) as [|_]; [contradiction|].
    rewrite Hfit. change (NULL =? NULL) with true. cbn [negb]. fold last_footer.
    rewrite Hfree. destruct (Z.eqb_spec (mem_heapsize s) 0); [contradiction|].
    cbn [negb andb Z.eqb]. fold last_size.
    replace (50 * SIZE_T_SIZE <? last_size) with true
      by (symmetry; apply Z.ltb_lt; change (50 * SIZE_T_SIZE) with 400; lia).
    fold p. rewrite Hs. reflexivity.
  - rewrite Hb. reflexivity.
  - rewrite Hb. unfold p, last_footer, mem_heap_hi, s1. change SIZE_T_SIZE with 8.
    cbn [mem_brk set_brk]. lia.
  - destruct (tagged_block (remove_link s1 p) p need) as (A & B & C & D);
      [lia | exact Heven |].
    repeat split; assumption.
Qed.

(** A request for 3000 bytes when the heap is one free block of 2032
    bytes. *)
Lemma mm_malloc_grows_a_large_free_last_block_witness :
  exists s',
    mm_malloc FUEL after_two_frees 3000 = Some (LO + 200 + SIZE_T_SIZE, s')
    /\ mem_brk s' = mem_brk after_two_frees + (adjusted_size 3000 - 2032)
    /\ LO + 200 + adjusted_size 3000 = mem_brk s'
    /\ (block_size s' (LO + 200) = adjusted_size 3000 /\ header_flag s' (LO + 200) = 1
        /\ footer_size s' (LO + 200) = adjusted_size 3000
        /\ footer_flag s' (LO + 200) = 1).
Proof.
  apply (mm_malloc_grows_a_large_free_last_block FUEL after_two_frees 3000).
  - discriminate.
  - vm_compute. reflexivity.
  - vm_compute. discriminate.
  - vm_compute. reflexivity.
  - vm_compute. split; [reflexivity | discriminate].
  - vm_compute. reflexivity.
  - vm_compute. discriminate.
Defined.

(** X23.  The first mm_malloc after mm_init, on a provider that has
    claimed nothing yet: the word that ends the heap is the last head of
    the bucket array, which reads as the footer of a free block of size
    0, so the heap is extended by exactly the adjusted size, whatever
    the request; the block starts right behind the array and every
    bucket is still empty afterwards. *)
Theorem first_mm_malloc_extends_by_the_adjusted_size :
  forall (fuel : nat) (s : state) (size : Z),
    let lo := mem_start_brk s in
    let need := adjusted_size size in
    0 < lo ->
    mem_brk s = lo ->
    size <> 0 ->
    need < 2 ^ 31 ->
    lo + 200 + need <= mem_max_addr s ->
    exists s',
      mm_malloc (S fuel) (snd (mm_init s)) size = Some (lo + 200 + SIZE_T_SIZE, s')
      /\ mem_brk s' = lo + 200 + need
      /\ (block_size s' (lo + 200) = need /\ header_flag s' (lo + 200) = 1
          /\ footer_size s' (lo + 200) = need /\ footer_flag s' (lo + 200) = 1)
      /\ (forall j, 0 <= j < MAXPOW -> rd s' (lo + j * sizeof_ptr) = NULL).
Proof.
  intros fuel s size lo need Hlo Hbrk Hsize Hneed Hroom.
  destruct (adjusted_size_bounds size) as [[Hn _] _]. fold need in Hn.
  destruct (mm_init_spec s) as (_ & Hf & Hs & Hm & Hb & Hz & _); [unfold NULL; fold lo; lia|].
  fold lo in Hf, Hs, Hm, Hb, Hz.
  set (s0 := snd (mm_init s)) in *.
  rewrite Hbrk in Hb.
  destruct (Z.ltb_spec (mem_max_addr s) (lo + 200)); [lia|].
  assert (Hfit : get_optimal_free_block (S fuel) s0 need = Some NULL).
  { apply get_optimal_outer_empty; [|apply seglist_index_range].
    intros j Hj. unfold seglist_slot. rewrite Hf. apply Hz. exact Hj. }
  assert (Hlast : rd s0 (mem_heap_hi s0 - (SIZE_T_SIZE - 1)) = NULL).
  { unfold mem_heap_hi. rewrite Hb. change SIZE_T_SIZE with 8.
    replace (lo + 200 - 1 - (8 - 1)) with (lo + 24 * sizeof_ptr) by (unfold sizeof_ptr; lia).
    apply Hz. unfold MAXPOW. lia. }
  destruct (extend_by_need s0 need ltac:(lia) (need_even size)) as (s' & E & Hb' & Ht & Hfr).
  { rewrite Hb. unfold NULL. lia. }
  { rewrite Hb, Hm. exact Hroom. }
  rewrite Hb in E, Hb', Ht, Hfr.
  exists s'. split; [|split; [exact Hb' | split; [exact Ht|]]].
  - unfold mm_malloc. fold need.
    destruct (Z.eqb_spec size 0) as [|_]; [contradiction|].
    rewrite Hfit. change (NULL =? NULL) with true. cbn [negb].
    rewrite Hlast. unfold mem_heapsize. rewrite Hb, Hs.
    replace (lo + 200 - lo) with 200 by lia. exact E.
  - intros j Hj. rewrite Hfr; [apply Hz; exact Hj|].
    unfold MAXPOW, sizeof_ptr in *. lia.
Qed.

Lemma first_mm_malloc_extends_by_the_adjusted_size_witness :
  exists s',
    mm_malloc (S 0) (snd (mm_init boot)) 16 = Some (LO + 200 + SIZE_T_SIZE, s')
    /\ mem_brk s' = LO + 200 + adjusted_size 16
    /\ (block_size s' (LO + 200) = adjusted_size 16 /\ header_flag s' (LO + 200) = 1
        /\ footer_size s' (LO + 200) = adjusted_size 16 /\ footer_flag s' (LO + 200) = 1)
    /\ (forall j, 0 <= j < MAXPOW -> rd s' (LO + j * sizeof_ptr) = NULL).
Proof.
  apply (first_mm_malloc_extends_by_the_adjusted_size 0 boot 16).
  - vm_compute. reflexivity.
  - vm_compute. reflexivity.
  - discriminate.
  - vm_compute. reflexivity.
  - vm_compute. discriminate.
Defined.

(** ** mm_realloc *)

Lemma block_size_range (s : state) (b : Z) : 0 <= block_size s b < 2 ^ 64.
Proof.
  unfold block_size. pose proof (rd_range s b). pose proof (GETSIZE_range (rd s b)). lia.
Qed.

Lemma need_below (size : Z) : adjusted_size size <= 2 ^ 64 - 8.
Proof.
  destruct (adjusted_size_bounds size) as [[_ Hhi] Hmod].
  pose proof (Z.div_mod (adjusted_size size) 8 ltac:(lia)) as Hd. rewrite Hmod in Hd. lia.
Qed.

Lemma mm_realloc_within_slack (fuel : nat) (s : state) (ptr newsize : Z) :
  adjusted_size newsize <= block_size s (ptr - SIZE_T_SIZE) <= adjusted_size newsize + 32 ->
  mm_realloc fuel s ptr newsize = Some (ptr, s).
Proof.
  unfold block_size. intros H. unfold mm_realloc. cbv zeta.
  destruct (Z.ltb_spec (GETSIZE (rd s (ptr - SIZE_T_SIZE))) (adjusted_size newsize)); [lia|].
  unfold realloc_shrink. rewrite size_t_small.
  - change (4 * SIZE_T_SIZE) with 32.
    destruct (Z.ltb_spec 32 (GETSIZE (rd s (ptr - SIZE_T_SIZE)) - adjusted_size newsize));
      [lia | reflexivity].
  - pose proof (block_size_range s (ptr - SIZE_T_SIZE)). unfold block_size in *.
    destruct (adjusted_size_bounds newsize) as [[? ?] _]. lia.
Qed.



(** X25.  mm_malloc followed by mm_realloc of the pointer it returned,
    to the size that was asked of mm_malloc: the same pointer comes
    back and the state is the one mm_malloc left. *)
Theorem mm_malloc_then_mm_realloc_of_the_same_size :
  forall (fuel fuel' : nat) (s s' : state) (size r : Z),
    0 < size < 2 ^ 31 - 24 ->
    mm_malloc fuel s size = Some (r, s') ->
    r <> NULL ->
    mm_realloc fuel' s' r size = Some (r, s').
Proof.
  intros fuel fuel' s s' size r Hsize H Hr.
  destruct (mm_malloc_tags fuel s s' size r Hsize H Hr) as (_ & _ & _ & Hb).
  apply mm_realloc_within_slack. lia.
Qed.

Lemma mm_malloc_then_mm_realloc_of_the_same_size_witness :
  mm_realloc FUEL (snd (or_else (mm_malloc FUEL after_two_allocations 100) (NULL, boot)))
             (fst (or_else (mm_malloc FUEL after_two_allocations 100) (NULL, boot))) 100
  = Some (fst (or_else (mm_malloc FUEL after_two_allocations 100) (NULL, boot)),
          snd (or_else (mm_malloc FUEL after_two_allocations 100) (NULL, boot))).
Proof.
  apply (mm_malloc_then_mm_realloc_of_the_same_size FUEL FUEL after_two_allocations).
  - lia.
  - apply or_else_pair. vm_compute. reflexivity.
  - vm_compute. discriminate.
Defined.

(** X26.  mm_realloc of the last block of the heap to a larger size,
    when the word in front of the block is not the footer of a free
    block and the provider has the room: the heap is extended by exactly
    the missing bytes, the block is grown in place and keeps its
    pointer, and its payload is not touched. *)
Theorem mm_realloc_grows_the_last_block :
  forall (fuel : nat) (s : state) (ptr newsize : Z),
    let header := ptr - SIZE_T_SIZE in
    let current := block_size s header in
    let need := adjusted_size newsize in
    current < need ->
    mem_heap_hi s < header + current ->
    header - SIZE_T_SIZE < heap_start s
    \/ GETDIRTYBIT (rd s (header - SIZE_T_SIZE)) = 1 ->
    need - current < 2 ^ 31 ->
    mem_brk s <> NULL ->
    mem_brk s + (need - current) <= mem_max_addr s ->
    exists s',
      mm_realloc fuel s ptr newsize = Some (ptr, s')
      /\ mem_brk s' = mem_brk s + (need - current)
      /\ (block_size s' header = need /\ header_flag s' header = 1
          /\ footer_size s' header = need /\ footer_flag s' header = 1)
      /\ (forall a, ptr <= a -> a + 16 <= header + need -> rd s' a = rd s a).
Proof.
  intros fuel s ptr newsize header current need Hgrow Hlast Hprev Hint Hbrk Hroom.
  destruct (adjusted_size_bounds newsize) as [[Hlo Hhi] _]. fold need in Hlo, Hhi.
  pose proof (need_even newsize) as Heven. fold need in Heven.
  pose proof (need_below newsize) as Hbelow. fold need in Hbelow.
  pose proof (block_size_range s header) as Hcur. fold current in Hcur.
  assert (Hgs : GETSIZE (Z.lor need 1) = need) by now apply GETSIZE_tagged.
  assert (Hl1 : Z.lor need 1 = need + 1) by now apply lor_1_even.
  set (s1 := set_brk s (mem_brk s + (need - current))).
  exists (write_tags s1 header (Z.lor need 1)).
  split; [|split; [reflexivity | split]].
  - unfold mm_realloc. cbv zeta. fold header need.
    change (GETSIZE (rd s header)) with current.
    destruct (Z.ltb_spec current need); [|lia].
    destruct (Z.leb_spec (header + current) (mem_heap_hi s)); [lia|].
    rewrite !andb_false_r. cbn [andb negb].
    replace ((heap_start s <=? header - SIZE_T_SIZE)
             && (GETDIRTYBIT (rd s (header - SIZE_T_SIZE)) =? 0)) with false.
    2:{ symmetry. destruct Hprev as [Hp | Hp].
        - destruct (Z.leb_spec (heap_start s) (header - SIZE_T_SIZE)); [lia | reflexivity].
        - rewrite Hp. apply andb_false_r. }
    cbn [andb]. unfold realloc_last.
    replace ((heap_start s <=? header - SIZE_T_SIZE)
             && (GETDIRTYBIT (rd s (header - SIZE_T_SIZE)) =? 0)) with false.
    2:{ symmetry. destruct Hprev as [Hp | Hp].
        - destruct (Z.leb_spec (heap_start s) (header - SIZE_T_SIZE)); [lia | reflexivity].
        - rewrite Hp. apply andb_false_r. }
    rewrite (size_t_small (need - current)), (int_small (need - current)) by lia.
    unfold mem_sbrk.
    replace ((need - current <? 0) || (mem_max_addr s <? mem_brk s + (need - current)))
      with false.
    2:{ symmetry. apply orb_false_intro; apply Z.ltb_ge; lia. }
    destruct (Z.eqb_spec (mem_brk s) NULL); [contradiction | reflexivity].
  - destruct (tagged_block s1 header need) as (A & B & C & D); [lia | exact Heven |].
    repeat split; assumption.
  - intros a H1 H2. unfold header in *. change SIZE_T_SIZE with 8 in *.
    rewrite write_tags_frame; [reflexivity | lia | lia |]. rewrite Hgs. lia.
Qed.

(** The only block of the heap is grown from 32 to 120 bytes. *)
Lemma mm_realloc_grows_the_last_block_witness :
  exists s',
    mm_realloc FUEL after_first_allocation (LO + 208) 100 = Some (LO + 208, s')
    /\ mem_brk s'
       = mem_brk after_first_allocation
         + (adjusted_size 100 - block_size after_first_allocation (LO + 208 - SIZE_T_SIZE))
    /\ (block_size s' (LO + 208 - SIZE_T_SIZE) = adjusted_size 100
        /\ header_flag s' (LO + 208 - SIZE_T_SIZE) = 1
        /\ footer_size s' (LO + 208 - SIZE_T_SIZE) = adjusted_size 100
        /\ footer_flag s' (LO + 208 - SIZE_T_SIZE) = 1)
    /\ (forall a, LO + 208 <= a -> a + 16 <= LO + 208 - SIZE_T_SIZE + adjusted_size 100 ->
                  rd s' a = rd after_first_allocation a).
Proof.
  apply (mm_realloc_grows_the_last_block FUEL after_first_allocation (LO + 208) 100).
  - vm_compute. reflexivity.
  - vm_compute. reflexivity.
  - left. vm_compute. reflexivity.
  - vm_compute. reflexivity.
  - vm_compute. discriminate.
  - vm_compute. discriminate.
Defined.

(** ** mm_coalesce and mm_free *)

(** A block whose neighbours are allocated, or absent, is left as it is. *)
Lemma mm_coalesce_isolated (s : state) (h : Z) :
  mem_heap_hi s <= h + block_size s h \/ header_flag s (h + block_size s h) = 1 ->
  footer_size s h = block_size s h ->
  h - SIZE_T_SIZE <= heap_start s
  \/ header_flag s (h - SIZE_T_SIZE - GETSIZE (rd s (h - SIZE_T_SIZE)) + SIZE_T_SIZE) = 1 ->
  mm_coalesce s h = (h, s).
Proof.
  unfold block_size, header_flag, footer_size. intros Hnext Hfoot Hprev.
  unfold mm_coalesce. cbv zeta.
  replace ((h + GETSIZE (rd s h) <? mem_heap_hi s)
           && (GETDIRTYBIT (rd s (h + GETSIZE (rd s h))) =? 0)) with false.
  2:{ symmetry. destruct Hnext as [Hn | Hn].
      - destruct (Z.ltb_spec (h + GETSIZE (rd s h)) (mem_heap_hi s)); [lia | reflexivity].
      - rewrite Hn. apply andb_false_r. }
  rewrite Hfoot.
  replace (GETFOOTER s h - GETSIZE (rd s h)) with (h - SIZE_T_SIZE)
    by (unfold GETFOOTER; lia).
  destruct Hprev as [Hp | Hp].
  - destruct (Z.leb_spec (h - SIZE_T_SIZE) (heap_start s)); [reflexivity | lia].
  - rewrite Hp. destruct (_ <=? _); reflexivity.
Qed.

Lemma load_le_byte (n : nat) :
  forall (m : Mem.memory) (a i : Z),
    0 <= i < Z.of_nat n ->
    Z.shiftr (Mem.load_le n m a) (8 * i) mod 256 = m (a + i) mod 256.
Proof.
  induction n as [|n IH]; intros m a i Hi; [lia|].
  cbn [Mem.load_le].
  pose proof (Z.mod_pos_bound (m a) 256 ltac:(lia)) as Hb.
  destruct (Z.eq_dec i 0) as [->|Hne].
  - rewrite Z.mul_0_r, Z.shiftr_0_r, Z.add_0_r.
    rewrite (Z.mul_comm 256), Z.mod_add by lia. apply Z.mod_mod. lia.
  - replace (8 * i) with (8 + 8 * (i - 1)) by lia.
    rewrite <- Z.shiftr_shiftr by lia.
    rewrite (Z.shiftr_div_pow2 _ 8) by lia. change (2 ^ 8) with 256.
    replace ((m a mod 256 + 256 * Mem.load_le n m (a + 1)) / 256)
      with (Mem.load_le n m (a + 1)).
    2:{ apply (Z.div_unique _ 256 _ (m a mod 256)); lia. }
    rewrite IH by lia. f_equal. f_equal. lia.
Qed.

(** A byte of a word that was read at [a]. *)
Lemma rd_byte (s : state) (a v x : Z) :
  rd s a = v -> a <= x < a + 8 ->
  Z.shiftr v (8 * (x - a)) mod 256 = heap s x mod 256.
Proof.
  intros <- Hx. unfold rd, Mem.load64.
  rewrite load_le_byte by (change (Z.of_nat 8) with 8; lia).
  f_equal. f_equal. lia.
Qed.

(** X27.  mm_free of an allocated block whose neighbours are allocated,
    into an empty bucket, followed by mm_malloc of a size of the same
    bucket that fills the block: the same pointer comes back, the heap
    has not grown, and every word of the store that does not overlap the
    two link words at the start of the payload reads as before the two
    calls, the bucket heads included. *)
Theorem mm_free_then_mm_malloc_restores_the_heap :
  forall (fuel fuel' : nat) (s : state) (ptr size : Z),
    let h := ptr - SIZE_T_SIZE in
    let bs := block_size s h in
    let need := adjusted_size size in
    header_flag s h = 1 ->
    rd s (h + bs - SIZE_T_SIZE) = rd s h ->
    32 <= bs < 2 ^ 31 ->
    mem_heap_hi s <= h + bs \/ header_flag s (h + bs) = 1 ->
    h - SIZE_T_SIZE <= heap_start s
    \/ header_flag s (h - SIZE_T_SIZE - GETSIZE (rd s (h - SIZE_T_SIZE)) + SIZE_T_SIZE) = 1 ->
    rd s (seglist_slot s (seglist_index bs)) = NULL ->
    free_seglist s + MAXPOW * sizeof_ptr <= h ->
    0 < h < 2 ^ 64 ->
    size <> 0 ->
    seglist_index need = seglist_index bs ->
    need <= bs < need + 32 ->
    exists s1 s2,
      mm_free fuel s ptr = Some s1
      /\ mm_malloc (S fuel') s1 size = Some (ptr, s2)
      /\ same_registers s s2
      /\ (forall a, a <= h \/ h + 24 <= a -> rd s2 a = rd s a).
Proof.
  intros fuel fuel' s ptr size h bs need Hflag Hfoot Hbs Hnext Hprev Hempty Hlay Hh Hsize
         Hidx Hfit.
  pose proof (block_size_range s h) as Hr.
  assert (Heven : bs mod 2 = 0) by apply GETSIZE_is_even.
  assert (Hl1 : Z.lor bs 1 = bs + 1) by now apply lor_1_even.
  assert (Hhdr : rd s h = bs + 1).
  { unfold header_flag, GETDIRTYBIT in Hflag. rewrite land_1 in Hflag.
    unfold bs, block_size, GETSIZE. rewrite land_minus_2.
    pose proof (Z.div_mod (rd s h) 2 ltac:(lia)). lia. }
  assert (Hgs1 : GETSIZE (bs + 1) = bs) by (rewrite <- Hl1; now apply GETSIZE_tagged).
  assert (Hgs : GETSIZE bs = bs) by now apply GETSIZE_even.
  pose proof (slot_below s _ h (seglist_index_range bs) Hlay) as Hslot.
  set (slot := seglist_slot s (seglist_index bs)) in *.
  (* mm_free *)
  set (sa := wr (wr (wr s slot h) (h + 8) 0) (h + 16) 0).
  set (s1 := wr sa h bs).
  assert (Ha : rd sa h = bs + 1).
  { unfold sa. rewrite !rd_wr_other by lia. exact Hhdr. }
  assert (E1 : mm_free fuel s ptr = Some s1).
  { unfold mm_free. cbv zeta. fold h.
    unfold header_flag in Hflag. rewrite Hflag. change (1 =? 0) with false. cbv iota.
    rewrite mm_coalesce_isolated.
    - unfold add_to_list. fold (block_size s h). fold bs. fold slot. rewrite Hempty.
      change (NULL =? NULL) with true. cbv iota zeta.
      unfold NEXTFREE_addr, PREVFREE_addr. change SIZE_T_SIZE with 8.
      change (2 * 8) with 16. change NULL with 0. fold sa.
      rewrite Ha. change (Z.land (bs + 1) (-2)) with (GETSIZE (bs + 1)). rewrite Hgs1.
      reflexivity.
    - exact Hnext.
    - unfold footer_size, GETFOOTER. fold (block_size s h). fold bs.
      rewrite Hfoot, Hhdr. exact Hgs1.
    - exact Hprev. }
  (* the state left by mm_free *)
  assert (H1h : rd s1 h = bs) by (apply rd_wr_same; lia).
  assert (H1s : rd s1 slot = h).
  { unfold s1, sa. rewrite !rd_wr_other by lia. apply rd_wr_same. lia. }
  assert (H1n : rd s1 (h + 8) = 0).
  { unfold s1, sa. rewrite !rd_wr_other by lia. apply rd_wr_same. lia. }
  assert (H1p : rd s1 (h + 16) = 0).
  { unfold s1, sa. rewrite rd_wr_other by lia. apply rd_wr_same. lia. }
  (* mm_malloc *)
  set (s3 := wr s1 slot 0).
  set (s2 := wr (wr s3 h (bs + 1)) (h + bs - 8) (bs + 1)).
  assert (E2 : mm_malloc (S fuel') s1 size = Some (ptr, s2)).
  { unfold mm_malloc. fold need.
    destruct (Z.eqb_spec size 0); [contradiction|].
    rewrite (get_optimal_head fuel' s1 need h).
    - destruct (Z.eqb_spec h NULL) as [E|_]; [unfold NULL in E; lia|].
      cbn [negb].
      assert (Hrm : remove_link s1 h = s3).
      { unfold remove_link, GETNEXTFREE, GETPREVFREE, NEXTFREE_addr, PREVFREE_addr.
        change SIZE_T_SIZE with 8. change (2 * 8) with 16.
        rewrite H1n, H1p. change (0 =? NULL) with true. cbn [andb].
        rewrite H1h, Hgs. reflexivity. }
      rewrite Hrm.
      assert (H3h : rd s3 h = bs) by (unfold s3; rewrite rd_wr_other by lia; exact H1h).
      rewrite H3h, Hgs, (int_small bs) by lia.
      rewrite (size_t_small (bs - need)) by lia.
      change (ALIGN (4 * SIZE_T_SIZE)) with 32.
      destruct (Z.leb_spec 32 (bs - need)); [lia|].
      rewrite Hl1, (size_t_small (bs + 1)) by lia.
      unfold write_tags, GETFOOTER.
      rewrite (rd_wr_same s3 h (bs + 1)) by lia. rewrite Hgs1.
      change SIZE_T_SIZE with 8. fold s2.
      replace (h + 8) with ptr by (unfold h; change SIZE_T_SIZE with 8; lia).
      reflexivity.
    - rewrite Hidx. exact H1s.
    - unfold NULL. lia.
    - rewrite H1h, Hgs. lia. }
  exists s1, s2. split; [exact E1|]. split; [exact E2|]. split; [repeat split|].
  (* the store *)
  intros a Ha'.
  assert (Hfoot' : rd s (h + bs - 8) = bs + 1) by (rewrite <- Hhdr; exact Hfoot).
  unfold rd at 1. unfold rd at 1. unfold Mem.load64.
  apply load_le_ext_mod. intros x Hx. change (Z.of_nat 8) with 8 in Hx.
  unfold s2, s3, s1, sa, wr, set_heap. cbn [heap]. unfold Mem.store64.
  destruct (Z.leb_spec (h + bs - 8) x); destruct (Z.ltb_spec x (h + bs - 8 + 8)); cbn [andb].
  1:{ rewrite Z.mod_mod by lia. apply (rd_byte s (h + bs - 8) (bs + 1) x Hfoot'). lia. }
  all: destruct (Z.leb_spec h x); destruct (Z.ltb_spec x (h + 8)); cbn [andb]; try lia.
  all: try (rewrite Z.mod_mod by lia; apply (rd_byte s h (bs + 1) x Hhdr); lia).
  all: destruct (Z.leb_spec slot x); destruct (Z.ltb_spec x (slot + 8)); cbn [andb]; try lia.
  all: try (rewrite Z.mod_mod by lia; apply (rd_byte s slot 0 x Hempty); lia).
  all: destruct (Z.leb_spec (h + 16) x); destruct (Z.ltb_spec x (h + 16 + 8));
    cbn [andb]; try lia.
  all: destruct (Z.leb_spec (h + 8) x); destruct (Z.ltb_spec x (h + 8 + 8));
    cbn [andb]; try lia.
  all: reflexivity.
Qed.

(** The only block of the heap, of 32 bytes, is released and 16 bytes
    are asked for. *)
Lemma mm_free_then_mm_malloc_restores_the_heap_witness :
  exists s1 s2,
    mm_free FUEL after_first_allocation (LO + 208) = Some s1
    /\ mm_malloc (S 0) s1 16 = Some (LO + 208, s2)
    /\ same_registers after_first_allocation s2
    /\ (forall a, a <= LO + 208 - SIZE_T_SIZE \/ LO + 208 - SIZE_T_SIZE + 24 <= a ->
                  rd s2 a = rd after_first_allocation a).
Proof.
  apply (mm_free_then_mm_malloc_restores_the_heap FUEL 0 after_first_allocation (LO + 208) 16).
  - vm_compute. reflexivity.
  - vm_compute. reflexivity.
  - vm_compute. split; [discriminate | reflexivity].
  - left. vm_compute. discriminate.
  - left. vm_compute. discriminate.
  - vm_compute. reflexivity.
  - vm_compute. discriminate.
  - vm_compute. split; reflexivity.
  - discriminate.
  - vm_compute. reflexivity.
  - vm_compute. split; [discriminate | reflexivity].
Defined.

(** X28.  mm_free of an allocated block in front of a free block that is
    alone in its bucket, the block before it being allocated or absent:
    the two blocks become one free block, whose header and footer carry
    the sum of the sizes, and which heads the bucket of that sum with no
    neighbour; the heap does not grow.  The footer of the merged block
    still carries the allocated flag. *)
Theorem mm_free_merges_with_the_next_free_block :
  forall (fuel : nat) (s : state) (ptr : Z),
    let h := ptr - SIZE_T_SIZE in
    let bs := block_size s h in
    let next := h + bs in
    let ns := block_size s next in
    let prev_header := h - SIZE_T_SIZE - GETSIZE (rd s (h - SIZE_T_SIZE)) + SIZE_T_SIZE in
    let slot := seglist_slot s (seglist_index (bs + ns)) in
    header_flag s h = 1 ->
    32 <= bs -> 32 <= ns ->
    next < mem_heap_hi s ->
    header_flag s next = 0 ->
    GETNEXTFREE s next = NULL -> GETPREVFREE s next = NULL ->
    free_seglist s + MAXPOW * sizeof_ptr <= h ->
    0 < h -> h + bs + ns < 2 ^ 64 ->
    h - SIZE_T_SIZE <= heap_start s
    \/ (free_seglist s + MAXPOW * sizeof_ptr <= prev_header
        /\ prev_header + SIZE_T_SIZE <= h /\ header_flag s prev_header = 1) ->
    (seglist_index (bs + ns) <> seglist_index ns -> rd s slot = NULL) ->
    exists s',
      mm_free fuel s ptr = Some s'
      /\ block_size s' h = bs + ns
      /\ header_flag s' h = 0
      /\ footer_size s' h = bs + ns
      /\ footer_flag s' h = 1
      /\ rd s' slot = h
      /\ GETNEXTFREE s' h = NULL /\ GETPREVFREE s' h = NULL
      /\ mem_brk s' = mem_brk s.
Proof.
  intros fuel s ptr h bs next ns prev_header slot Hflag Hbs Hns Hlast Hfree Hnn Hnp Hlay
         Hh Htop Hprev Hbucket.
  pose proof (block_size_range s h) as Hr. fold bs in Hr.
  assert (Heven : bs mod 2 = 0) by apply GETSIZE_is_even.
  assert (Hneven : ns mod 2 = 0) by apply GETSIZE_is_even.
  assert (Hseven : (bs + ns) mod 2 = 0).
  { rewrite Z.add_mod, Heven, Hneven by lia. reflexivity. }
  assert (Hhdr : rd s h = bs + 1).
  { unfold header_flag, GETDIRTYBIT in Hflag. rewrite land_1 in Hflag.
    unfold bs, block_size, GETSIZE. rewrite land_minus_2.
    pose proof (Z.div_mod (rd s h) 2 ltac:(lia)). lia. }
  assert (Hnhdr : rd s next = ns).
  { unfold header_flag, GETDIRTYBIT in Hfree. rewrite land_1 in Hfree.
    unfold ns, block_size, GETSIZE. rewrite land_minus_2.
    pose proof (Z.div_mod (rd s next) 2 ltac:(lia)). lia. }
  assert (Hgn : GETSIZE ns = ns) by now apply GETSIZE_even.
  assert (Hl1 : Z.lor (bs + ns) 1 = bs + ns + 1) by now apply lor_1_even.
  assert (Hgm : GETSIZE (bs + ns + 1) = bs + ns) by (rewrite <- Hl1; now apply GETSIZE_tagged).
  assert (Hdm : GETDIRTYBIT (bs + ns + 1) = 1)
    by (rewrite <- Hl1; now apply GETDIRTYBIT_tagged).
  assert (Hge : GETSIZE (bs + ns) = bs + ns) by now apply GETSIZE_even.
  assert (Hde : GETDIRTYBIT (bs + ns) = 0) by (unfold GETDIRTYBIT; now rewrite land_1).
  pose proof (slot_below s _ h (seglist_index_range ns) Hlay) as Hslotn.
  pose proof (slot_below s _ h (seglist_index_range (bs + ns)) Hlay) as Hslot.
  fold slot in Hslot.
  set (slot_n := seglist_slot s (seglist_index ns)) in *.
  (* mm_coalesce *)
  set (sa := wr s slot_n 0).
  set (sb := wr sa h (bs + ns + 1)).
  set (s1 := wr sb (h + bs + ns - 8) (bs + ns + 1)).
  assert (H1h : rd s1 h = bs + ns + 1).
  { unfold s1. rewrite rd_wr_other by lia. apply rd_wr_same. lia. }
  assert (H1f : rd s1 (h + bs + ns - 8) = bs + ns + 1) by (apply rd_wr_same; lia).
  assert (Ec : mm_coalesce s h = (h, s1)).
  { unfold mm_coalesce. cbv zeta. fold (block_size s h). fold bs. fold next.
    destruct (Z.ltb_spec next (mem_heap_hi s)); [|lia].
    unfold header_flag in Hfree. rewrite Hfree. change (0 =? 0) with true. cbn [andb].
    assert (Hrm : remove_link s next = sa).
    { unfold remove_link. rewrite Hnn, Hnp. change (NULL =? NULL) with true. cbn [andb].
      rewrite Hnhdr, Hgn. reflexivity. }
    rewrite Hrm.
    assert (Hah : rd sa h = bs + 1) by (unfold sa; rewrite rd_wr_other by lia; exact Hhdr).
    assert (Han : rd sa next = ns)
      by (unfold sa; rewrite rd_wr_other by (unfold next; lia); exact Hnhdr).
    rewrite Hah, Han, Hgn, (size_t_small (bs + 1 + ns)) by lia.
    replace (bs + 1 + ns) with (bs + ns + 1) by lia. fold sb.
    assert (Hbn : rd sb next = ns)
      by (unfold sb; rewrite rd_wr_other by (unfold next; lia); exact Han).
    assert (Hbh : rd sb h = bs + ns + 1) by (apply rd_wr_same; lia).
    assert (Hfn : GETFOOTER sb next = h + bs + ns - 8).
    { unfold GETFOOTER. rewrite Hbn, Hgn. unfold next. change SIZE_T_SIZE with 8. lia. }
    rewrite Hfn, Hbh. fold s1.
    assert (Hf1 : GETFOOTER s1 h = h + bs + ns - 8).
    { unfold GETFOOTER. rewrite H1h, Hgm. change SIZE_T_SIZE with 8. lia. }
    rewrite Hf1, H1f, Hgm. change SIZE_T_SIZE with 8.
    replace (h + bs + ns - 8 - (bs + ns)) with (h - 8) by lia.
    destruct (Z.leb_spec (h - 8) (heap_start s)) as [|Hgt]; [reflexivity|].
    destruct Hprev as [Hp | (Hp1 & Hp2 & Hp3)]; [change SIZE_T_SIZE with 8 in Hp; lia|].
    change SIZE_T_SIZE with 8 in *.
    assert (Hstart : free_seglist s + MAXPOW * sizeof_ptr <= h - 8).
    { pose proof (rd_range s (h - 8)) as Hr8.
      pose proof (GETSIZE_range (rd s (h - 8)) Hr8). unfold prev_header in Hp1, Hp2. lia. }
    pose proof (slot_below s _ (h - 8) (seglist_index_range ns) Hstart) as Hs8.
    pose proof (slot_below s _ prev_header (seglist_index_range ns) Hp1) as Hsp.
    fold slot_n in Hs8, Hsp.
    assert (H18 : rd s1 (h - 8) = rd s (h - 8)).
    { unfold s1, sb, sa. rewrite !rd_wr_other by lia. reflexivity. }
    rewrite H18. fold prev_header.
    assert (H1p : rd s1 prev_header = rd s prev_header).
    { unfold s1, sb, sa. rewrite !rd_wr_other by lia. reflexivity. }
    rewrite H1p. unfold header_flag in Hp3. rewrite Hp3. reflexivity. }
  (* add_to_list *)
  assert (Hempty : rd s1 (seglist_slot s1 (seglist_index (GETSIZE (rd s1 h)))) = NULL).
  { rewrite H1h, Hgm. change (seglist_slot s1 (seglist_index (bs + ns))) with slot.
    destruct (Z.eq_dec (seglist_index (bs + ns)) (seglist_index ns)) as [E|E].
    - unfold slot. rewrite E. fold slot_n.
      unfold s1, sb. rewrite !rd_wr_other by lia. change NULL with 0. apply rd_wr_same. lia.
    - unfold s1, sb, sa.
      assert (Hd : slot + 8 <= slot_n \/ slot_n + 8 <= slot).
      { pose proof (seglist_index_range ns). pose proof (seglist_index_range (bs + ns)).
        unfold slot, slot_n, seglist_slot, sizeof_ptr. lia. }
      rewrite !rd_wr_other by lia. apply Hbucket. exact E. }
  destruct (add_to_list_empty fuel s1 h Hempty ltac:(lia))
    as (s2 & E2 & H2s & H2n & H2p & H2h & H2r & H2f).
  { left. rewrite H1h, Hgm. exact Hslot. }
  rewrite H1h, Hgm in H2s, H2f.
  change (seglist_slot s1 (seglist_index (bs + ns))) with slot in H2s, H2f.
  exists (wr s2 h (Z.land (rd s2 h) (-2))).
  assert (H2h' : rd s2 h = bs + ns + 1) by (rewrite H2h; exact H1h).
  rewrite H2h'. change (Z.land (bs + ns + 1) (-2)) with (GETSIZE (bs + ns + 1)). rewrite Hgm.
  assert (Hfh : rd (wr s2 h (bs + ns)) h = bs + ns) by (apply rd_wr_same; lia).
  assert (Hff : rd (wr s2 h (bs + ns)) (h + bs + ns - 8) = bs + ns + 1).
  { rewrite rd_wr_other by lia. rewrite H2f by lia. exact H1f. }
  split.
  { unfold mm_free. cbv zeta. fold h. unfold header_flag in Hflag. rewrite Hflag.
    change (1 =? 0) with false. cbv iota. rewrite Ec, E2, H2h'.
    change (Z.land (bs + ns + 1) (-2)) with (GETSIZE (bs + ns + 1)). rewrite Hgm.
    reflexivity. }
  unfold block_size, header_flag, footer_size, footer_flag, GETFOOTER.
  rewrite Hfh, Hge, Hde. change SIZE_T_SIZE with 8.
  replace (h + (bs + ns) - 8) with (h + bs + ns - 8) by lia.
  rewrite Hff, Hgm, Hdm.
  split; [reflexivity|]. split; [reflexivity|]. split; [reflexivity|].
  split; [reflexivity|]. split.
  { rewrite rd_wr_other by lia. exact H2s. }
  split.
  { unfold GETNEXTFREE, NEXTFREE_addr in *. change SIZE_T_SIZE with 8 in *.
    rewrite rd_wr_other by lia. exact H2n. }
  split.
  { unfold GETPREVFREE, PREVFREE_addr in *. change SIZE_T_SIZE with 8 in *.
    rewrite rd_wr_other by lia. exact H2p. }
  destruct (add_to_list_registers fuel s1 s2 h E2) as (Hb & _).
  cbn [mem_brk wr set_heap]. rewrite Hb. reflexivity.
Qed.

(** The second block of [after_two_allocations] is released in front of
    the spare block that its allocation left behind. *)
Lemma mm_free_merges_with_the_next_free_block_witness :
  exists s',
    mm_free FUEL after_two_allocations (LO + 240) = Some s'
    /\ block_size s' (LO + 232) = 32 + 32
    /\ header_flag s' (LO + 232) = 0
    /\ footer_size s' (LO + 232) = 32 + 32
    /\ footer_flag s' (LO + 232) = 1
    /\ rd s' (seglist_slot after_two_allocations (seglist_index (32 + 32))) = LO + 232
    /\ GETNEXTFREE s' (LO + 232) = NULL /\ GETPREVFREE s' (LO + 232) = NULL
    /\ mem_brk s' = mem_brk after_two_allocations.
Proof.
  apply (mm_free_merges_with_the_next_free_block FUEL after_two_allocations (LO + 240)).
  - vm_compute. reflexivity.
  - vm_compute. discriminate.
  - vm_compute. discriminate.
  - vm_compute. reflexivity.
  - vm_compute. reflexivity.
  - vm_compute. reflexivity.
  - vm_compute. reflexivity.
  - vm_compute. discriminate.
  - vm_compute. reflexivity.
  - vm_compute. reflexivity.
  - right. vm_compute. repeat split; discriminate.
  - intros _. vm_compute. reflexivity.
Defined.

(** ** mm_check *)

Lemma check_buckets_empty (fuel : nat) (s : state) :
  (forall j, 0 <= j < MAXPOW -> rd s (seglist_slot s j) = NULL) ->
  forall (n : nat) (i : Z) (flist sizepb : bool),
    0 <= i ->
    check_buckets n (S fuel) s i flist sizepb = Some (flist, sizepb).
Proof.
  intros H. induction n as [|n IH]; intros i flist sizepb Hi; [reflexivity|].
  cbn [check_buckets]. destruct (Z.ltb_spec i MAXPOW); [|reflexivity].
  rewrite H by lia. cbn [check_bucket]. change (NULL =? NULL) with true. cbv iota.
  rewrite !orb_false_r. apply IH. lia.
Qed.

(** X29.  The three passes of mm_check over the heap start at the second
    block: when every bucket is empty and the first block reaches the
    end of the heap, mm_check reports nothing, whatever the header, the
    footer and the links of that first block are. *)
Theorem mm_check_never_examines_the_first_block :
  forall (fuel : nat) (s : state),
    (forall j, 0 <= j < MAXPOW -> rd s (seglist_slot s j) = NULL) ->
    heap_start s <> mem_heap_hi s ->
    mem_heap_hi s <= GETNEXTBLOCK s (heap_start s) ->
    mm_check (S fuel) s = Some [].
Proof.
  intros fuel s Hempty Hne Hone.
  unfold mm_check. change (Z.to_nat MAXPOW) with 25%nat.
  rewrite (check_buckets_empty fuel s Hempty 25 0 false false) by lia.
  cbv zeta. destruct (Z.eqb_spec (heap_start s) (mem_heap_hi s)); [contradiction|].
  cbn [negb check_coald check_finlist check_coherent].
  destruct (Z.ltb_spec (GETNEXTBLOCK s (heap_start s)) (mem_heap_hi s)); [lia|].
  reflexivity.
Qed.

Lemma mm_check_never_examines_the_first_block_witness :
  mm_check (S 0) after_first_allocation = Some [].
Proof.
  apply (mm_check_never_examines_the_first_block 0 after_first_allocation).
  - intros j Hj. unfold MAXPOW in Hj.
    assert (H : j = 0 \/ j = 1 \/ j = 2 \/ j = 3 \/ j = 4 \/ j = 5 \/ j = 6 \/ j = 7
                \/ j = 8 \/ j = 9 \/ j = 10 \/ j = 11 \/ j = 12 \/ j = 13 \/ j = 14
                \/ j = 15 \/ j = 16 \/ j = 17 \/ j = 18 \/ j = 19 \/ j = 20 \/ j = 21
                \/ j = 22 \/ j = 23 \/ j = 24) by lia.
    repeat (destruct H as [-> | H]; [vm_compute; reflexivity|]).
    subst j. vm_compute. reflexivity.
  - vm_compute. discriminate.
  - vm_compute. discriminate.
Defined.

Lemma check_bucket_allocated_head (fuel : nat) (s : state) (i h : Z) (r : bool * bool) :
  h <> NULL -> GETDIRTYBIT (rd s h) <> 0 ->
  check_bucket fuel s i h = Some r -> r = (true, false).
Proof.
  intros Hh Hd. destruct fuel as [|fuel]; [discriminate|].
  cbn [check_bucket].
  destruct (Z.eqb_spec h NULL); [contradiction|].
  destruct (Z.eqb_spec (GETDIRTYBIT (rd s h)) 0); [contradiction|].
  cbn [negb]. now intros [= <-].
Qed.

Lemma check_buckets_flist (fuel : nat) (s : state) (i : Z) :
  rd s (seglist_slot s i) <> NULL ->
  GETDIRTYBIT (rd s (rd s (seglist_slot s i))) <> 0 ->
  forall (n : nat) (k : Z) (flist sizepb flist' sizepb' : bool),
    check_buckets n fuel s k flist sizepb = Some (flist', sizepb') ->
    (flist = true -> flist' = true)
    /\ (k <= i < k + Z.of_nat n -> i < MAXPOW -> flist' = true).
Proof.
  intros Hh Hd. induction n as [|n IH]; intros k flist sizepb flist' sizepb' H.
  - injection H as <- <-. split; [tauto | lia].
  - cbn [check_buckets] in H. destruct (Z.ltb_spec k MAXPOW).
    + destruct (check_bucket fuel s k _) as [[f z]|] eqn:E; [|discriminate].
      destruct (IH _ _ _ _ _ H) as [Hkeep Hfind]. split.
      * intros ->. apply Hkeep. reflexivity.
      * intros Hk Hi. destruct (Z.eq_dec i k) as [->|Hne].
        -- apply (check_bucket_allocated_head fuel s k _ _ Hh Hd) in E.
           injection E as -> ->. apply Hkeep. apply orb_true_r.
        -- apply Hfind; lia.
    + injection H as <- <-. split; [tauto | lia].
Qed.

(** X30.  mm_check catches an allocated block at the head of a bucket:
    whenever it runs to its end on such a state, what it prints contains
    the line that says so. *)
Theorem mm_check_reports_an_allocated_bucket_head :
  forall (fuel : nat) (s : state) (i : Z) (out : list string),
    0 <= i < MAXPOW ->
    rd s (seglist_slot s i) <> NULL ->
    header_flag s (rd s (seglist_slot s i)) <> 0 ->
    mm_check fuel s = Some out ->
    In "Some elts of the free list aren't free"%string out.
Proof.
  intros fuel s i out Hi Hh Hd H. unfold header_flag in Hd.
  unfold mm_check in H.
  destruct (check_buckets _ fuel s 0 false false) as [[flist sizepb]|] eqn:E; [|discriminate].
  destruct (check_buckets_flist fuel s i Hh Hd _ _ _ _ _ _ E) as [_ Hf].
  rewrite Hf in H by (change (Z.of_nat (Z.to_nat MAXPOW)) with MAXPOW; lia).
  cbv zeta in H.
  destruct (if negb _ then _ else _) as [coald|]; [|discriminate].
  destruct (if negb _ then _ else _) as [finlist|]; [|discriminate].
  destruct (if negb _ then _ else _) as [coherent|]; [|discriminate].
  cbn [orb] in H. injection H as <-.
  right. left. reflexivity.
Qed.

(** The state [after_stale_allocation] is reached through mm_init,
    mm_malloc, mm_free and mm_realloc only. *)
Lemma mm_check_reports_an_allocated_bucket_head_witness :
  In "Some elts of the free list aren't free"%string
     (or_else (mm_check FUEL after_stale_allocation) []).
Proof.
  apply (mm_check_reports_an_allocated_bucket_head FUEL after_stale_allocation 2).
  - vm_compute. split; [discriminate | reflexivity].
  - vm_compute. discriminate.
  - vm_compute. discriminate.
  - apply or_else_some. vm_compute. reflexivity.
Defined.
